(** * peekbuffer: a reader with peeking capabilities

    Shallow embedding of [src/peekbuffer/peekbuffer.go] and of the parts of
    Go's runtime and [io] package that it calls.

    - Go's [int] is taken at 64 bits; every arithmetic operation wraps.
    - A [[]byte] is a slice descriptor (backing array, offset, length,
      capacity) into a store of backing arrays, so that two slices can share
      storage as they do in Go.
    - Run-time panics are outcomes of their own.
    - An [io.Reader] is a state machine; the loop of [io.ReadAtLeast] runs on
      fuel, because a reader may return [0, nil] for ever.
    - [make] panics on a negative length and on one above the runtime's limit
      on allocations, [maxAlloc]; a length within the limit is allocated (a
      runtime that runs out of memory stops with a fatal error, which is no
      outcome of a call). *)

From Stdlib Require Import ZArith Lia List Bool.
From Stdlib Require Import Strings.Byte Strings.String.
From stdpp Require Import base tactics option list numbers.

Open Scope Z_scope.

(** ** Go's [int] *)

Module int.

Definition bits : Z := 64.
Definition MaxInt : Z := 2 ^ 63 - 1.
Definition MinInt : Z := - 2 ^ 63.

(** Two's complement wrap-around into [MinInt .. MaxInt]. *)
Definition wrap (z : Z) : Z := (z + 2 ^ 63) mod 2 ^ 64 - 2 ^ 63.

Definition add (a b : Z) : Z := wrap (a + b).
Definition sub (a b : Z) : Z := wrap (a - b).
Definition mul (a b : Z) : Z := wrap (a * b).
(** Go's [/] truncates toward zero. *)
Definition div (a b : Z) : Z := wrap (Z.quot a b).

Definition in_range (z : Z) : Prop := MinInt <= z <= MaxInt.

End int.

(** ** Outcomes of a call: a value, a run-time panic, or the fuel ran out *)

Inductive panic : Type :=
| SliceBoundsOutOfRange
| IndexOutOfRange
| MakesliceLenOutOfRange
| GrowsliceLenOutOfRange.

Inductive outcome (A : Type) : Type :=
| Done (a : A)
| Panics (p : panic)
| OutOfFuel.

Arguments Done {A} a.
Arguments Panics {A} p.
Arguments OutOfFuel {A}.

Definition obind {A B : Type} (k : A -> outcome B) (m : outcome A) : outcome B :=
  match m with
  | Done a => k a
  | Panics p => Panics p
  | OutOfFuel => OutOfFuel
  end.

(** stdpp's monad notation: [x ← m; k] and ['(x, y) ← m; k]. *)
#[global] Instance outcome_bind : MBind outcome := @obind.
#[global] Instance outcome_ret : MRet outcome := @Done.

Definition is_panic {A : Type} (o : outcome A) : bool :=
  match o with Panics _ => true | _ => false end.

(** ** Package [io] of Go's standard library, as far as peekbuffer uses it *)

Module io.

(** Go's [error] values; [nil] is [None] of [option error]. *)
Inductive error : Type :=
| EOF
| ErrUnexpectedEOF
| ErrShortBuffer
| ErrOther (msg : string).

Definition error_eqb (a b : error) : bool :=
  match a, b with
  | EOF, EOF => true
  | ErrUnexpectedEOF, ErrUnexpectedEOF => true
  | ErrShortBuffer, ErrShortBuffer => true
  | ErrOther x, ErrOther y => String.eqb x y
  | _, _ => false
  end.

(** [err == e] on a possibly nil error. *)
Definition err_is (err : option error) (e : error) : bool :=
  match err with
  | Some e' => error_eqb e' e
  | None => false
  end.

Definition is_nil (err : option error) : bool :=
  match err with None => true | Some _ => false end.

(** [io.Reader]: [Read r k] is a call [r.Read(p)] with [len(p) = k]; it gives
    the bytes written to the front of [p] (their number is the [n] that Go
    returns), the error and the reader afterwards. [Read_len] is the
    interface's contract [0 <= n <= len(p)]. *)
Class Reader (R : Type) : Type := {
  Read : R -> nat -> list byte * option error * R;
  Read_len : forall r k, (length (Read r k).1.1 <= k)%nat
}.

Section ReadAtLeast.
Context {R : Type} `{Reader R}.

(** The loop [for n < min && err == nil { nn, err = r.Read(buf[n:]); n += nn }];
    [acc] is [buf[:n]]. *)
Fixpoint ReadAtLeast_loop (fuel : nat) (r : R) (lenbuf : nat) (min : Z)
    (acc : list byte) (err : option error)
    : option (list byte * option error * R) :=
  if (Z.of_nat (length acc) <? min) && is_nil err then
    match fuel with
    | O => None
    | S fuel' =>
        let '(d, e, r') := Read r (lenbuf - length acc)%nat in
        ReadAtLeast_loop fuel' r' lenbuf min (acc ++ d) e
    end
  else Some (acc, err, r).

(** [io.ReadAtLeast(r, buf, min)] with [len(buf) = lenbuf]; the result holds
    [buf[:n]]. [None]: the fuel ran out. *)
Definition ReadAtLeast (fuel : nat) (r : R) (lenbuf : nat) (min : Z)
    : option (list byte * option error * R) :=
  if Z.of_nat lenbuf <? min then Some ([], Some ErrShortBuffer, r)
  else
    match ReadAtLeast_loop fuel r lenbuf min [] None with
    | None => None
    | Some (acc, err, r') =>
        if min <=? Z.of_nat (length acc) then Some (acc, None, r')
        else if (0 <? Z.of_nat (length acc)) && err_is err EOF
             then Some (acc, Some ErrUnexpectedEOF, r')
             else Some (acc, err, r')
    end.

(** [io.ReadFull(r, buf)]. *)
Definition ReadFull (fuel : nat) (r : R) (lenbuf : nat)
    : option (list byte * option error * R) :=
  ReadAtLeast fuel r lenbuf (Z.of_nat lenbuf).
End ReadAtLeast.

End io.

(** ** The limit of the runtime on allocations *)

Module runtime.

(** [maxAlloc = (1 << heapAddrBits) - (1-_64bit)*1] of [runtime/malloc.go],
    with the 48 address bits of the 64-bit platforms: [makeslice] panics when
    the memory asked for is above it. *)
Definition maxAlloc : Z := 2 ^ 48.

End runtime.

(** ** Byte slices over a store of backing arrays *)

Record slice : Type := Slice {
  arr : nat;   (* index of the backing array in the store *)
  off : nat;   (* where the slice starts in it *)
  len : nat;
  cap : nat
}.

(** Backing arrays are never freed, so the store only grows at its end. *)
Abbreviation store := (list (list byte)).

(** The nil slice [[]byte(nil)]: no elements, no capacity. *)
Definition nil_slice : slice := Slice 0 0 0 0.

Definition backing (h : store) (s : slice) : list byte :=
  default [] (h !! arr s).

(** The elements [s[0], ..., s[len(s)-1]]. *)
Definition content (h : store) (s : slice) : list byte :=
  take (len s) (drop (off s) (backing h s)).

(** The array [a] with [d] written over [a[o .. o + len(d))]. *)
Definition splice (a : list byte) (o : nat) (d : list byte) : list byte :=
  take o a ++ d ++ drop (o + length d) a.

(** Writes [d] over [s[0 .. len(d))]. *)
Definition write (h : store) (s : slice) (d : list byte) : store :=
  <[arr s := splice (backing h s) (off s) d]> h.

(** [make([]byte, k)], kept in the store. *)
Definition make (h : store) (k : Z) : outcome (slice * store) :=
  if (k <? 0) || (runtime.maxAlloc <? k) then Panics MakesliceLenOutOfRange
  else
    let n := Z.to_nat k in
    Done (Slice (length h) 0 n n, h ++ [replicate n x00]).

(** [s[lo:]]. *)
Definition slice_from (s : slice) (lo : Z) : outcome slice :=
  if (lo <? 0) || (Z.of_nat (len s) <? lo) then Panics SliceBoundsOutOfRange
  else
    let n := Z.to_nat lo in
    Done (Slice (arr s) (off s + n) (len s - n) (cap s - n)).

(** [s[:hi]]; the bound is the capacity. *)
Definition slice_to (s : slice) (hi : Z) : outcome slice :=
  if (hi <? 0) || (Z.of_nat (cap s) <? hi) then Panics SliceBoundsOutOfRange
  else Done (Slice (arr s) (off s) (Z.to_nat hi) (cap s)).

(** [s[i]]. *)
Definition index (h : store) (s : slice) (i : Z) : outcome byte :=
  if (i <? 0) || (Z.of_nat (len s) <=? i) then Panics IndexOutOfRange
  else Done (nth (Z.to_nat i) (content h s) x00).

(** [s[i] = b]. *)
Definition set_index (h : store) (s : slice) (i : Z) (b : byte) : outcome store :=
  if (i <? 0) || (Z.of_nat (len s) <=? i) then Panics IndexOutOfRange
  else Done (write h (Slice (arr s) (off s + Z.to_nat i) 1 1) [b]).

(** [copy(dst, src)]: the bytes are read before any is written (memmove). *)
Definition copy (h : store) (dst src : slice) : nat * store :=
  let n := Nat.min (len dst) (len src) in
  (n, write h dst (take n (content h src))).

Section Append.
(** The capacity that [append] asks for when it has to reallocate is left to
    the runtime: from the old capacity and the length needed. It is never
    below the length needed. *)
Variable growcap : nat -> nat -> nat.

(** [append(s, d...)]. *)
Definition append (h : store) (s : slice) (d : list byte) : outcome (slice * store) :=
  let n := (len s + length d)%nat in
  if int.MaxInt <? Z.of_nat n then Panics GrowsliceLenOutOfRange
  else if (n <=? cap s)%nat then
    Done (Slice (arr s) (off s) n (cap s),
          write h (Slice (arr s) (off s + len s) (length d) (cap s - len s)) d)
  else
    let c := Nat.max n (growcap (cap s) n) in
    Done (Slice (length h) 0 n c,
          h ++ [content h s ++ d ++ replicate (c - n) x00]).
End Append.

(** ** Package [peekbuffer] *)

Module peekbuffer.

Definition FillPeekBufferSize : Z := 4096.

(** The struct [PeekBuffer]. Its two embedded interface fields ([io.Reader],
    [io.ByteReader]) stay nil and are shadowed by the methods below, so they
    carry no state. *)
Record PeekBuffer (R : Type) : Type := {
  reader : R;
  buffer : slice
}.

Arguments reader {R} _.
Arguments buffer {R} _.

Section Methods.
Context {R : Type} `{io.Reader R}.
Variable growcap : nat -> nat -> nat.

(** [NewPeekBuffer(reader)]: the buffer field is left at its zero value. *)
Definition NewPeekBuffer (r : R) : PeekBuffer R :=
  {| reader := r; buffer := nil_slice |}.

(** [func (this *PeekBuffer) Read(p []byte) (n int, err error)]. *)
Definition Read (this : PeekBuffer R) (p : slice) (h : store)
    : outcome (Z * option io.error * PeekBuffer R * store) :=
  if (0 <? len (buffer this))%nat then
    let '(n, h1) := copy h p (buffer this) in
    b ← slice_from (buffer this) (Z.of_nat n);
    Done (Z.of_nat n, None, {| reader := reader this; buffer := b |}, h1)
  else
    let '(d, err, r') := io.Read (reader this) (len p) in
    Done (Z.of_nat (length d), err,
          {| reader := r'; buffer := buffer this |}, write h p d).

(** [buf := make([]byte, size)] for a buffer that never leaves the method: its
    bytes are not kept in the store, only its length is. [makeslice] panics
    on a negative length and on one above [runtime.maxAlloc]. *)
Definition make_local (size : Z) : outcome nat :=
  if (size <? 0) || (runtime.maxAlloc <? size) then Panics MakesliceLenOutOfRange
  else Done (Z.to_nat size).

(** A pull through [io.ReadAtLeast] or [io.ReadFull]. *)
Definition pulled {A : Type} (o : option A) : outcome A :=
  match o with Some a => Done a | None => OutOfFuel end.

(** [func (this *PeekBuffer) ReadByte() (byte, error)]. *)
Definition ReadByte (fuel : nat) (this : PeekBuffer R) (h : store)
    : outcome (byte * option io.error * PeekBuffer R * store) :=
  if (0 <? len (buffer this))%nat then
    b ← index h (buffer this) 0;
    s ← slice_from (buffer this) 1;
    Done (b, None, {| reader := reader this; buffer := s |}, h)
  else
    lenbuf ← make_local FillPeekBufferSize;
    '(d, err, r') ← pulled (io.ReadAtLeast fuel (reader this) lenbuf 1);
    if 0 <? Z.of_nat (length d) then
      '(s, h1) ← append growcap h (buffer this) d;
      b ← index h1 s 0;
      s' ← slice_from s 1;
      Done (b, None, {| reader := r'; buffer := s' |}, h1)
    else
      Done (x00, err, {| reader := r'; buffer := buffer this |}, h).

(** [((need + FillPeekBufferSize - 1) / FillPeekBufferSize) * FillPeekBufferSize]. *)
Definition roundedNeed (need : Z) : Z :=
  int.mul
    (int.div (int.sub (int.add need FillPeekBufferSize) 1) FillPeekBufferSize)
    FillPeekBufferSize.

(** [err != nil && err != io.EOF && err != io.ErrUnexpectedEOF]. *)
Definition surfaced (err : option io.error) : bool :=
  negb (io.is_nil err) && negb (io.err_is err io.EOF)
  && negb (io.err_is err io.ErrUnexpectedEOF).

(** [func (this *PeekBuffer) Peek(size int) ([]byte, error)]. *)
Definition Peek (fuel : nat) (this : PeekBuffer R) (size : Z) (h : store)
    : outcome (slice * option io.error * PeekBuffer R * store) :=
  let need := int.sub size (Z.of_nat (len (buffer this))) in
  '(err, this1, h1) ←
    (if 0 <? need then
       lenbuf ← make_local (roundedNeed need);
       '(d, err, r') ← pulled (io.ReadFull fuel (reader this) lenbuf);
       if 0 <? Z.of_nat (length d) then
         '(b, h1) ← append growcap h (buffer this) d;
         Done (err, {| reader := r'; buffer := b |}, h1)
       else Done (err, {| reader := r'; buffer := buffer this |}, h)
     else Done (None, this, h));
  let have := Z.of_nat (len (buffer this1)) in
  let have := if size <? have then size else have in
  if surfaced err then
    v ← slice_to (buffer this1) have;
    Done (v, err, this1, h1)
  else
    v ← slice_to (buffer this1) have;
    Done (v, None, this1, h1).

(** [func (this *PeekBuffer) PeekByte(offset int) (byte, error)]. *)
Definition PeekByte (fuel : nat) (this : PeekBuffer R) (offset : Z) (h : store)
    : outcome (byte * option io.error * PeekBuffer R * store) :=
  '(peeked, err, this1, h1) ← Peek fuel this (int.add offset 1) h;
  if negb (io.is_nil err) then Done (x00, err, this1, h1)
  else if Z.of_nat (len peeked) <=? offset then
    Done (x00, Some io.EOF, this1, h1)
  else
    b ← index h1 peeked offset;
    Done (b, None, this1, h1).

End Methods.

End peekbuffer.

(** ** The earlier version of the package, [src/unnamed/part_000]

    Its [PeekBuffer], [NewPeekBuffer] and [Read] are those of [peekbuffer.go]
    (the struct lacks the embedded [io.ByteReader], which no method uses);
    its [Peek] pulls just the shortfall, and there is no [ReadByte] nor
    [PeekByte]. *)

Module part_000.

Section Methods.
Context {R : Type} `{io.Reader R}.
Variable growcap : nat -> nat -> nat.

(** [func (this *PeekBuffer) Peek(size int) ([]byte, error)]. *)
Definition Peek (fuel : nat) (this : peekbuffer.PeekBuffer R) (size : Z)
    (h : store)
    : outcome (slice * option io.error * peekbuffer.PeekBuffer R * store) :=
  let need := int.sub size (Z.of_nat (len (peekbuffer.buffer this))) in
  '(err, this1, h1) ←
    (if 0 <? need then
       lenbuf ← peekbuffer.make_local need;
       '(d, err, r') ←
         peekbuffer.pulled (io.ReadFull fuel (peekbuffer.reader this) lenbuf);
       if 0 <? Z.of_nat (length d) then
         '(b, h1) ← append growcap h (peekbuffer.buffer this) d;
         Done (err, {| peekbuffer.reader := r'; peekbuffer.buffer := b |}, h1)
       else
         Done (err, {| peekbuffer.reader := r';
                       peekbuffer.buffer := peekbuffer.buffer this |}, h)
     else Done (None, this, h));
  let have := Z.of_nat (len (peekbuffer.buffer this1)) in
  let have := if size <? have then size else have in
  if peekbuffer.surfaced err then
    v ← slice_to (peekbuffer.buffer this1) have;
    Done (v, err, this1, h1)
  else
    v ← slice_to (peekbuffer.buffer this1) have;
    Done (v, None, this1, h1).

End Methods.

End part_000.

(** ** The readers of the test file *)

(** [bytes.Reader] of Go's standard library, the source of every test but one:
    the bytes [s] and the reading index [i]. *)
Module bytes.

Record Reader : Type := {
  s : list byte;
  i : nat
}.

Definition NewReader (b : list byte) : Reader := {| s := b; i := 0 |}.

(** [func (r *Reader) Read(b []byte) (n int, err error)]. *)
Definition Read (r : Reader) (k : nat) : list byte * option io.error * Reader :=
  if (length (s r) <=? i r)%nat then ([], Some io.EOF, r)
  else
    let d := take k (drop (i r) (s r)) in
    (d, None, {| s := s r; i := i r + length d |}).

Lemma Read_len (r : Reader) (k : nat) : (length (Read r k).1.1 <= k)%nat.
Proof.
  unfold Read. destruct (length (s r) <=? i r)%nat; simpl; [lia|].
  rewrite length_take. lia.
Qed.

#[global] Instance Reader_io : io.Reader Reader :=
  {| io.Read := Read; io.Read_len := Read_len |}.

(** What is left to read. *)
Definition rest (r : Reader) : list byte := drop (i r) (s r).

End bytes.

(** [ErrorReader] of [peekbuffer_test.go]: every [Read] returns [0, e.err]. *)
Record ErrorReader : Type := { err : option io.error }.

Definition ErrorReader_Read (e : ErrorReader) (k : nat)
    : list byte * option io.error * ErrorReader :=
  ([], err e, e).

Lemma ErrorReader_Read_len (e : ErrorReader) (k : nat) :
  (length (ErrorReader_Read e k).1.1 <= k)%nat.
Proof. simpl. lia. Qed.

#[global] Instance ErrorReader_io : io.Reader ErrorReader :=
  {| io.Read := ErrorReader_Read; io.Read_len := ErrorReader_Read_len |}.

(** The bytes of a string literal. *)
Definition bytes_of (str : string) : list byte := list_byte_of_string str.

(** Go's own growth of a reallocated slice is not part of the language; the
    examples run with the least capacity that fits. *)
Definition exact_fit (oldcap needed : nat) : nat := needed.

(** ** Sequences of calls *)

(** A call of one of the four methods; a [Read] comes with the caller's
    buffer. *)
Inductive call : Type :=
| CallRead (p : slice)
| CallReadByte
| CallPeek (size : Z)
| CallPeekByte (offset : Z).

(** The sizes and offsets for which [Peek] asks [make] for no more than the
    runtime allocates. *)
Definition call_in_range (c : call) : Prop :=
  match c with
  | CallPeek size => 0 <= size <= runtime.maxAlloc
  | CallPeekByte offset => 0 <= offset < runtime.maxAlloc
  | CallRead _ | CallReadByte => True
  end.

Section Run.
Context {R : Type} `{io.Reader R}.
Variable growcap : nat -> nat -> nat.

(** Runs the calls one after the other and collects in [out] the bytes that
    the consuming calls return: [p[:n]] of a [Read], the byte of a [ReadByte]
    that returns no error. *)
Fixpoint run (fuel : nat) (calls : list call) (this : peekbuffer.PeekBuffer R)
    (h : store) (out : list byte)
    : outcome (list byte * peekbuffer.PeekBuffer R * store) :=
  match calls with
  | [] => Done (out, this, h)
  | CallRead p :: calls' =>
      '(n, _, this', h') ← peekbuffer.Read this p h;
      run fuel calls' this' h' (out ++ take (Z.to_nat n) (content h' p))
  | CallReadByte :: calls' =>
      '(b, e, this', h') ← peekbuffer.ReadByte growcap fuel this h;
      run fuel calls' this' h' (if io.is_nil e then out ++ [b] else out)
  | CallPeek size :: calls' =>
      '(_, _, this', h') ← peekbuffer.Peek growcap fuel this size h;
      run fuel calls' this' h' out
  | CallPeekByte offset :: calls' =>
      '(_, _, this', h') ← peekbuffer.PeekByte growcap fuel this offset h;
      run fuel calls' this' h' out
  end.

(** The buffers that the caller passes to [Read]. *)
Fixpoint read_buffers (calls : list call) : list slice :=
  match calls with
  | [] => []
  | CallRead p :: calls' => p :: read_buffers calls'
  | _ :: calls' => read_buffers calls'
  end.

End Run.

Section Peeks.
Context {R : Type} `{io.Reader R}.
Variable growcap : nat -> nat -> nat.

(** [Peek] after [Peek] with nothing consumed in between, as the tests do it:
    each view is read out as soon as it is returned. *)
Fixpoint peeks (fuel : nat) (sizes : list Z) (this : peekbuffer.PeekBuffer R)
    (h : store)
    : outcome (list (list byte) * peekbuffer.PeekBuffer R * store) :=
  match sizes with
  | [] => Done ([], this, h)
  | size :: sizes' =>
      '(v, _, this1, h1) ← peekbuffer.Peek growcap fuel this size h;
      '(views, this', h') ← peeks fuel sizes' this1 h1;
      Done (content h1 v :: views, this', h')
  end.

End Peeks.

(** ** [io.ReadFull] on a PeekBuffer

    The tests read with [io.ReadFull(pb, buf)]: [io.ReadAtLeast] with the
    PeekBuffer for its reader, whose [Read] writes to [buf[n:]] in the
    store. *)

Section ReadFullOnPeekBuffer.
Context {R : Type} `{io.Reader R}.

(** The loop [for n < min && err == nil { nn, err = r.Read(buf[n:]); n += nn }]. *)
Fixpoint ReadAtLeast_pb_loop (fuel : nat) (this : peekbuffer.PeekBuffer R)
    (buf : slice) (min n : Z) (err : option io.error) (h : store)
    : outcome (Z * option io.error * peekbuffer.PeekBuffer R * store) :=
  if (n <? min) && io.is_nil err then
    match fuel with
    | O => OutOfFuel
    | S fuel' =>
        p ← slice_from buf n;
        '(nn, err', this', h') ← peekbuffer.Read this p h;
        ReadAtLeast_pb_loop fuel' this' buf min (int.add n nn) err' h'
    end
  else Done (n, err, this, h).

(** [io.ReadAtLeast(pb, buf, min)]. *)
Definition ReadAtLeast_pb (fuel : nat) (this : peekbuffer.PeekBuffer R)
    (buf : slice) (min : Z) (h : store)
    : outcome (Z * option io.error * peekbuffer.PeekBuffer R * store) :=
  if Z.of_nat (len buf) <? min then Done (0, Some io.ErrShortBuffer, this, h)
  else
    '(n, err, this', h') ← ReadAtLeast_pb_loop fuel this buf min 0 None h;
    if min <=? n then Done (n, None, this', h')
    else if (0 <? n) && io.err_is err io.EOF
         then Done (n, Some io.ErrUnexpectedEOF, this', h')
         else Done (n, err, this', h').

(** [io.ReadFull(pb, buf)]. *)
Definition ReadFull_pb (fuel : nat) (this : peekbuffer.PeekBuffer R)
    (buf : slice) (h : store)
    : outcome (Z * option io.error * peekbuffer.PeekBuffer R * store) :=
  ReadAtLeast_pb fuel this buf (Z.of_nat (len buf)) h.

End ReadFullOnPeekBuffer.


(** * Invariants and vocabulary of the statements *)

(** A slice lies within its backing array. *)
Definition wf (h : store) (s : slice) : Prop :=
  (len s <= cap s /\ off s + cap s <= length (backing h s))%nat.

(** The store only grows and array lengths never shrink: slices that were
    within bounds stay so. *)
Definition shape (h h' : store) : Prop :=
  (length h <= length h')%nat /\
  forall j : nat, (length (default [] (h !! j)) <= length (default [] (h' !! j)))%nat.

(** The fill unit as a buffer length. *)
Definition fill : nat := Z.to_nat peekbuffer.FillPeekBufferSize.

(** The error of a pull of at least [min] bytes from a source that has [n]
    bytes left and delivers [k] of them. *)
Definition pull_error (min : Z) (n k : nat) : option io.error :=
  if min <=? Z.of_nat k then None
  else if (n =? 0)%nat then Some io.EOF else Some io.ErrUnexpectedEOF.

Section Vocabulary.
Context {R : Type} `{io.Reader R}.

(** [reads r d r']: some calls of [Read] take the reader from [r] to [r'] and
    deliver, one after the other, the bytes [d]. *)
Inductive reads : R -> list byte -> R -> Prop :=
| reads_none r : reads r [] r
| reads_more r k d1 e r1 d2 r2 :
    io.Read r k = (d1, e, r1) -> reads r1 d2 r2 -> reads r (d1 ++ d2) r2.

(** The state of a PeekBuffer is sound when its buffer lies within its backing
    array and its length is an [int]. *)
Definition sound (h : store) (this : peekbuffer.PeekBuffer R) : Prop :=
  wf h (peekbuffer.buffer this) /\
  Z.of_nat (len (peekbuffer.buffer this)) <= int.MaxInt.

(** The pull that [Peek(size)] makes: nothing when the buffer holds enough,
    else a full pull of the rounded shortfall. *)
Definition Peek_pull (fuel : nat) (this : peekbuffer.PeekBuffer R) (size : Z)
    : option (list byte * option io.error * R) :=
  let need := int.sub size (Z.of_nat (len (peekbuffer.buffer this))) in
  if 0 <? need
  then io.ReadFull fuel (peekbuffer.reader this)
         (Z.to_nat (peekbuffer.roundedNeed need))
  else Some ([], None, peekbuffer.reader this).

(** The pull of the earlier [Peek] ([part_000]): the shortfall as it is. *)
Definition Peek_pull_exact (fuel : nat) (this : peekbuffer.PeekBuffer R) (size : Z)
    : option (list byte * option io.error * R) :=
  let need := int.sub size (Z.of_nat (len (peekbuffer.buffer this))) in
  if 0 <? need
  then io.ReadFull fuel (peekbuffer.reader this) (Z.to_nat need)
  else Some ([], None, peekbuffer.reader this).

End Vocabulary.

(** A source of fixed content: [remaining r] is what the reader has yet to
    deliver, and every [Read] takes its bytes from the front of it. *)
Class Source (R : Type) `{io.Reader R} : Type := {
  remaining : R -> list byte;
  Read_remaining : forall r k,
    remaining r = (io.Read r k).1.1 ++ remaining (io.Read r k).2
}.

Section StreamVocabulary.
Context {R : Type} `{Source R}.

(** The stream that the consumer has yet to see: the pending bytes, then
    what the source has left. *)
Definition stream (h : store) (this : peekbuffer.PeekBuffer R) : list byte :=
  content h (peekbuffer.buffer this) ++ remaining (peekbuffer.reader this).

(** The invariant of a run that started in the store [h0] on a source of
    content [S]: the state is sound, the caller's buffers are still within
    bounds, the buffer's storage is none of the caller's, and the bytes
    returned so far followed by the stream are [S]. *)
Definition consistent (h0 : store) (S : list byte) (h : store)
    (this : peekbuffer.PeekBuffer R) (out : list byte) : Prop :=
  sound h this /\ shape h0 h /\
  (cap (peekbuffer.buffer this) = 0%nat \/
   (length h0 <= arr (peekbuffer.buffer this))%nat) /\
  out ++ stream h this = S.

End StreamVocabulary.

(** * Facts about slices and the store *)

Section StoreFacts.
Local Open Scope nat_scope.
Implicit Types (h : store) (s p : slice) (d a : list byte).

Lemma length_splice a o d :
  o + length d <= length a -> length (splice a o d) = length a.
Proof.
  intros Hle. unfold splice.
  rewrite !length_app, length_take, length_drop. lia.
Qed.

Lemma lookup_splice a o d j :
  o + length d <= length a ->
  splice a o d !! j =
    if decide (j < o) then a !! j
    else if decide (j < o + length d) then d !! (j - o) else a !! j.
Proof.
  intros Hle. unfold splice.
  assert (Ht : length (take o a) = o) by (rewrite length_take; lia).
  destruct (decide (j < o)) as [Hj|Hj].
  - rewrite lookup_app_l by lia. apply lookup_take_lt; lia.
  - rewrite lookup_app_r by lia. rewrite Ht.
    destruct (decide (j < o + length d)) as [Hd|Hd].
    + rewrite lookup_app_l by lia. done.
    + rewrite lookup_app_r by lia. rewrite lookup_drop. f_equal. lia.
Qed.

Lemma wf_nil h : wf h nil_slice.
Proof. unfold wf; simpl. lia. Qed.

Lemma length_content h s : wf h s -> length (content h s) = len s.
Proof.
  intros [Hl Hc]. unfold content. rewrite length_take, length_drop. lia.
Qed.

Lemma lookup_content h s j :
  j < len s -> content h s !! j = backing h s !! (off s + j).
Proof.
  intros Hj. unfold content. rewrite lookup_take_lt by done. apply lookup_drop.
Qed.

Lemma backing_write h s d s' :
  backing (write h s d) s' =
    if decide (arr s' = arr s /\ arr s < length h)
    then splice (backing h s) (off s) d else backing h s'.
Proof.
  unfold backing, write.
  destruct (decide (arr s' = arr s /\ arr s < length h)) as [[-> Hlt]|Hn].
  - rewrite list_lookup_insert_eq by done. done.
  - destruct (decide (arr s = arr s')) as [He|He].
    + rewrite list_insert_ge by lia. done.
    + rewrite list_lookup_insert_ne by done. done.
Qed.

Lemma backing_out h s : length h <= arr s -> backing h s = [].
Proof. intros Hge. unfold backing. rewrite lookup_ge_None_2 by done. done. Qed.

Lemma length_backing_write h s d s' :
  off s + length d <= length (backing h s) ->
  length (backing (write h s d) s') = length (backing h s').
Proof.
  intros Hle. rewrite backing_write. case_decide as Hc; [|done].
  destruct Hc as [He _]. rewrite length_splice by done.
  unfold backing. by rewrite He.
Qed.

Lemma wf_write h s d s' :
  off s + length d <= length (backing h s) -> wf h s' -> wf (write h s d) s'.
Proof. intros Hle [? ?]. split; [done|]. by rewrite length_backing_write. Qed.

(** What a slice over the written array shows afterwards. *)
Lemma lookup_content_write h s d s' j :
  off s + length d <= length (backing h s) ->
  arr s' = arr s -> j < len s' ->
  content (write h s d) s' !! j =
    if decide (off s <= off s' + j < off s + length d)
    then d !! (off s' + j - off s) else content h s' !! j.
Proof.
  intros Hle He Hj. rewrite !lookup_content by done.
  rewrite backing_write.
  destruct (decide (arr s' = arr s /\ arr s < length h)) as [[_ Hlt]|Hn].
  - rewrite lookup_splice by done.
    assert (backing h s' = backing h s) as -> by (unfold backing; by rewrite He).
    repeat case_decide; try lia; done.
  - assert (length h <= arr s) by lia.
    rewrite backing_out in Hle by done. simpl in Hle.
    assert (d = []) as -> by (destruct d; simpl in *; [done|lia]).
    simpl. case_decide; [lia|done].
Qed.

Lemma content_write_other h s d s' :
  arr s' <> arr s -> content (write h s d) s' = content h s'.
Proof.
  intros Hne. unfold content. rewrite backing_write.
  case_decide as Hc; [|done]. by destruct Hc.
Qed.

(** Allocation at the end of the store leaves every slice as it was. *)
Lemma backing_extend h a s :
  arr s < length h -> backing (h ++ [a]) s = backing h s.
Proof. intros Hlt. unfold backing. by rewrite lookup_app_l. Qed.

Lemma wf_extend h a s : wf h s -> wf (h ++ [a]) s.
Proof.
  intros [Hl Hc]. split; [done|].
  destruct (decide (arr s < length h)) as [Hlt|Hge].
  - by rewrite backing_extend.
  - rewrite backing_out in Hc by lia. simpl in Hc. lia.
Qed.

Lemma content_extend h a s : wf h s -> content (h ++ [a]) s = content h s.
Proof.
  intros [Hl Hc]. unfold content.
  destruct (decide (arr s < length h)) as [Hlt|Hge].
  - by rewrite backing_extend.
  - rewrite (backing_out h) in * by lia. simpl in Hc.
    assert (len s = 0) as -> by lia. by rewrite !take_0.
Qed.

Lemma backing_fresh h a s : arr s = length h -> backing (h ++ [a]) s = a.
Proof.
  intros He. unfold backing. rewrite lookup_app_r by lia.
  rewrite He, Nat.sub_diag. done.
Qed.

(** A write into storage allocated after [s] was made does not show in [s]. *)
Lemma content_write_fresh h s p d :
  wf h s -> length h <= arr p -> content (write h p d) s = content h s.
Proof.
  intros [Hl Hc] Hp.
  destruct (decide (arr s = arr p)) as [He|Hne].
  - rewrite (backing_out h s) in Hc by lia. simpl in Hc.
    unfold content. assert (len s = 0) as -> by lia. by rewrite !take_0.
  - by apply content_write_other.
Qed.

Section AppendFacts.
Variable growcap : nat -> nat -> nat.

Lemma append_done h s d :
  (Z.of_nat (len s + length d) <= int.MaxInt)%Z ->
  exists s' h', append growcap h s d = Done (s', h').
Proof.
  intros Hle. unfold append.
  destruct (int.MaxInt <? _)%Z eqn:Hm; [apply Z.ltb_lt in Hm; lia|].
  destruct (_ <=? cap s); eauto.
Qed.

Lemma append_spec h s d s' h' :
  wf h s -> append growcap h s d = Done (s', h') ->
  wf h' s' /\ content h' s' = content h s ++ d /\
  len s' = len s + length d /\ (Z.of_nat (len s') <= int.MaxInt)%Z /\
  length h <= length h'.
Proof.
  intros [Hl Hc] Ha. unfold append in Ha.
  destruct (int.MaxInt <? _)%Z eqn:Hm; [done|]. apply Z.ltb_ge in Hm.
  destruct (_ <=? cap s) eqn:Hfit.
  - apply Nat.leb_le in Hfit. injection Ha as <- <-.
    set (w := Slice (arr s) (off s + len s) (length d) (cap s - len s)).
    set (s' := Slice (arr s) (off s) (len s + length d) (cap s)).
    assert (Hw : off w + length d <= length (backing h w)).
    { unfold w, backing in *; simpl in *. lia. }
    assert (Hwf : wf (write h w d) s').
    { apply wf_write; [done|]. split; simpl; [lia|done]. }
    split; [done|]. split; [|split; [done|split; [done|]]].
    + apply (list_eq_same_length _ _ (len s + length d)).
      * rewrite length_app, length_content by (split; done). done.
      * by rewrite length_content.
      * intros j x y Hj Hx Hy.
        rewrite lookup_content_write in Hx by done. simpl in Hx.
        destruct (decide (j < len s)) as [Hjl|Hjl].
        -- rewrite lookup_app_l in Hy by (rewrite length_content by (split; done); done).
           case_decide; [lia|].
           rewrite lookup_content in Hx, Hy by (simpl; lia). simpl in Hx.
           assert (backing h s' = backing h s) as Hb by done.
           rewrite Hb in Hx. congruence.
        -- rewrite lookup_app_r in Hy by (rewrite length_content by (split; done); lia).
           rewrite length_content in Hy by (split; done).
           case_decide; [|lia].
           replace (off s + j - (off s + len s)) with (j - len s) in Hx by lia.
           congruence.
    + unfold write. by rewrite length_insert.
  - apply Nat.leb_gt in Hfit. injection Ha as <- <-.
    assert (Hlen : length (content h s) = len s) by (apply length_content; split; done).
    split; [|split; [|split; [done|split; [done|]]]].
    + split; simpl; [lia|]. rewrite backing_fresh by done.
      rewrite !length_app, length_replicate, Hlen. lia.
    + unfold content at 1. rewrite backing_fresh by done. simpl.
      rewrite drop_0, app_assoc. apply take_app_length'.
      rewrite length_app, Hlen. done.
    + rewrite length_app. lia.
Qed.

End AppendFacts.

End StoreFacts.

(** * Facts about [int] arithmetic *)

Lemma wrap_id (z : Z) : int.in_range z -> int.wrap z = z.
Proof.
  unfold int.in_range, int.wrap, int.MinInt, int.MaxInt. intros Hz.
  rewrite Z.mod_small by lia. lia.
Qed.

Lemma wrap_in_range (z : Z) : int.in_range (int.wrap z).
Proof.
  unfold int.in_range, int.wrap, int.MinInt, int.MaxInt.
  pose proof (Z.mod_pos_bound (z + 2 ^ 63) (2 ^ 64)). lia.
Qed.

Lemma wrap_sub_l (a b : Z) : int.wrap (int.wrap a - b) = int.wrap (a - b).
Proof.
  unfold int.wrap. f_equal.
  replace ((a + 2 ^ 63) mod 2 ^ 64 - 2 ^ 63 - b + 2 ^ 63)
    with ((a + 2 ^ 63) mod 2 ^ 64 - b) by lia.
  rewrite Zminus_mod_idemp_l. f_equal. lia.
Qed.

(** Without overflow the shortfall is rounded up to the next multiple of the
    fill unit. *)
Lemma roundedNeed_fits (need : Z) :
  0 < need -> need + 4095 <= int.MaxInt ->
  peekbuffer.roundedNeed need = 4096 * ((need + 4095) / 4096) /\
  need <= peekbuffer.roundedNeed need <= need + 4095.
Proof.
  intros Hpos Hfit. unfold peekbuffer.roundedNeed, peekbuffer.FillPeekBufferSize.
  unfold int.mul, int.div, int.sub, int.add.
  unfold int.MaxInt in Hfit.
  assert (Hq : 0 <= (need + 4095) / 4096 /\ 4096 * ((need + 4095) / 4096) <= need + 4095
               /\ need + 4095 < 4096 * ((need + 4095) / 4096) + 4096).
  { pose proof (Z.div_mod (need + 4095) 4096 ltac:(lia)).
    pose proof (Z.mod_pos_bound (need + 4095) 4096 ltac:(lia)).
    split; [apply Z.div_pos; lia|lia]. }
  assert (Hr : forall z, 0 <= z <= need + 4095 -> int.wrap z = z).
  { intros z Hz. apply wrap_id. unfold int.in_range, int.MinInt, int.MaxInt. lia. }
  rewrite wrap_sub_l.
  replace (need + 4096 - 1) with (need + 4095) by lia.
  rewrite (Hr (need + 4095)) by lia.
  rewrite Z.quot_div_nonneg by lia.
  rewrite (Hr ((need + 4095) / 4096)) by lia.
  rewrite Hr by lia. lia.
Qed.

(** With overflow the rounded shortfall is negative. *)
Lemma roundedNeed_overflow (need : Z) :
  need <= int.MaxInt -> int.MaxInt < need + 4095 ->
  peekbuffer.roundedNeed need < 0.
Proof.
  unfold int.MaxInt. intros Hle Hov.
  unfold peekbuffer.roundedNeed, peekbuffer.FillPeekBufferSize.
  unfold int.mul, int.div, int.sub, int.add.
  rewrite wrap_sub_l.
  replace (need + 4096 - 1) with (need + 4095) by lia.
  assert (Hw : int.wrap (need + 4095) = need + 4095 - 2 ^ 64).
  { unfold int.wrap.
    replace (need + 4095 + 2 ^ 63) with (need + 4095 - 2 ^ 63 + 1 * 2 ^ 64) by lia.
    rewrite Z_mod_plus_full, Z.mod_small by lia. lia. }
  rewrite Hw.
  set (m := 2 ^ 64 - (need + 4095)).
  assert (Hm : 2 ^ 63 - 4094 <= m <= 2 ^ 63) by (unfold m; lia).
  replace (need + 4095 - 2 ^ 64) with (- m) by (unfold m; lia).
  rewrite Z.quot_opp_l by lia.
  rewrite Z.quot_div_nonneg by lia.
  assert (Hq : 2 ^ 51 - 1 <= m / 4096 <= 2 ^ 51).
  { split.
    - apply Z.div_le_lower_bound; lia.
    - apply Z.div_le_upper_bound; lia. }
  rewrite (wrap_id (- (m / 4096))) by (unfold int.in_range, int.MinInt, int.MaxInt; lia).
  rewrite wrap_id by (unfold int.in_range, int.MinInt, int.MaxInt; lia).
  lia.
Qed.

(** The limit is a multiple of the fill unit: a shortfall within it is
    rounded to a length within it. *)
Lemma roundedNeed_alloc (need : Z) :
  0 < need <= runtime.maxAlloc ->
  need <= peekbuffer.roundedNeed need <= runtime.maxAlloc /\
  peekbuffer.roundedNeed need <= need + 4095.
Proof.
  unfold runtime.maxAlloc. intros [Hpos Hfit].
  destruct (roundedNeed_fits need Hpos ltac:(unfold int.MaxInt; lia)) as [Heq Hle].
  split_and!; [lia| |lia]. rewrite Heq.
  assert ((need + 4095) / 4096 < 2 ^ 36 + 1); [|lia].
  apply Z.div_lt_upper_bound; lia.
Qed.

(** A length within the limit is far from the top of [int]. *)
Lemma alloc_fits (k : Z) :
  k <= runtime.maxAlloc -> k + 4095 <= int.MaxInt /\ k <= int.MaxInt.
Proof. unfold runtime.maxAlloc, int.MaxInt. lia. Qed.

(** Above the limit it stays above, or wraps below zero. *)
Lemma roundedNeed_beyond (need : Z) :
  runtime.maxAlloc < need <= int.MaxInt ->
  peekbuffer.roundedNeed need < 0 \/ runtime.maxAlloc < peekbuffer.roundedNeed need.
Proof.
  unfold runtime.maxAlloc. intros [Hbig Hmax].
  destruct (Z.le_gt_cases (need + 4095) int.MaxInt) as [Hfit|Hov].
  - right. destruct (roundedNeed_fits need ltac:(lia) Hfit) as [_ Hle]. lia.
  - left. by apply roundedNeed_overflow.
Qed.

(** * Facts about [io.ReadAtLeast] *)

Section PullFacts.
Context {R : Type} `{io.Reader R}.

Lemma reads_one r k d e r' : io.Read r k = (d, e, r') -> reads r d r'.
Proof.
  intros Hr. rewrite <- (app_nil_r d). eapply reads_more; [done|constructor].
Qed.

Lemma reads_trans r1 d1 r2 d2 r3 :
  reads r1 d1 r2 -> reads r2 d2 r3 -> reads r1 (d1 ++ d2) r3.
Proof.
  induction 1 as [|r k da e ra db rb Hr _ IH]; intros H2; [done|].
  rewrite <- app_assoc. eapply reads_more; [done|]. by apply IH.
Qed.

Lemma ReadAtLeast_loop_spec fuel : forall r lenbuf min acc err acc' err' r',
  io.ReadAtLeast_loop fuel r lenbuf min acc err = Some (acc', err', r') ->
  (length acc <= lenbuf)%nat ->
  (exists d, acc' = acc ++ d /\ reads r d r') /\
  (length acc' <= lenbuf)%nat /\
  (min <= Z.of_nat (length acc') \/ err' <> None).
Proof.
  induction fuel as [|fuel IH]; intros r lenbuf min acc err acc' err' r' Hl Hacc;
    simpl in Hl.
  - destruct ((Z.of_nat (length acc) <? min) && io.is_nil err) eqn:Hc; [done|].
    injection Hl as <- <- <-.
    split; [exists []; rewrite app_nil_r; split; [done|constructor]|].
    split; [done|].
    apply andb_false_iff in Hc as [Hc|Hc].
    + left. apply Z.ltb_ge in Hc. done.
    + right. by destruct err.
  - destruct ((Z.of_nat (length acc) <? min) && io.is_nil err) eqn:Hc.
    + destruct (io.Read r (lenbuf - length acc)) as [[d e] r1] eqn:Hr.
      pose proof (io.Read_len r (lenbuf - length acc)%nat) as Hd.
      rewrite Hr in Hd. simpl in Hd.
      apply IH in Hl as ([d' [-> Hrs]] & Hlen & Hex);
        [|rewrite length_app; lia].
      split; [|done].
      exists (d ++ d'). rewrite app_assoc. split; [done|].
      eapply reads_more; done.
    + injection Hl as <- <- <-.
      split; [exists []; rewrite app_nil_r; split; [done|constructor]|].
      split; [done|].
      apply andb_false_iff in Hc as [Hc|Hc].
      * left. apply Z.ltb_ge in Hc. done.
      * right. by destruct err.
Qed.

(** What a pull gives: bytes read in order from the reader, no more than the
    buffer holds, and no error exactly when [min] bytes came. *)
Lemma ReadAtLeast_spec fuel r lenbuf min d e r' :
  io.ReadAtLeast fuel r lenbuf min = Some (d, e, r') ->
  reads r d r' /\ (length d <= lenbuf)%nat /\
  (e = None <-> min <= Z.of_nat (length d)).
Proof.
  unfold io.ReadAtLeast. intros Hp.
  destruct (Z.of_nat lenbuf <? min) eqn:Hs.
  - injection Hp as <- <- <-. apply Z.ltb_lt in Hs.
    split; [constructor|]. split; [simpl; lia|]. simpl. split; [done|lia].
  - destruct (io.ReadAtLeast_loop fuel r lenbuf min [] None)
      as [[[acc err] r1]|] eqn:Hl; [|done].
    apply ReadAtLeast_loop_spec in Hl as ([d' [-> Hrs]] & Hlen & Hex);
      [|simpl; lia].
    simpl in *.
    destruct (min <=? Z.of_nat (length d')) eqn:Hm.
    + injection Hp as <- <- <-. apply Z.leb_le in Hm. done.
    + apply Z.leb_gt in Hm.
      destruct ((0 <? Z.of_nat (length d')) && io.err_is err io.EOF);
        injection Hp as <- <- <-; (split; [done|]; split; [done|]).
      * split; [done|lia].
      * destruct Hex as [?|?]; [lia|]. split; [done|lia].
Qed.

Lemma ReadFull_spec fuel r lenbuf d e r' :
  io.ReadFull fuel r lenbuf = Some (d, e, r') ->
  reads r d r' /\ (length d <= lenbuf)%nat /\
  (e = None <-> length d = lenbuf).
Proof.
  intros Hp. apply ReadAtLeast_spec in Hp as (Hr & Hl & He).
  split; [done|]. split; [done|]. rewrite He. lia.
Qed.

End PullFacts.

Lemma reads_remaining {R : Type} `{Source R} (r : R) (d : list byte) (r' : R) :
  reads r d r' -> remaining r = d ++ remaining r'.
Proof.
  induction 1 as [|r k d1 e r1 d2 r2 Hr _ IH]; [done|].
  pose proof (Read_remaining r k) as Hk. rewrite Hr in Hk. simpl in Hk.
  rewrite Hk, IH, app_assoc. done.
Qed.

Lemma take_drop_length (k : nat) (l : list byte) :
  take k l ++ drop (length (take k l)) l = l.
Proof.
  rewrite length_take.
  destruct (decide (k <= length l)%nat) as [Hk|Hk].
  - rewrite Nat.min_l by done. apply take_drop.
  - rewrite Nat.min_r by lia. rewrite take_ge, drop_ge by lia. apply app_nil_r.
Qed.

Lemma bytes_Read_rest (r : bytes.Reader) (k : nat) :
  bytes.rest r = (bytes.Read r k).1.1 ++ bytes.rest (bytes.Read r k).2.
Proof.
  unfold bytes.Read, bytes.rest.
  destruct (length (bytes.s r) <=? bytes.i r)%nat eqn:Hc; simpl; [done|].
  rewrite <- drop_drop. by rewrite take_drop_length.
Qed.

#[global] Instance bytes_Source : Source bytes.Reader :=
  {| remaining := bytes.rest; Read_remaining := bytes_Read_rest |}.

(** * Facts about reslicing and copying *)

Section ResliceFacts.
Local Open Scope nat_scope.
Implicit Types (h : store) (s p : slice) (d : list byte).

Lemma content_prefix h s k :
  k <= len s -> content h (Slice (arr s) (off s) k (cap s)) = take k (content h s).
Proof.
  intros Hk. unfold content, backing; simpl.
  rewrite take_take. by rewrite Nat.min_l.
Qed.

Lemma content_suffix h s n :
  n <= len s ->
  content h (Slice (arr s) (off s + n) (len s - n) (cap s - n)) = drop n (content h s).
Proof.
  intros Hn. unfold content, backing; simpl.
  rewrite <- drop_drop. rewrite take_drop_commute.
  by replace (n + (len s - n)) with (len s) by lia.
Qed.

Lemma wf_prefix h s k :
  wf h s -> k <= cap s -> wf h (Slice (arr s) (off s) k (cap s)).
Proof. intros [? ?] ?. split; simpl; done. Qed.

Lemma wf_suffix h s n :
  wf h s -> n <= len s -> wf h (Slice (arr s) (off s + n) (len s - n) (cap s - n)).
Proof.
  intros [Hl Hc] Hn.
  split; simpl; [lia|].
  assert (backing h (Slice (arr s) (off s + n) (len s - n) (cap s - n)) = backing h s) as -> by done.
  lia.
Qed.

(** After a write at the front of [s], the slice shows the bytes written, then
    what it held before. *)
Lemma content_write_self h s d :
  wf h s -> length d <= len s ->
  content (write h s d) s = d ++ drop (length d) (content h s).
Proof.
  intros Hwf Hd. pose proof Hwf as [Hl Hc].
  assert (Hin : off s + length d <= length (backing h s)) by lia.
  apply (list_eq_same_length _ _ (len s)).
  - rewrite length_app, length_drop, length_content by done. lia.
  - apply length_content. by apply wf_write.
  - intros j x y Hj Hx Hy.
    rewrite lookup_content_write in Hx by done.
    destruct (decide (j < length d)) as [Hjd|Hjd].
    + rewrite lookup_app_l in Hy by done. case_decide; [|lia].
      replace (off s + j - off s) with j in Hx by lia. congruence.
    + rewrite lookup_app_r in Hy by lia. rewrite lookup_drop in Hy.
      case_decide; [lia|].
      replace (length d + (j - length d)) with j in Hy by lia. congruence.
Qed.

Lemma write_nil h s : write h s [] = h.
Proof.
  unfold write, splice; simpl. rewrite Nat.add_0_r, take_drop.
  unfold backing. destruct (h !! arr s) as [a|] eqn:Ha; simpl.
  - by apply list_insert_id.
  - apply list_insert_ge. by apply lookup_ge_None_1.
Qed.

Lemma slice_from_done s n :
  n <= len s ->
  slice_from s (Z.of_nat n) = Done (Slice (arr s) (off s + n) (len s - n) (cap s - n)).
Proof.
  intros Hn. unfold slice_from.
  destruct (Z.of_nat n <? 0)%Z eqn:H1; [apply Z.ltb_lt in H1; lia|].
  destruct (Z.of_nat (len s) <? Z.of_nat n)%Z eqn:H2; [apply Z.ltb_lt in H2; lia|].
  simpl. by rewrite Nat2Z.id.
Qed.

Lemma slice_to_done s (k : Z) :
  (0 <= k <= Z.of_nat (cap s))%Z ->
  slice_to s k = Done (Slice (arr s) (off s) (Z.to_nat k) (cap s)).
Proof.
  intros Hk. unfold slice_to.
  destruct (k <? 0)%Z eqn:H1; [apply Z.ltb_lt in H1; lia|].
  destruct (Z.of_nat (cap s) <? k)%Z eqn:H2; [apply Z.ltb_lt in H2; lia|].
  done.
Qed.

Lemma slice_to_negative s (k : Z) :
  (k < 0)%Z -> slice_to s k = Panics SliceBoundsOutOfRange.
Proof. intros Hk. unfold slice_to. apply Z.ltb_lt in Hk. by rewrite Hk. Qed.

Lemma index_done h s (j : Z) :
  (0 <= j < Z.of_nat (len s))%Z ->
  index h s j = Done (nth (Z.to_nat j) (content h s) x00).
Proof.
  intros Hj. unfold index.
  destruct (j <? 0)%Z eqn:H1; [apply Z.ltb_lt in H1; lia|].
  destruct (Z.of_nat (len s) <=? j)%Z eqn:H2; [apply Z.leb_le in H2; lia|].
  done.
Qed.

End ResliceFacts.

(** * Facts about the methods *)

Lemma bind_Done {A B : Type} (m : outcome A) (k : A -> outcome B) (b : B) :
  m ≫= k = Done b -> exists a, m = Done a /\ k a = Done b.
Proof. destruct m as [a| |]; simpl; [eauto|done|done]. Qed.

Lemma shape_refl h : shape h h.
Proof. split; [lia|]. intros j. lia. Qed.

Lemma shape_trans h1 h2 h3 : shape h1 h2 -> shape h2 h3 -> shape h1 h3.
Proof.
  intros [L12 H12] [L23 H23]. split; [lia|].
  intros j. specialize (H12 j). specialize (H23 j). lia.
Qed.

Lemma shape_wf h h' s : shape h h' -> wf h s -> wf h' s.
Proof.
  intros [_ Hs] [Hl Hc]. split; [done|]. specialize (Hs (arr s)).
  unfold backing in *. lia.
Qed.

Lemma shape_extend h a : shape h (h ++ [a]).
Proof.
  split; [rewrite length_app; lia|].
  intros j. destruct (decide (j < length h)%nat).
  - rewrite lookup_app_l by done. lia.
  - rewrite (lookup_ge_None_2 h) by lia. simpl. lia.
Qed.

Lemma shape_write h s d :
  (off s + length d <= length (backing h s))%nat -> shape h (write h s d).
Proof.
  intros Hin. split; [unfold write; rewrite length_insert; lia|]. intros j.
  pose proof (length_backing_write h s d (Slice j 0 0 0) Hin) as Hb.
  unfold backing in Hb; simpl in Hb. unfold backing. lia.
Qed.

Section AppendShape.
Variable growcap : nat -> nat -> nat.

Lemma append_shape h s d s' h' :
  wf h s -> append growcap h s d = Done (s', h') -> shape h h'.
Proof.
  intros [Hl Hc] Ha. unfold append in Ha.
  destruct (int.MaxInt <? _); [done|].
  destruct (_ <=? cap s)%nat eqn:Hfit.
  - apply Nat.leb_le in Hfit. injection Ha as <- <-.
    apply shape_write. unfold backing in *. simpl. lia.
  - injection Ha as <- <-. apply shape_extend.
Qed.

(** Storage that [append] takes is either the slice's own or new. *)
Lemma append_arr h s d s' h' :
  append growcap h s d = Done (s', h') ->
  (arr s' = arr s /\ off s' = off s /\ cap s' = cap s)%nat \/
  (length h <= arr s')%nat.
Proof.
  unfold append. intros Ha.
  destruct (int.MaxInt <? _); [done|].
  destruct (_ <=? cap s)%nat eqn:Hfit; injection Ha as <- <-; simpl.
  - by left.
  - right. lia.
Qed.

End AppendShape.

Lemma make_local_Done (k : Z) (n : nat) :
  peekbuffer.make_local k = Done n -> 0 <= k /\ n = Z.to_nat k.
Proof.
  unfold peekbuffer.make_local. intros Hm.
  destruct (Z.ltb_spec k 0) as [Hk|Hk]; [discriminate|].
  destruct (runtime.maxAlloc <? k); [discriminate|].
  injection Hm as <-. done.
Qed.

Lemma make_local_Done_alloc (k : Z) (n : nat) :
  peekbuffer.make_local k = Done n -> k <= runtime.maxAlloc.
Proof.
  unfold peekbuffer.make_local. intros Hm.
  destruct (k <? 0); [discriminate|].
  destruct (Z.ltb_spec runtime.maxAlloc k); [discriminate|done].
Qed.

Lemma pulled_Done {A : Type} (o : option A) (a : A) :
  peekbuffer.pulled o = Done a -> o = Some a.
Proof. destruct o; simpl; [|done]. by intros [= ->]. Qed.

Section MethodFacts.
Context {R : Type} `{io.Reader R}.
Variable growcap : nat -> nat -> nat.

Local Abbreviation PeekBuffer := (peekbuffer.PeekBuffer R).
Local Abbreviation Peek := (peekbuffer.Peek growcap).
Local Abbreviation PeekByte := (peekbuffer.PeekByte growcap).
Local Abbreviation ReadByte := (peekbuffer.ReadByte growcap).
Local Abbreviation buffer := peekbuffer.buffer.
Local Abbreviation reader := peekbuffer.reader.

Lemma sound_new (r : R) (h : store) : sound h (peekbuffer.NewPeekBuffer r).
Proof. split; [apply wf_nil|]. simpl. unfold int.MaxInt. lia. Qed.

(** What [Peek] has done whenever it returns. *)
Lemma Peek_inv fuel this size h v e this' h' :
  sound h this ->
  Peek fuel this size h = Done (v, e, this', h') ->
  exists d e0,
    Peek_pull fuel this size = Some (d, e0, reader this') /\
    reads (reader this) d (reader this') /\
    sound h' this' /\ shape h h' /\
    content h' (buffer this') = content h (buffer this) ++ d /\
    0 <= size /\
    v = Slice (arr (buffer this')) (off (buffer this'))
              (Z.to_nat (Z.min size (Z.of_nat (len (buffer this')))))
              (cap (buffer this')) /\
    e = (if peekbuffer.surfaced e0 then e0 else None) /\
    (d = [] -> buffer this' = buffer this /\ h' = h) /\
    ((arr (buffer this') = arr (buffer this) /\
      off (buffer this') = off (buffer this) /\
      cap (buffer this') = cap (buffer this))
     \/ (length h <= arr (buffer this'))%nat).
Proof.
  intros [Hwf Hlen] Hp. unfold peekbuffer.Peek in Hp.
  apply bind_Done in Hp as ([[e0 this1] h1] & Hpull & Hrest).
  assert (Hview : forall err : option io.error,
    (v0 ← slice_to (buffer this1)
            (if size <? Z.of_nat (len (buffer this1)) then size
             else Z.of_nat (len (buffer this1)));
     Done (v0, err, this1, h1)) = Done (v, e, this', h') ->
    0 <= size /\ this' = this1 /\ h' = h1 /\ e = err /\
    v = Slice (arr (buffer this1)) (off (buffer this1))
          (Z.to_nat (Z.min size (Z.of_nat (len (buffer this1))))) (cap (buffer this1))).
  { intros err Hv. apply bind_Done in Hv as (v0 & Hs & Hd).
    injection Hd as -> <- <- <-.
    unfold slice_to in Hs.
    destruct (_ || _) eqn:Hb; [done|]. injection Hs as <-.
    apply orb_false_iff in Hb as [Hb1 Hb2]. apply Z.ltb_ge in Hb1.
    destruct (size <? Z.of_nat (len (buffer this1))) eqn:Hc.
    - apply Z.ltb_lt in Hc. rewrite Z.min_l by lia. repeat split; done.
    - apply Z.ltb_ge in Hc. rewrite Z.min_r by lia. repeat split; try done. lia. }
  assert (Hfin : 0 <= size /\ this' = this1 /\ h' = h1 /\
    e = (if peekbuffer.surfaced e0 then e0 else None) /\
    v = Slice (arr (buffer this1)) (off (buffer this1))
          (Z.to_nat (Z.min size (Z.of_nat (len (buffer this1))))) (cap (buffer this1))).
  { simpl in Hrest. destruct (peekbuffer.surfaced e0); apply Hview in Hrest; tauto. }
  destruct Hfin as (Hsz & -> & -> & -> & ->). clear Hview Hrest.
  unfold Peek_pull.
  destruct (0 <? int.sub size (Z.of_nat (len (buffer this)))) eqn:Hneed.
  - apply bind_Done in Hpull as (lenbuf & Hmk & Hpull).
    apply make_local_Done in Hmk as [Hneg ->].
    apply bind_Done in Hpull as ([[d e1] r'] & Hfull & Hpull).
    apply pulled_Done in Hfull.
    pose proof (ReadFull_spec _ _ _ _ _ _ Hfull) as (Hreads & _ & _).
    destruct (0 <? Z.of_nat (length d)) eqn:Hn.
    + apply bind_Done in Hpull as ([b h2] & Happ & Hd).
      injection Hd as <- <- <-.
      pose proof (append_spec _ _ _ _ _ _ Hwf Happ) as (Hwf' & Hc & Hl & Hmax & _).
      rewrite Hfull. eexists _, _. split; [reflexivity|]. simpl.
      split_and!; try done.
      * eapply append_shape; done.
      * intros ->. done.
      * apply append_arr in Happ as [Ha|Ha]; [by left|by right].
    + injection Hpull as <- <- <-. apply Z.ltb_ge in Hn.
      assert (d = []) as -> by (destruct d; simpl in *; [done|lia]).
      rewrite Hfull. eexists _, _. split; [reflexivity|]. simpl.
      rewrite app_nil_r.
      split_and!; [done|done|apply shape_refl|done|done|done|done|done|by left].
  - injection Hpull as <- <- <-.
    eexists _, _. split; [reflexivity|]. rewrite app_nil_r.
    split_and!; [constructor|done|apply shape_refl|done|done|done|done|done|by left].
Qed.

Lemma bind_Done_l {A B : Type} (a : A) (k : A -> outcome B) : Done a ≫= k = k a.
Proof. reflexivity. Qed.

Lemma make_local_ok (k : Z) :
  0 <= k <= runtime.maxAlloc -> peekbuffer.make_local k = Done (Z.to_nat k).
Proof.
  intros Hk. unfold peekbuffer.make_local.
  destruct (Z.ltb_spec k 0); [lia|].
  destruct (Z.ltb_spec runtime.maxAlloc k); [lia|done].
Qed.

(** The buffer of [ReadByte] is within the limit. *)
Lemma fill_alloc : 0 <= peekbuffer.FillPeekBufferSize <= runtime.maxAlloc.
Proof. unfold peekbuffer.FillPeekBufferSize, runtime.maxAlloc. lia. Qed.

(** [make] panics below zero and above the limit. *)
Lemma make_local_panics (k : Z) :
  k < 0 \/ runtime.maxAlloc < k ->
  peekbuffer.make_local k = Panics MakesliceLenOutOfRange.
Proof.
  intros Hk. unfold peekbuffer.make_local.
  destruct (Z.ltb_spec k 0); [done|].
  destruct (Z.ltb_spec runtime.maxAlloc k); [done|lia].
Qed.

Lemma pulled_Some {A : Type} (a : A) : peekbuffer.pulled (Some a) = Done a.
Proof. reflexivity. Qed.

Lemma pulled_None {A : Type} : peekbuffer.pulled (@None A) = OutOfFuel.
Proof. reflexivity. Qed.

(** The last step of [Peek]: [have] and the view [this.buffer[:have]]. *)
Lemma Peek_view (this1 : PeekBuffer) (size : Z) (e0 : option io.error) (h1 : store) :
  0 <= size -> (len (buffer this1) <= cap (buffer this1))%nat ->
  (let have := Z.of_nat (len (buffer this1)) in
   let have := if size <? have then size else have in
   if peekbuffer.surfaced e0 then
     v ← slice_to (buffer this1) have; Done (v, e0, this1, h1)
   else
     v ← slice_to (buffer this1) have; Done (v, None, this1, h1)) =
  Done (Slice (arr (buffer this1)) (off (buffer this1))
          (Z.to_nat (Z.min size (Z.of_nat (len (buffer this1)))))
          (cap (buffer this1)),
        (if peekbuffer.surfaced e0 then e0 else None), this1, h1).
Proof.
  intros Hsz Hcap. cbv zeta.
  assert (Hhave : (if size <? Z.of_nat (len (buffer this1)) then size
                   else Z.of_nat (len (buffer this1)))
                  = Z.min size (Z.of_nat (len (buffer this1)))).
  { destruct (Z.ltb_spec size (Z.of_nat (len (buffer this1)))); lia. }
  rewrite Hhave. rewrite slice_to_done by lia.
  by destruct (peekbuffer.surfaced e0).
Qed.

Lemma sub_len_fits (size : Z) (n : nat) :
  0 <= size <= int.MaxInt -> Z.of_nat n <= int.MaxInt ->
  int.sub size (Z.of_nat n) = size - Z.of_nat n.
Proof.
  intros Hs Hn. apply wrap_id. unfold int.in_range, int.MinInt, int.MaxInt in *. lia.
Qed.

(** Within the range of sizes whose rounding does not overflow, and with a
    shortfall that [make] allocates, [Peek] does what its pull allows and
    does not panic. *)
Lemma Peek_run fuel this size h d e0 r' :
  sound h this ->
  0 <= size -> size + 4095 <= int.MaxInt ->
  size - Z.of_nat (len (buffer this)) <= runtime.maxAlloc ->
  Peek_pull fuel this size = Some (d, e0, r') ->
  exists v this' h',
    Peek fuel this size h
      = Done (v, (if peekbuffer.surfaced e0 then e0 else None), this', h') /\
    reader this' = r'.
Proof.
  intros [Hwf Hlen] Hsz Hfit Halloc0 Hpull.
  unfold Peek_pull in Hpull. unfold peekbuffer.Peek.
  rewrite sub_len_fits in * by (unfold int.MaxInt in *; lia).
  destruct (Z.ltb_spec 0 (size - Z.of_nat (len (buffer this)))) as [Hneed|Hneed].
  - pose proof (roundedNeed_alloc _ (conj Hneed Halloc0)) as [Halloc Hround].
    rewrite make_local_ok by lia. rewrite bind_Done_l. cbv beta.
    rewrite Hpull, pulled_Some, bind_Done_l.
    pose proof (ReadFull_spec _ _ _ _ _ _ Hpull) as (_ & Hd & _).
    destruct (Z.ltb_spec 0 (Z.of_nat (length d))) as [Hn|Hn].
    + destruct (append_done growcap h (buffer this) d) as (b & h2 & Happ); [lia|].
      rewrite Happ, !bind_Done_l.
      pose proof (append_spec _ _ _ _ _ _ Hwf Happ) as ([Hlc _] & _).
      eexists _, _, _. split; [apply Peek_view; done|done].
    + rewrite bind_Done_l. destruct Hwf as [Hlc _].
      eexists _, _, _. split; [apply Peek_view; done|done].
  - injection Hpull as <- <- <-. rewrite bind_Done_l.
    destruct Hwf as [Hlc _].
    eexists _, _, _. split; [apply Peek_view; done|done].
Qed.

(** The only way [Peek] does not return in that range is a pull that does not
    end. *)
Lemma Peek_fuel fuel this size h :
  sound h this ->
  0 <= size -> size + 4095 <= int.MaxInt ->
  size - Z.of_nat (len (buffer this)) <= runtime.maxAlloc ->
  Peek_pull fuel this size = None ->
  Peek fuel this size h = OutOfFuel.
Proof.
  intros [Hwf Hlen] Hsz Hfit Halloc0 Hpull.
  unfold Peek_pull in Hpull. unfold peekbuffer.Peek.
  rewrite sub_len_fits in * by (unfold int.MaxInt in *; lia).
  destruct (Z.ltb_spec 0 (size - Z.of_nat (len (buffer this)))) as [Hneed|Hneed];
    [|done].
  pose proof (roundedNeed_alloc _ (conj Hneed Halloc0)) as [Halloc Hround].
  rewrite make_local_ok by lia. rewrite bind_Done_l. cbv beta.
  rewrite Hpull, pulled_None. done.
Qed.

(** ** [Read] *)

(** With pending bytes [Read] copies from the buffer and does not pull. *)
Lemma Read_pending (this : PeekBuffer) (p : slice) (h : store) :
  wf h (buffer this) -> wf h p ->
  (0 < len (buffer this))%nat ->
  let n := Nat.min (len p) (len (buffer this)) in
  let b' := Slice (arr (buffer this)) (off (buffer this) + n)
                  (len (buffer this) - n) (cap (buffer this) - n) in
  let h' := write h p (take n (content h (buffer this))) in
    peekbuffer.Read this p h
      = Done (Z.of_nat n, None,
              {| peekbuffer.reader := reader this; peekbuffer.buffer := b' |}, h') /\
    content h' p = take n (content h (buffer this)) ++ drop n (content h p) /\
    content h b' = drop n (content h (buffer this)) /\
    (arr p <> arr (buffer this) -> content h' b' = drop n (content h (buffer this))).
Proof.
  intros Hwf Hp Hpos n b' h'. unfold peekbuffer.Read.
  destruct (Nat.ltb_spec 0 (len (buffer this))) as [_|?]; [|lia].
  unfold copy. fold n.
  rewrite slice_from_done by (unfold n; lia). rewrite bind_Done_l.
  split; [reflexivity|]. unfold h'.
  assert (Hn : length (take n (content h (buffer this))) = n).
  { rewrite length_take, length_content by done. unfold n. lia. }
  split_and!.
  - rewrite content_write_self by (try done; rewrite Hn; unfold n; lia).
    by rewrite Hn.
  - apply content_suffix. unfold n. lia.
  - intros Hne. rewrite content_write_other by (simpl; congruence).
    apply content_suffix. unfold n. lia.
Qed.

(** With none it hands the caller's buffer to the reader. *)
Lemma Read_through (this : PeekBuffer) (p : slice) (h : store) :
  wf h (buffer this) -> wf h p ->
  len (buffer this) = 0%nat ->
  forall d e r', io.Read (reader this) (len p) = (d, e, r') ->
    peekbuffer.Read this p h
      = Done (Z.of_nat (length d), e,
              {| peekbuffer.reader := r'; peekbuffer.buffer := buffer this |},
              write h p d) /\
    content (write h p d) p = d ++ drop (length d) (content h p).
Proof.
  intros Hwf Hp Hz d e r' Hr. unfold peekbuffer.Read.
  destruct (Nat.ltb_spec 0 (len (buffer this))) as [?|_]; [lia|].
  rewrite Hr. split; [done|].
  apply content_write_self; [done|].
  pose proof (io.Read_len (reader this) (len p)) as Hl. by rewrite Hr in Hl.
Qed.

(** C4 (Read case analysis). With pending bytes, [Read(p)] copies the first
    [n = min(len(p), len(pending))] of them to the front of [p], advances the
    buffer by [n] (its bytes are the old ones without the first [n] when [p]
    has its own storage), returns [n] and a nil error and leaves the reader
    as it was: no pull. With no pending bytes it is one [Read] of the source
    into [p], whose count and error it returns as they are. *)
Theorem C4_Read_cases (this : PeekBuffer) (p : slice) (h : store) :
  wf h (buffer this) -> wf h p ->
  ((0 < len (buffer this))%nat ->
   let n := Nat.min (len p) (len (buffer this)) in
   let b' := Slice (arr (buffer this)) (off (buffer this) + n)
                   (len (buffer this) - n) (cap (buffer this) - n) in
   let h' := write h p (take n (content h (buffer this))) in
     peekbuffer.Read this p h
       = Done (Z.of_nat n, None,
               {| peekbuffer.reader := reader this; peekbuffer.buffer := b' |}, h') /\
     content h' p = take n (content h (buffer this)) ++ drop n (content h p) /\
     content h b' = drop n (content h (buffer this)) /\
     (arr p <> arr (buffer this) -> content h' b' = drop n (content h (buffer this)))) /\
  (len (buffer this) = 0%nat ->
   forall d e r', io.Read (reader this) (len p) = (d, e, r') ->
     peekbuffer.Read this p h
       = Done (Z.of_nat (length d), e,
               {| peekbuffer.reader := r'; peekbuffer.buffer := buffer this |},
               write h p d) /\
     content (write h p d) p = d ++ drop (length d) (content h p)).
Proof.
  intros Hwf Hp. split.
  - by apply Read_pending.
  - by apply Read_through.
Qed.

(** ** [ReadByte] *)

Lemma content_cons h s :
  wf h s -> (0 < len s)%nat ->
  content h s = nth 0 (content h s) x00 :: drop 1 (content h s).
Proof.
  intros Hwf Hpos. pose proof (length_content h s Hwf) as Hl.
  destruct (content h s); simpl in *; [lia|done].
Qed.

(** With pending bytes [ReadByte] takes the front one and does not pull. *)
Lemma ReadByte_pending (fuel : nat) (this : PeekBuffer) (h : store) :
  sound h this ->
  (0 < len (buffer this))%nat ->
  let b' := Slice (arr (buffer this)) (off (buffer this) + 1)
                  (len (buffer this) - 1) (cap (buffer this) - 1) in
  ReadByte fuel this h
    = Done (nth 0 (content h (buffer this)) x00, None,
            {| peekbuffer.reader := reader this; peekbuffer.buffer := b' |}, h) /\
  content h (buffer this)
    = nth 0 (content h (buffer this)) x00 :: content h b'.
Proof.
  intros [Hwf Hlen].
  intros Hpos b'. unfold peekbuffer.ReadByte.
  destruct (Nat.ltb_spec 0 (len (buffer this))) as [_|?]; [|lia].
  rewrite index_done by lia. rewrite bind_Done_l.
  rewrite (slice_from_done _ 1) by lia. rewrite bind_Done_l.
  split; [done|].
  rewrite (content_cons h (buffer this)) at 1 by done. f_equal.
  symmetry. apply (content_suffix h (buffer this) 1). lia.
Qed.

(** With none it pulls up to the fill unit, and at least one byte. *)
Lemma ReadByte_empty (fuel : nat) (this : PeekBuffer) (h : store) :
  sound h this ->
  len (buffer this) = 0%nat ->
  fill = 4096%nat /\
  (io.ReadAtLeast fuel (reader this) fill 1 = None ->
   ReadByte fuel this h = OutOfFuel) /\
  forall d e r', io.ReadAtLeast fuel (reader this) fill 1 = Some (d, e, r') ->
    (length d <= fill)%nat /\
    (d <> [] ->
     exists this' h',
       ReadByte fuel this h = Done (hd x00 d, None, this', h') /\
       reader this' = r' /\ content h' (buffer this') = tl d /\
       sound h' this') /\
    (d = [] ->
     e <> None /\
     ReadByte fuel this h
       = Done (x00, e,
               {| peekbuffer.reader := r'; peekbuffer.buffer := buffer this |}, h)) /\
    (forall b e' this' h',
       ReadByte fuel this h = Done (b, e', this', h') -> e' = None <-> d <> []).
Proof.
  intros [Hwf Hlen].
  intros Hz. split; [done|].
  assert (Hunf : forall o,
    io.ReadAtLeast fuel (reader this) fill 1 = o ->
    ReadByte fuel this h =
      peekbuffer.pulled o ≫= (fun '(d, err, r') =>
        if 0 <? Z.of_nat (length d) then
          '(s, h1) ← append growcap h (buffer this) d;
          b ← index h1 s 0;
          s' ← slice_from s 1;
          Done (b, None, {| peekbuffer.reader := r'; peekbuffer.buffer := s' |}, h1)
        else
          Done (x00, err,
                {| peekbuffer.reader := r'; peekbuffer.buffer := buffer this |}, h))).
  { intros o <-. unfold peekbuffer.ReadByte.
    destruct (Nat.ltb_spec 0 (len (buffer this))) as [?|_]; [lia|].
    rewrite make_local_ok by apply fill_alloc. rewrite bind_Done_l. done. }
  split; [intros Hn; by rewrite (Hunf _ Hn)|].
  intros d e r' Hpull. rewrite (Hunf _ Hpull), pulled_Some, bind_Done_l.
  clear Hunf.
  pose proof (ReadAtLeast_spec _ _ _ _ _ _ _ Hpull) as (_ & Hd & He).
  split; [done|].
  destruct d as [|x d].
  + simpl. assert (e <> None) by (intros ->; destruct He as [He _]; specialize (He eq_refl); simpl in He; lia).
    split_and!; [done|done|].
    intros b e' this' h' [= <- <- <- <-]. split; [done|done].
  + destruct (Z.ltb_spec 0 (Z.of_nat (length (x :: d)))) as [_|Hn];
      [|simpl in Hn; lia].
    destruct (append_done growcap h (buffer this) (x :: d)) as (s & h1 & Happ).
    { rewrite Hz. unfold fill, peekbuffer.FillPeekBufferSize, int.MaxInt in *. lia. }
    pose proof (append_spec _ _ _ _ _ _ Hwf Happ) as (Hwf' & Hc & Hl & Hmax & _).
    rewrite Happ, bind_Done_l.
    rewrite index_done by (rewrite Hl; simpl; lia). rewrite bind_Done_l.
    rewrite (slice_from_done _ 1) by (rewrite Hl; simpl; lia).
    rewrite bind_Done_l.
    assert (Hnil : content h (buffer this) = []).
    { unfold content. rewrite Hz. apply take_0. }
    rewrite Hc, Hnil. simpl.
    split_and!; [|done|].
    * intros _. eexists _, _. split; [reflexivity|]. simpl.
      split_and!; [done| |].
      -- rewrite (content_suffix h1 s 1) by (rewrite Hl; simpl; lia).
         rewrite Hc, Hnil. done.
      -- split; simpl; [apply (wf_suffix h1 s 1); [done|rewrite Hl; simpl; lia]|lia].
    * intros b e' this' h' [= <- <- <- <-]. done.
Qed.

(** C5 (ReadByte). With pending bytes, [ReadByte] returns the front one with a
    nil error, advances the buffer by one and leaves the reader as it was.
    With none, it pulls through [io.ReadAtLeast] into a buffer of the fill
    unit (4096 bytes) asking for at least one byte: when the pull brought
    bytes, it returns the first with a nil error and keeps the others pending;
    when it brought none, it returns the zero byte with the pull's error,
    which is not nil. So it succeeds exactly when the pull brought a byte. *)
Theorem C5_ReadByte_cases (fuel : nat) (this : PeekBuffer) (h : store) :
  sound h this ->
  ((0 < len (buffer this))%nat ->
   let b' := Slice (arr (buffer this)) (off (buffer this) + 1)
                   (len (buffer this) - 1) (cap (buffer this) - 1) in
   ReadByte fuel this h
     = Done (nth 0 (content h (buffer this)) x00, None,
             {| peekbuffer.reader := reader this; peekbuffer.buffer := b' |}, h) /\
   content h (buffer this)
     = nth 0 (content h (buffer this)) x00 :: content h b') /\
  (len (buffer this) = 0%nat ->
   fill = 4096%nat /\
   (io.ReadAtLeast fuel (reader this) fill 1 = None ->
    ReadByte fuel this h = OutOfFuel) /\
   forall d e r', io.ReadAtLeast fuel (reader this) fill 1 = Some (d, e, r') ->
     (length d <= fill)%nat /\
     (d <> [] ->
      exists this' h',
        ReadByte fuel this h = Done (hd x00 d, None, this', h') /\
        reader this' = r' /\ content h' (buffer this') = tl d /\
        sound h' this') /\
     (d = [] ->
      e <> None /\
      ReadByte fuel this h
        = Done (x00, e,
                {| peekbuffer.reader := r'; peekbuffer.buffer := buffer this |}, h)) /\
     (forall b e' this' h',
        ReadByte fuel this h = Done (b, e', this', h') -> e' = None <-> d <> [])).
Proof.
  intros Hs. split.
  - by apply ReadByte_pending.
  - by apply ReadByte_empty.
Qed.

End MethodFacts.

Section PeekFacts.
Context {R : Type} `{io.Reader R}.
Variable growcap : nat -> nat -> nat.

Local Abbreviation PeekBuffer := (peekbuffer.PeekBuffer R).
Local Abbreviation Peek := (peekbuffer.Peek growcap).
Local Abbreviation PeekByte := (peekbuffer.PeekByte growcap).
Local Abbreviation ReadByte := (peekbuffer.ReadByte growcap).
Local Abbreviation buffer := peekbuffer.buffer.
Local Abbreviation reader := peekbuffer.reader.


Lemma ReadFull_zero fuel (r : R) : io.ReadFull fuel r 0 = Some ([], None, r).
Proof. unfold io.ReadFull, io.ReadAtLeast. by destruct fuel. Qed.

(** The pull of a [Peek] that needs bytes, with the shortfall written without
    wrap-around. *)
Lemma Peek_pull_short fuel this size :
  0 <= size <= int.MaxInt -> Z.of_nat (len (buffer this)) <= int.MaxInt ->
  Z.of_nat (len (buffer this)) < size ->
  Peek_pull fuel this size
    = io.ReadFull fuel (reader this)
        (Z.to_nat (peekbuffer.roundedNeed (size - Z.of_nat (len (buffer this))))).
Proof.
  intros Hs Hl Hlt. unfold Peek_pull. rewrite sub_len_fits by done.
  destruct (Z.ltb_spec 0 (size - Z.of_nat (len (buffer this)))); [done|lia].
Qed.

Lemma Peek_pull_enough fuel this size :
  0 <= size <= int.MaxInt -> Z.of_nat (len (buffer this)) <= int.MaxInt ->
  size <= Z.of_nat (len (buffer this)) ->
  Peek_pull fuel this size = Some ([], None, reader this).
Proof.
  intros Hs Hl Hlt. unfold Peek_pull. rewrite sub_len_fits by done.
  destruct (Z.ltb_spec 0 (size - Z.of_nat (len (buffer this)))); [lia|done].
Qed.

(** [Peek] returns whenever its size is not negative, the rounded shortfall is
    a length that [make] accepts, the pull returns, and the buffer with the
    bytes pulled has a length that is an [int]. *)
Lemma Peek_returns fuel this size h d e0 r' :
  sound h this ->
  0 <= size <= int.MaxInt ->
  (Z.of_nat (len (buffer this)) < size ->
   0 <= peekbuffer.roundedNeed (size - Z.of_nat (len (buffer this)))
     <= runtime.maxAlloc) ->
  Peek_pull fuel this size = Some (d, e0, r') ->
  Z.of_nat (len (buffer this) + length d) <= int.MaxInt ->
  exists v this' h',
    Peek fuel this size h
      = Done (v, (if peekbuffer.surfaced e0 then e0 else None), this', h').
Proof.
  intros [Hwf Hlen] Hsz Hmake Hpull Hfit.
  unfold Peek_pull in Hpull. unfold peekbuffer.Peek.
  rewrite sub_len_fits in * by done.
  destruct (Z.ltb_spec 0 (size - Z.of_nat (len (buffer this)))) as [Hneed|Hneed].
  - rewrite make_local_ok by (apply Hmake; lia). rewrite bind_Done_l. cbv beta.
    rewrite Hpull, pulled_Some, bind_Done_l.
    destruct (Z.ltb_spec 0 (Z.of_nat (length d))) as [Hn|Hn].
    + destruct (append_done growcap h (buffer this) d) as (b & h2 & Happ); [lia|].
      rewrite Happ, !bind_Done_l.
      pose proof (append_spec _ _ _ _ _ _ Hwf Happ) as ([Hlc _] & _).
      eexists _, _, _. apply Peek_view; [lia|done].
    + rewrite bind_Done_l. destruct Hwf as [Hlc _].
      eexists _, _, _. apply Peek_view; [lia|done].
  - injection Hpull as <- <- <-. rewrite bind_Done_l.
    destruct Hwf as [Hlc _].
    eexists _, _, _. apply Peek_view; [lia|done].
Qed.

(** What the view of a [Peek] that returned shows. *)
Lemma Peek_view_content h' (this' : PeekBuffer) size v pending :
  sound h' this' -> 0 <= size ->
  content h' (buffer this') = pending ->
  v = Slice (arr (buffer this')) (off (buffer this'))
        (Z.to_nat (Z.min size (Z.of_nat (len (buffer this')))))
        (cap (buffer this')) ->
  content h' v = take (Z.to_nat size) pending /\
  len v = Nat.min (Z.to_nat size) (length pending).
Proof.
  intros [Hwf _] Hsz <- ->.
  pose proof (length_content _ _ Hwf) as Hl.
  rewrite content_prefix by lia. simpl. rewrite Hl. split; [|lia].
  destruct (Z.le_ge_cases size (Z.of_nat (len (buffer this')))).
  - by rewrite Z.min_l.
  - rewrite Z.min_r, Nat2Z.id by done.
    rewrite !take_ge by (rewrite Hl; lia). done.
Qed.

(** [Peek] specified: under the conditions of [Peek_returns], what it returns
    and what it leaves. *)
Lemma Peek_spec fuel this size h d e0 r' :
  sound h this ->
  0 <= size <= int.MaxInt ->
  (Z.of_nat (len (buffer this)) < size ->
   0 <= peekbuffer.roundedNeed (size - Z.of_nat (len (buffer this)))
     <= runtime.maxAlloc) ->
  Peek_pull fuel this size = Some (d, e0, r') ->
  Z.of_nat (len (buffer this) + length d) <= int.MaxInt ->
  exists v this' h',
    Peek fuel this size h
      = Done (v, (if peekbuffer.surfaced e0 then e0 else None), this', h') /\
    reader this' = r' /\ sound h' this' /\ shape h h' /\
    content h' (buffer this') = content h (buffer this) ++ d /\
    content h' v = take (Z.to_nat size) (content h (buffer this) ++ d) /\
    len v = Nat.min (Z.to_nat size) (len (buffer this) + length d) /\
    arr v = arr (buffer this') /\ off v = off (buffer this').
Proof.
  intros Hs Hsz Hmake Hpull Hfit.
  destruct (Peek_returns fuel this size h d e0 r') as (v & this' & h' & Hp); try done.
  exists v, this', h'. split; [done|].
  pose proof (Peek_inv growcap _ _ _ _ _ _ _ _ Hs Hp)
    as (d1 & e1 & Hpull1 & _ & Hs' & Hsh & Hc & _ & Hv & _).
  rewrite Hpull in Hpull1. injection Hpull1 as <- <- ->.
  pose proof (Peek_view_content _ _ _ _ _ Hs' (proj1 Hsz) Hc Hv) as [Hvc Hvl].
  rewrite length_app, length_content in Hvl by apply Hs.
  split_and!; try done. all: by rewrite Hv.
Qed.

End PeekFacts.

(** * Pulls from a [bytes.Reader] *)

(** Two rounds of the loop are enough on a [bytes.Reader]: it delivers all it
    can at once. *)
Lemma bytes_ReadAtLeast (fuel : nat) (r : bytes.Reader) (lenbuf : nat) (min : Z) :
  (2 <= fuel)%nat -> 0 < min <= Z.of_nat lenbuf ->
  exists r',
    io.ReadAtLeast fuel r lenbuf min
      = Some (take lenbuf (bytes.rest r),
              pull_error min (length (bytes.rest r))
                         (length (take lenbuf (bytes.rest r))), r') /\
    bytes.rest r' = drop lenbuf (bytes.rest r).
Proof.
  intros Hfuel Hmin.
  destruct fuel as [|[|fuel]]; [lia|lia|].
  unfold io.ReadAtLeast.
  destruct (Z.ltb_spec (Z.of_nat lenbuf) min) as [?|_]; [lia|].
  assert (Hrest : length (bytes.rest r) = (length (bytes.s r) - bytes.i r)%nat).
  { unfold bytes.rest. apply length_drop. }
  unfold io.ReadAtLeast_loop at 1. fold (@io.ReadAtLeast_loop bytes.Reader _).
  change (length (@nil byte)) with 0%nat.
  destruct (Z.ltb_spec (Z.of_nat 0) min) as [_|?]; [|lia].
  cbn [andb io.is_nil]. rewrite Nat.sub_0_r.
  change (io.Read r lenbuf) with (bytes.Read r lenbuf).
  unfold bytes.Read.
  destruct (Nat.leb_spec (length (bytes.s r)) (bytes.i r)) as [Hend|Hmore].
  - (* nothing left *)
    assert (Hnil : bytes.rest r = []).
    { unfold bytes.rest. by apply drop_ge. }
    exists r. rewrite Hnil. rewrite take_nil, drop_nil. split; [|done].
    unfold io.ReadAtLeast_loop. cbn [app length].
    destruct (Z.ltb_spec (Z.of_nat 0) min) as [_|?]; [|lia].
    cbn [andb io.is_nil].
    destruct fuel; cbn [io.is_nil andb];
      (destruct (Z.leb_spec min (Z.of_nat 0)) as [?|_]; [lia|]);
      cbn; unfold pull_error;
      (destruct (Z.leb_spec min (Z.of_nat 0)) as [?|_]; [lia|]); done.
  - set (d := take lenbuf (drop (bytes.i r) (bytes.s r))).
    set (r1 := {| bytes.s := bytes.s r; bytes.i := bytes.i r + length d |}).
    assert (Hd : d = take lenbuf (bytes.rest r)) by done.
    assert (Hr1 : bytes.rest r1 = drop lenbuf (bytes.rest r)).
    { unfold bytes.rest, r1. simpl. rewrite <- drop_drop. fold (bytes.rest r).
      rewrite Hd, length_take.
      destruct (decide (lenbuf <= length (bytes.rest r))%nat).
      - by rewrite Nat.min_l.
      - rewrite Nat.min_r by lia. rewrite !drop_ge by lia. done. }
    exists r1. split; [|done]. rewrite <- Hd. cbn [app].
    unfold pull_error.
    unfold io.ReadAtLeast_loop at 1. fold (@io.ReadAtLeast_loop bytes.Reader _).
    destruct (Z.ltb_spec (Z.of_nat (length d)) min) as [Hshort|Hfull].
    + cbn [andb io.is_nil].
      assert (Hall : length d = length (bytes.rest r)).
      { rewrite Hd, length_take. rewrite Hd, length_take in Hshort. lia. }
      change (io.Read r1 (lenbuf - length d)) with (bytes.Read r1 (lenbuf - length d)).
      unfold bytes.Read.
      destruct (Nat.leb_spec (length (bytes.s r1)) (bytes.i r1)) as [_|Hno];
        [|unfold r1 in Hno; simpl in Hno; lia].
      rewrite app_nil_r.
      assert (Hloop : io.ReadAtLeast_loop fuel r1 lenbuf min d (Some io.EOF)
                      = Some (d, Some io.EOF, r1)).
      { destruct fuel; simpl; by rewrite andb_false_r. }
      rewrite Hloop.
      destruct (Z.leb_spec min (Z.of_nat (length d))) as [?|_]; [lia|].
      assert (Hpos : (0 < length d)%nat) by (rewrite Hall, Hrest; lia).
      destruct (Z.ltb_spec 0 (Z.of_nat (length d))) as [_|?]; [|lia].
      cbn [andb io.err_is io.error_eqb].
      destruct (Nat.eqb_spec (length (bytes.rest r)) 0) as [?|_]; [lia|done].
    + cbn [andb].
      destruct (Z.leb_spec min (Z.of_nat (length d))) as [_|?]; [done|lia].
Qed.

Lemma bytes_ReadFull (fuel : nat) (r : bytes.Reader) (lenbuf : nat) :
  (2 <= fuel)%nat -> (0 < lenbuf)%nat ->
  exists r',
    io.ReadFull fuel r lenbuf
      = Some (take lenbuf (bytes.rest r),
              pull_error (Z.of_nat lenbuf) (length (bytes.rest r))
                         (length (take lenbuf (bytes.rest r))), r') /\
    bytes.rest r' = drop lenbuf (bytes.rest r).
Proof. intros Hf Hl. apply bytes_ReadAtLeast; [done|lia]. Qed.

(** * Errors of [Peek] *)

Lemma error_eqb_eq (a b : io.error) : io.error_eqb a b = true <-> a = b.
Proof.
  destruct a, b; simpl; try (split; [discriminate|congruence]); try done.
  rewrite String.eqb_eq. split; congruence.
Qed.

(** [Peek] keeps an error exactly when it is neither nil nor one of the two
    ends of stream. *)
Lemma surfaced_true (e : option io.error) :
  peekbuffer.surfaced e = true <->
  exists x, e = Some x /\ x <> io.EOF /\ x <> io.ErrUnexpectedEOF.
Proof.
  unfold peekbuffer.surfaced. destruct e as [x|]; simpl.
  - rewrite !andb_true_iff, !negb_true_iff.
    split.
    + intros [He Hu]. exists x. split; [done|].
      split; intros ->; simpl in *; discriminate.
    + intros (y & [= <-] & He & Hu).
      split; apply not_true_is_false; rewrite error_eqb_eq; done.
  - split; [discriminate|]. by intros (x & ? & _).
Qed.

Section PeekErrors.
Context {R : Type} `{io.Reader R}.
Variable growcap : nat -> nat -> nat.

Local Abbreviation PeekBuffer := (peekbuffer.PeekBuffer R).
Local Abbreviation Peek := (peekbuffer.Peek growcap).
Local Abbreviation buffer := peekbuffer.buffer.
Local Abbreviation reader := peekbuffer.reader.

(** Whatever the state, an error that [Peek] returns went through its test. *)
Lemma Peek_error_surfaced fuel (this : PeekBuffer) size h v e this' h' :
  Peek fuel this size h = Done (v, e, this', h') ->
  e = None \/ peekbuffer.surfaced e = true.
Proof.
  intros Hp. unfold peekbuffer.Peek in Hp.
  apply bind_Done in Hp as ([[e0 this1] h1] & _ & Hrest).
  cbv zeta in Hrest.
  destruct (peekbuffer.surfaced e0) eqn:Hs;
    apply bind_Done in Hrest as (v0 & _ & Hd); injection Hd as _ <- _ _.
  - by right.
  - by left.
Qed.

(** C6 (other errors are surfaced, progress is kept). When a [Peek] of a size
    that is not negative has to pull, the buffer for the pull is one that
    [make] allocates (its length is within the runtime's limit), and the pull
    fails with an error that is neither [io.EOF] nor [io.ErrUnexpectedEOF]
    after delivering the bytes [d], then [Peek] returns that error, its view
    shows the first [size] bytes of the pending bytes followed by [d], and the
    buffer keeps all of them. *)
Theorem C6_Peek_surfaces_error fuel (this : PeekBuffer) size h d e r' :
  sound h this ->
  0 <= size <= int.MaxInt ->
  Z.of_nat (len (buffer this)) < size ->
  peekbuffer.roundedNeed (size - Z.of_nat (len (buffer this)))
    <= runtime.maxAlloc ->
  io.ReadFull fuel (reader this)
    (Z.to_nat (peekbuffer.roundedNeed (size - Z.of_nat (len (buffer this)))))
    = Some (d, Some e, r') ->
  e <> io.EOF -> e <> io.ErrUnexpectedEOF ->
  Z.of_nat (len (buffer this) + length d) <= int.MaxInt ->
  exists v this' h',
    Peek fuel this size h = Done (v, Some e, this', h') /\
    reader this' = r' /\
    content h' (buffer this') = content h (buffer this) ++ d /\
    content h' v = take (Z.to_nat size) (content h (buffer this) ++ d).
Proof.
  intros Hs Hsz Hshort Halloc Hpull He Hu Hfit.
  assert (Hsurf : peekbuffer.surfaced (Some e) = true).
  { apply surfaced_true. by exists e. }
  assert (Hmake : 0 <= peekbuffer.roundedNeed (size - Z.of_nat (len (buffer this)))
                  <= runtime.maxAlloc).
  { split; [|done].
    destruct (Z.le_gt_cases 0
      (peekbuffer.roundedNeed (size - Z.of_nat (len (buffer this))))) as [?|Hneg];
      [done|].
    rewrite Z2Nat.nonpos, ReadFull_zero in Hpull by lia. done. }
  destruct (Peek_spec growcap fuel this size h d (Some e) r')
    as (v & this' & h' & Hp & Hr & _ & _ & Hc & Hv & _); try done.
  - by rewrite Peek_pull_short by (try done; apply Hs).
  - rewrite Hsurf in Hp. by exists v, this', h'.
Qed.

End PeekErrors.

(** * End of stream in [Peek] *)

(** A pull from the [ErrorReader] of the tests ends at once with its error. *)
Lemma ErrorReader_ReadFull (fuel : nat) (x : io.error) (lenbuf : nat) :
  (1 <= fuel)%nat -> (0 < lenbuf)%nat ->
  io.ReadFull fuel {| err := Some x |} lenbuf
    = Some ([], Some x, {| err := Some x |}).
Proof.
  intros Hf Hl. destruct fuel as [|fuel]; [lia|].
  unfold io.ReadFull, io.ReadAtLeast.
  destruct (Z.ltb_spec (Z.of_nat lenbuf) (Z.of_nat lenbuf)) as [?|_]; [lia|].
  unfold io.ReadAtLeast_loop at 1. fold (@io.ReadAtLeast_loop ErrorReader _).
  change (length (@nil byte)) with 0%nat.
  destruct (Z.ltb_spec (Z.of_nat 0) (Z.of_nat lenbuf)) as [_|?]; [|lia].
  cbn [andb io.is_nil io.Read ErrorReader_io ErrorReader_Read err app].
  assert (Hloop : io.ReadAtLeast_loop fuel {| err := Some x |} lenbuf
                    (Z.of_nat lenbuf) [] (Some x)
                  = Some ([], Some x, {| err := Some x |})).
  { destruct fuel; simpl; by rewrite andb_false_r. }
  rewrite Hloop. change (length (@nil byte)) with 0%nat.
  destruct (Z.leb_spec (Z.of_nat lenbuf) (Z.of_nat 0)) as [?|_]; [lia|].
  destruct (Z.ltb_spec 0 (Z.of_nat 0)) as [?|_]; [lia|]. done.
Qed.

Section PeekEnd.
Context {R : Type} `{io.Reader R}.
Variable growcap : nat -> nat -> nat.

Local Abbreviation PeekBuffer := (peekbuffer.PeekBuffer R).
Local Abbreviation Peek := (peekbuffer.Peek growcap).
Local Abbreviation buffer := peekbuffer.buffer.
Local Abbreviation reader := peekbuffer.reader.

Lemma surfaced_end (e : io.error) :
  e = io.EOF \/ e = io.ErrUnexpectedEOF -> peekbuffer.surfaced (Some e) = false.
Proof. by intros [-> | ->]. Qed.

(** The error of the pull decides the error of [Peek]. *)
Lemma Peek_error_of_pull fuel (this : PeekBuffer) size h v e this' h' d e0 r :
  sound h this ->
  Peek fuel this size h = Done (v, e, this', h') ->
  Peek_pull fuel this size = Some (d, e0, r) ->
  e = (if peekbuffer.surfaced e0 then e0 else None).
Proof.
  intros Hs Hp Hpull.
  eapply Peek_inv in Hp as (d1 & e1 & Hpull1 & _ & _ & _ & _ & _ & _ & He & _);
    [|done].
  rewrite Hpull in Hpull1. by injection Hpull1 as _ <- _.
Qed.

(** A pull that ends the stream is no error of [Peek]: the view shows the
    first [size] of the bytes now pending, all of them when they are no more
    than [size]. *)
Lemma Peek_end_of_stream fuel (this : PeekBuffer) size h d e r' :
  sound h this ->
  0 <= size <= int.MaxInt ->
  Z.of_nat (len (buffer this)) < size ->
  peekbuffer.roundedNeed (size - Z.of_nat (len (buffer this)))
    <= runtime.maxAlloc ->
  io.ReadFull fuel (reader this)
    (Z.to_nat (peekbuffer.roundedNeed (size - Z.of_nat (len (buffer this)))))
    = Some (d, Some e, r') ->
  e = io.EOF \/ e = io.ErrUnexpectedEOF ->
  Z.of_nat (len (buffer this) + length d) <= int.MaxInt ->
  exists v this' h',
    Peek fuel this size h = Done (v, None, this', h') /\
    reader this' = r' /\
    content h' (buffer this') = content h (buffer this) ++ d /\
    content h' v = take (Z.to_nat size) (content h (buffer this) ++ d) /\
    (Z.of_nat (len (buffer this) + length d) <= size ->
     content h' v = content h (buffer this) ++ d).
Proof.
  intros Hs Hsz Hshort Halloc Hpull He Hfit.
  assert (Hmake : 0 <= peekbuffer.roundedNeed (size - Z.of_nat (len (buffer this)))
                  <= runtime.maxAlloc).
  { split; [|done].
    destruct (Z.le_gt_cases 0
      (peekbuffer.roundedNeed (size - Z.of_nat (len (buffer this))))) as [?|Hneg];
      [done|].
    rewrite Z2Nat.nonpos, ReadFull_zero in Hpull by lia. done. }
  destruct (Peek_spec growcap fuel this size h d (Some e) r')
    as (v & this' & h' & Hp & Hr & _ & _ & Hc & Hv & _); try done.
  - by rewrite Peek_pull_short by (try done; apply Hs).
  - rewrite surfaced_end in Hp by done. exists v, this', h'.
    split_and!; try done.
    intros Hall. rewrite Hv. apply take_ge.
    rewrite length_app, length_content by apply Hs. lia.
Qed.

End PeekEnd.

(** On a new PeekBuffer over a [bytes.Reader] of [S], a [Peek] of more than
    [len(S)] bytes, within the sizes that [make] allocates, shows all of [S]
    and returns no error. *)
Lemma Peek_bytes_beyond (growcap : nat -> nat -> nat) (fuel : nat)
    (S : list byte) (size : Z) (h : store) :
  (2 <= fuel)%nat ->
  Z.of_nat (length S) < size -> size <= runtime.maxAlloc ->
  exists v this' h',
    peekbuffer.Peek growcap fuel
      (peekbuffer.NewPeekBuffer (bytes.NewReader S)) size h
      = Done (v, None, this', h') /\
    content h' v = S /\ len v = length S /\
    content h' (peekbuffer.buffer this') = S.
Proof.
  intros Hf HL Halloc. destruct (alloc_fits _ Halloc) as [Hfit Hmax].
  set (this := peekbuffer.NewPeekBuffer (bytes.NewReader S)).
  assert (Hs : sound h this) by apply sound_new.
  assert (Hlen : len (peekbuffer.buffer this) = 0%nat) by done.
  assert (Hpend : content h (peekbuffer.buffer this) = []) by done.
  pose proof (roundedNeed_fits (size - 0) ltac:(lia) ltac:(lia)) as [_ Hrn].
  pose proof (roundedNeed_alloc (size - 0) ltac:(lia)) as [[_ Hra] _].
  set (rn := peekbuffer.roundedNeed (size - 0)) in *.
  destruct (bytes_ReadFull fuel (bytes.NewReader S) (Z.to_nat rn) Hf ltac:(lia))
    as (r' & Hpull & _).
  assert (Hrest : bytes.rest (bytes.NewReader S) = S) by done.
  rewrite Hrest in Hpull.
  rewrite take_ge in Hpull by lia.
  assert (Herr : pull_error (Z.of_nat (Z.to_nat rn)) (length S) (length S)
                 = Some io.EOF \/
                 pull_error (Z.of_nat (Z.to_nat rn)) (length S) (length S)
                 = Some io.ErrUnexpectedEOF).
  { unfold pull_error.
    destruct (Z.leb_spec (Z.of_nat (Z.to_nat rn)) (Z.of_nat (length S))); [lia|].
    destruct (length S =? 0)%nat; [by left|by right]. }
  assert (Hsz : 0 <= size <= int.MaxInt) by (unfold int.MaxInt in *; lia).
  assert (exists e, (e = io.EOF \/ e = io.ErrUnexpectedEOF) /\
    io.ReadFull fuel (peekbuffer.reader this)
      (Z.to_nat (peekbuffer.roundedNeed (size - Z.of_nat (len (peekbuffer.buffer this)))))
    = Some (S, Some e, r')) as (e & He & Hpull').
  { rewrite Hlen. change (Z.of_nat 0) with 0. fold rn.
    destruct Herr as [Herr|Herr]; rewrite Herr in Hpull; eauto. }
  destruct (Peek_end_of_stream growcap fuel this size h S e r')
    as (v & this' & h' & Hp & _ & Hc & Hv & Hall); try done.
  - rewrite Hlen. lia.
  - rewrite Hlen. unfold int.MaxInt in *. lia.
  - assert (Hle : Z.of_nat (len (peekbuffer.buffer this) + length S) <= size)
      by (rewrite Hlen; simpl; lia).
    specialize (Hall Hle). rewrite Hpend in *. rewrite app_nil_l in *.
    exists v, this', h'. split_and!; try done.
    eapply Peek_inv in Hp as (_ & _ & _ & _ & Hs' & _ & _ & _ & Hview & _);
      [|done].
    rewrite Hview. simpl.
    pose proof (length_content _ _ (proj1 Hs')) as Hl'.
    rewrite Hc in Hl'. lia.
Qed.

(** C2 (short peek at the end of the stream), amended. On a new PeekBuffer
    over a source of [L] bytes, [Peek(size)] with [L < size] and [size] no
    more than the runtime's limit on allocations returns a view of exactly the
    [L] bytes and a nil error. In any state, when the buffer for the pull is
    one that [make] allocates, a pull that ends with [io.EOF] or
    [io.ErrUnexpectedEOF] is no error of [Peek]: the view shows the bytes
    pending after the pull, up to [size]. *)
Theorem C2_Peek_short_at_end :
  (forall (growcap : nat -> nat -> nat) (fuel : nat) (S : list byte)
          (size : Z) (h : store),
     (2 <= fuel)%nat ->
     Z.of_nat (length S) < size -> size <= runtime.maxAlloc ->
     exists v this' h',
       peekbuffer.Peek growcap fuel
         (peekbuffer.NewPeekBuffer (bytes.NewReader S)) size h
         = Done (v, None, this', h') /\
       content h' v = S /\ len v = length S) /\
  (forall (R : Type) (HR : io.Reader R) (growcap : nat -> nat -> nat)
          (fuel : nat) (this : peekbuffer.PeekBuffer R) (size : Z) (h : store)
          (d : list byte) (e : io.error) (r' : R),
     sound h this ->
     0 <= size <= int.MaxInt ->
     Z.of_nat (len (peekbuffer.buffer this)) < size ->
     peekbuffer.roundedNeed (size - Z.of_nat (len (peekbuffer.buffer this)))
       <= runtime.maxAlloc ->
     io.ReadFull fuel (peekbuffer.reader this)
       (Z.to_nat (peekbuffer.roundedNeed
                    (size - Z.of_nat (len (peekbuffer.buffer this)))))
       = Some (d, Some e, r') ->
     e = io.EOF \/ e = io.ErrUnexpectedEOF ->
     Z.of_nat (len (peekbuffer.buffer this) + length d) <= int.MaxInt ->
     exists v this' h',
       peekbuffer.Peek growcap fuel this size h = Done (v, None, this', h') /\
       content h' v
         = take (Z.to_nat size) (content h (peekbuffer.buffer this) ++ d) /\
       (Z.of_nat (len (peekbuffer.buffer this) + length d) <= size ->
        content h' v = content h (peekbuffer.buffer this) ++ d)).
Proof.
  split.
  - intros growcap fuel S size h Hf HL Hfit.
    destruct (Peek_bytes_beyond growcap fuel S size h Hf HL Hfit)
      as (v & this' & h' & Hp & Hv & Hl & _).
    by exists v, this', h'.
  - intros R HR growcap fuel this size h d e r' Hs Hsz Hshort Halloc Hpull He Hfit.
    destruct (Peek_end_of_stream growcap fuel this size h d e r')
      as (v & this' & h' & Hp & _ & _ & Hv & Hall); try done.
    by exists v, this', h'.
Qed.

Lemma C2_witness :
  (exists v this' h',
     peekbuffer.Peek exact_fit 2
       (peekbuffer.NewPeekBuffer (bytes.NewReader (bytes_of "hello world"))) 15 []
       = Done (v, None, this', h') /\
     content h' v = bytes_of "hello world" /\ len v = 11%nat) /\
  (exists v this' h',
     peekbuffer.Peek exact_fit 1
       (peekbuffer.NewPeekBuffer {| err := Some io.EOF |}) 5 []
       = Done (v, None, this', h') /\
     content h' v = take (Z.to_nat 5) ([] ++ []) /\
     (Z.of_nat (0 + 0) <= 5 -> content h' v = [] ++ [])).
Proof.
  split.
  - apply (proj1 C2_Peek_short_at_end exact_fit 2%nat (bytes_of "hello world") 15 []).
    + lia.
    + vm_compute. reflexivity.
    + vm_compute. discriminate.
  - apply (proj2 C2_Peek_short_at_end ErrorReader _ exact_fit 1%nat
             (peekbuffer.NewPeekBuffer {| err := Some io.EOF |}) 5 []
             [] io.EOF {| err := Some io.EOF |}).
    + apply sound_new.
    + vm_compute. split; discriminate.
    + vm_compute. reflexivity.
    + vm_compute. discriminate.
    + vm_compute. reflexivity.
    + by left.
    + vm_compute. discriminate.
Defined.

(** At [size = MaxInt] the claim as it stands fails: the rounding of the
    shortfall wraps to a negative length and [make] panics. *)
Lemma C2_counterexample :
  Z.of_nat (length (bytes_of "hello")) < int.MaxInt /\
  peekbuffer.Peek exact_fit 2
    (peekbuffer.NewPeekBuffer (bytes.NewReader (bytes_of "hello"))) int.MaxInt []
  = Panics MakesliceLenOutOfRange /\
  ~ (exists v this' h',
       peekbuffer.Peek exact_fit 2
         (peekbuffer.NewPeekBuffer (bytes.NewReader (bytes_of "hello")))
         int.MaxInt []
       = Done (v, None, this', h')).
Proof.
  assert (Hp : peekbuffer.Peek exact_fit 2
    (peekbuffer.NewPeekBuffer (bytes.NewReader (bytes_of "hello"))) int.MaxInt []
    = Panics MakesliceLenOutOfRange) by (vm_compute; reflexivity).
  split; [vm_compute; reflexivity|]. split; [exact Hp|].
  intros (v & this' & h' & Hd). rewrite Hp in Hd. discriminate.
Qed.

(** On a new PeekBuffer over the [ErrorReader] of the tests, [Peek] swallows
    an end of stream: it returns the empty view and no error, and leaves the
    state as it was. *)
Lemma Peek_ErrorReader_end (growcap : nat -> nat -> nat) (fuel : nat)
    (e : io.error) (size : Z) (h : store) :
  (1 <= fuel)%nat -> 0 < size -> size <= runtime.maxAlloc ->
  e = io.EOF \/ e = io.ErrUnexpectedEOF ->
  peekbuffer.Peek growcap fuel
    (peekbuffer.NewPeekBuffer {| err := Some e |}) size h
  = Done (nil_slice, None, peekbuffer.NewPeekBuffer {| err := Some e |}, h).
Proof.
  intros Hf Hpos Halloc He. destruct (alloc_fits _ Halloc) as [Hfit Hmax].
  set (this := peekbuffer.NewPeekBuffer {| err := Some e |}).
  assert (Hs : sound h this) by apply sound_new.
  pose proof (roundedNeed_fits (size - 0) ltac:(lia) ltac:(lia)) as [_ Hrn].
  assert (Hpull : Peek_pull fuel this size = Some ([], Some e, {| err := Some e |})).
  { rewrite Peek_pull_short; [| lia | done | simpl; lia].
    apply ErrorReader_ReadFull; [done|].
    change (Z.of_nat (len (peekbuffer.buffer this))) with 0. lia. }
  assert (Hlim : size - Z.of_nat (len (peekbuffer.buffer this)) <= runtime.maxAlloc)
    by (change (Z.of_nat (len (peekbuffer.buffer this))) with 0; lia).
  destruct (Peek_run growcap fuel this size h _ _ _ Hs ltac:(lia) ltac:(lia) Hlim Hpull)
    as (v & this' & h' & Hp & Hr).
  rewrite surfaced_end in Hp by done. rewrite Hp.
  eapply Peek_inv in Hp as (d1 & e1 & Hpull1 & _ & _ & _ & _ & _ & Hv & _ & Hsame & _);
    [|done].
  rewrite Hpull in Hpull1. injection Hpull1 as <- <- Hr'.
  destruct (Hsame eq_refl) as [Hb ->].
  assert (this' = this) as ->.
  { destruct this' as [r1 b1]. simpl in *. subst. done. }
  rewrite Hv. simpl. rewrite Z.min_r by lia. done.
Qed.

(** The [ErrorReader] of the tests delivers no byte and stays as it is. *)
Lemma ErrorReader_reads (r r' : ErrorReader) (d : list byte) :
  reads r d r' -> d = [] /\ r' = r.
Proof.
  induction 1 as [|r k da e ra db rb Hr _ IH]; [done|].
  injection Hr as <- _ <-. by destruct IH as [-> ->].
Qed.

(** A pull from it that ends gives its error, or none when nothing was asked. *)
Lemma ErrorReader_ReadFull_inv (fuel : nat) (x : io.error) (lenbuf : nat) d e0 r' :
  io.ReadFull fuel {| err := Some x |} lenbuf = Some (d, e0, r') ->
  e0 = None \/ e0 = Some x.
Proof.
  intros Hpull. destruct lenbuf as [|n].
  - rewrite ReadFull_zero in Hpull. injection Hpull as _ <- _. by left.
  - destruct fuel as [|fuel].
    + unfold io.ReadFull, io.ReadAtLeast in Hpull.
      destruct (Z.ltb_spec (Z.of_nat (Datatypes.S n)) (Z.of_nat (Datatypes.S n)));
        [lia|]. done.
    + rewrite ErrorReader_ReadFull in Hpull by lia.
      injection Hpull as _ <- _. by right.
Qed.

(** Whenever a [Peek] on a new PeekBuffer over an [ErrorReader] that fails
    with an end of stream returns, it returns the empty view and no error,
    and leaves the state as it was. *)
Lemma Peek_ErrorReader_returned (growcap : nat -> nat -> nat) (fuel : nat)
    (x : io.error) (size : Z) (h : store) v e this' h' :
  x = io.EOF \/ x = io.ErrUnexpectedEOF ->
  peekbuffer.Peek growcap fuel
    (peekbuffer.NewPeekBuffer {| err := Some x |}) size h
  = Done (v, e, this', h') ->
  v = nil_slice /\ e = None /\
  this' = peekbuffer.NewPeekBuffer {| err := Some x |} /\ h' = h.
Proof.
  intros Hx Hp.
  set (this := peekbuffer.NewPeekBuffer {| err := Some x |}) in *.
  assert (Hs : sound h this) by apply sound_new.
  eapply Peek_inv in Hp
    as (d & e0 & Hpull & Hreads & _ & _ & _ & Hsz & Hv & He & Hsame & _); [|done].
  apply ErrorReader_reads in Hreads as [-> Hr].
  destruct (Hsame eq_refl) as [Hb ->].
  assert (this' = this) as ->.
  { destruct this' as [r1 b1]. simpl in *. by subst. }
  assert (He0 : e0 = None \/ e0 = Some x).
  { unfold Peek_pull in Hpull. destruct (0 <? _).
    - by eapply ErrorReader_ReadFull_inv.
    - injection Hpull as <-. by left. }
  split_and!; try done.
  - rewrite Hv. simpl. by rewrite Z.min_r by lia.
  - rewrite He. destruct He0 as [-> | ->]; [by destruct (peekbuffer.surfaced None)|].
    by rewrite surfaced_end.
Qed.

(** C10 (end of stream is told by the value of the error). An error that
    [Peek] returns is never [io.EOF] nor [io.ErrUnexpectedEOF]; when the error
    of its pull is one of the two, [Peek] returns nil, however the error came
    about; so on a reader that only ever fails with [io.ErrUnexpectedEOF]
    and no bytes, a [Peek] that returns, of whatever size, returns the empty
    view and no error, and it does return for every size from 1 to the
    runtime's limit on allocations. *)
Theorem C10_Peek_classifies_by_value :
  (forall (R : Type) (HR : io.Reader R) (growcap : nat -> nat -> nat)
          (fuel : nat) (this : peekbuffer.PeekBuffer R) (size : Z) (h : store)
          v e this' h',
     peekbuffer.Peek growcap fuel this size h = Done (v, e, this', h') ->
     e <> Some io.EOF /\ e <> Some io.ErrUnexpectedEOF /\
     (forall d e0 r,
        sound h this ->
        Peek_pull fuel this size = Some (d, Some e0, r) ->
        e0 = io.EOF \/ e0 = io.ErrUnexpectedEOF ->
        e = None)) /\
  (forall (growcap : nat -> nat -> nat) (fuel : nat) (size : Z) (h : store)
          v e this' h',
     let this := peekbuffer.NewPeekBuffer {| err := Some io.ErrUnexpectedEOF |} in
     peekbuffer.Peek growcap fuel this size h = Done (v, e, this', h') ->
     e = None /\ content h' v = [] /\ this' = this /\ h' = h) /\
  (forall (growcap : nat -> nat -> nat) (fuel : nat) (size : Z) (h : store),
     (1 <= fuel)%nat -> 0 < size <= runtime.maxAlloc ->
     let this := peekbuffer.NewPeekBuffer {| err := Some io.ErrUnexpectedEOF |} in
     peekbuffer.Peek growcap fuel this size h = Done (nil_slice, None, this, h) /\
     content h nil_slice = []).
Proof.
  split_and!.
  - intros R HR growcap fuel this size h v e this' h' Hp.
    pose proof (Peek_error_surfaced growcap _ _ _ _ _ _ _ _ Hp) as Hsurf.
    split_and!.
    + intros ->. destruct Hsurf as [?|Hs]; [done|]. simpl in Hs. done.
    + intros ->. destruct Hsurf as [?|Hs]; [done|]. simpl in Hs. done.
    + intros d e0 r Hs Hpull He.
      rewrite (Peek_error_of_pull growcap _ _ _ _ _ _ _ _ _ _ _ Hs Hp Hpull).
      by rewrite surfaced_end.
  - intros growcap fuel size h v e this' h' this Hp.
    apply Peek_ErrorReader_returned in Hp as (-> & -> & -> & ->); [done|by right].
  - intros growcap fuel size h Hf [Hpos Halloc] this. split; [|done].
    apply Peek_ErrorReader_end; try done. by right.
Qed.

Lemma C10_witness :
  (Some (io.ErrOther "boom") <> Some io.EOF /\
   Some (io.ErrOther "boom") <> Some io.ErrUnexpectedEOF) /\
  (None = @None io.error /\ content [] nil_slice = []) /\
  peekbuffer.Peek exact_fit 1
    (peekbuffer.NewPeekBuffer {| err := Some io.ErrUnexpectedEOF |}) 5 []
  = Done (nil_slice, None,
          peekbuffer.NewPeekBuffer {| err := Some io.ErrUnexpectedEOF |}, []).
Proof.
  split; [|split].
  - pose proof (proj1 C10_Peek_classifies_by_value ErrorReader ErrorReader_io exact_fit 1%nat
      (peekbuffer.NewPeekBuffer {| err := Some (io.ErrOther "boom") |}) 5 []
      nil_slice (Some (io.ErrOther "boom"))
      (peekbuffer.NewPeekBuffer {| err := Some (io.ErrOther "boom") |}) []
      ltac:(vm_compute; reflexivity)) as (H1 & H2 & _).
    split; assumption.
  - pose proof (proj1 (proj2 C10_Peek_classifies_by_value) exact_fit 1%nat 5 []
      nil_slice None
      (peekbuffer.NewPeekBuffer {| err := Some io.ErrUnexpectedEOF |}) []
      ltac:(vm_compute; reflexivity)) as (H1 & H2 & _).
    split; assumption.
  - apply (proj2 (proj2 C10_Peek_classifies_by_value) exact_fit 1%nat 5 []).
    + lia.
    + vm_compute. split; [reflexivity|discriminate].
Defined.

(** * [PeekByte] and the panics of the peeking methods *)

Section PeekByteFacts.
Context {R : Type} `{io.Reader R}.
Variable growcap : nat -> nat -> nat.

Local Abbreviation PeekBuffer := (peekbuffer.PeekBuffer R).
Local Abbreviation Peek := (peekbuffer.Peek growcap).
Local Abbreviation PeekByte := (peekbuffer.PeekByte growcap).
Local Abbreviation buffer := peekbuffer.buffer.
Local Abbreviation reader := peekbuffer.reader.

(** [PeekByte] by the outcome of its [Peek]. *)
Lemma PeekByte_of_Peek fuel (this : PeekBuffer) offset h :
  PeekByte fuel this offset h =
    match Peek fuel this (int.add offset 1) h with
    | Done (peeked, e, this', h') =>
        if negb (io.is_nil e) then Done (x00, e, this', h')
        else if Z.of_nat (len peeked) <=? offset
             then Done (x00, Some io.EOF, this', h')
             else b ← index h' peeked offset; Done (b, None, this', h')
    | Panics p => Panics p
    | OutOfFuel => OutOfFuel
    end.
Proof.
  unfold peekbuffer.PeekByte.
  destruct (Peek fuel this (int.add offset 1) h) as [[[[peeked e] this'] h']| |];
    reflexivity.
Qed.

(** A negative size, with a shortfall that does not wrap: no pull, and the
    final [this.buffer[:have]] has [have = size < 0]. *)
Lemma Peek_negative fuel (this : PeekBuffer) size h :
  sound h this ->
  int.MinInt <= size - Z.of_nat (len (buffer this)) -> size < 0 ->
  Peek fuel this size h = Panics SliceBoundsOutOfRange.
Proof.
  intros [Hwf Hlen] Hmin Hneg. unfold peekbuffer.Peek.
  assert (Hsub : int.sub size (Z.of_nat (len (buffer this)))
                 = size - Z.of_nat (len (buffer this))).
  { apply wrap_id. unfold int.in_range, int.MaxInt, int.MinInt in *. lia. }
  rewrite Hsub.
  destruct (Z.ltb_spec 0 (size - Z.of_nat (len (buffer this)))) as [?|_]; [lia|].
  rewrite bind_Done_l. cbv zeta.
  destruct (Z.ltb_spec size (Z.of_nat (len (buffer this)))) as [_|?]; [|lia].
  rewrite slice_to_negative by done.
  by destruct (peekbuffer.surfaced None).
Qed.

(** Within the sizes whose rounding does not overflow and whose shortfall
    [make] allocates, [Peek] does not panic. *)
Lemma Peek_no_panic fuel (this : PeekBuffer) size h :
  sound h this -> 0 <= size -> size <= int.MaxInt - 4095 ->
  size - Z.of_nat (len (buffer this)) <= runtime.maxAlloc ->
  is_panic (Peek fuel this size h) = false.
Proof.
  intros Hs Hsz Hfit Halloc.
  destruct (Peek_pull fuel this size) as [[[d e0] r']|] eqn:Hpull.
  - destruct (Peek_run growcap fuel this size h d e0 r' Hs Hsz ltac:(lia) Halloc Hpull)
      as (v & this' & h' & Hp & _).
    by rewrite Hp.
  - by rewrite (Peek_fuel growcap fuel this size h Hs Hsz ltac:(lia) Halloc Hpull).
Qed.

(** A shortfall above the limit of the runtime on allocations: [make] panics
    before the reader is called. *)
Lemma Peek_above_limit fuel (this : PeekBuffer) size h :
  sound h this -> size <= int.MaxInt ->
  runtime.maxAlloc < size - Z.of_nat (len (buffer this)) ->
  Peek fuel this size h = Panics MakesliceLenOutOfRange.
Proof.
  intros [Hwf Hlen] Hmax Hbig. unfold peekbuffer.Peek.
  assert (Hpos : 0 < size - Z.of_nat (len (buffer this)))
    by (unfold runtime.maxAlloc in Hbig; lia).
  rewrite sub_len_fits by lia.
  destruct (Z.ltb_spec 0 (size - Z.of_nat (len (buffer this)))) as [_|?]; [|lia].
  rewrite make_local_panics; [done|].
  apply roundedNeed_beyond. lia.
Qed.

Lemma add_one_fits offset :
  int.MinInt <= offset -> offset < int.MaxInt -> int.add offset 1 = offset + 1.
Proof.
  intros Hlo Hhi. apply wrap_id. unfold int.in_range, int.MinInt, int.MaxInt in *. lia.
Qed.

Lemma PeekByte_no_panic fuel (this : PeekBuffer) offset h :
  sound h this -> 0 <= offset -> offset <= int.MaxInt - 4096 ->
  offset + 1 - Z.of_nat (len (buffer this)) <= runtime.maxAlloc ->
  is_panic (PeekByte fuel this offset h) = false.
Proof.
  intros Hs Hoff Hfit Halloc. rewrite PeekByte_of_Peek.
  rewrite add_one_fits by (unfold int.MinInt, int.MaxInt in *; lia).
  pose proof (Peek_no_panic fuel this (offset + 1) h Hs ltac:(lia) ltac:(lia) Halloc)
    as Hnp.
  destruct (Peek fuel this (offset + 1) h) as [[[[v e] this'] h']| |]; try done.
  destruct (negb (io.is_nil e)); [done|].
  destruct (Z.leb_spec (Z.of_nat (len v)) offset); [done|].
  by rewrite index_done by lia.
Qed.

(** [PeekByte(-1)]: [Peek(0)] returns the empty view and no error, the test
    [offset >= len(peeked)] is false, and [peeked[-1]] panics. *)
Lemma PeekByte_minus_one fuel (this : PeekBuffer) h :
  sound h this ->
  PeekByte fuel this (-1) h = Panics IndexOutOfRange.
Proof.
  intros Hs. rewrite PeekByte_of_Peek.
  rewrite add_one_fits by (unfold int.MinInt, int.MaxInt; lia).
  change (-1 + 1) with 0.
  assert (Hpull : Peek_pull fuel this 0 = Some ([], None, reader this)).
  { apply Peek_pull_enough; [unfold int.MaxInt; lia|apply Hs|lia]. }
  assert (H0 : 0 <= 0) by lia.
  assert (Hfit : 0 + 4095 <= int.MaxInt) by (unfold int.MaxInt; lia).
  assert (Halloc : 0 - Z.of_nat (len (buffer this)) <= runtime.maxAlloc)
    by (unfold runtime.maxAlloc; lia).
  destruct (Peek_run growcap fuel this 0 h _ _ _ Hs H0 Hfit Halloc Hpull)
    as (v & this' & h' & Hp & _).
  rewrite Hp. cbn [peekbuffer.surfaced io.is_nil negb andb].
  destruct (Z.leb_spec (Z.of_nat (len v)) (-1)) as [?|_]; [lia|].
  unfold index. done.
Qed.

Lemma PeekByte_negative fuel (this : PeekBuffer) offset h :
  sound h this ->
  int.MinInt <= offset ->
  int.MinInt <= offset + 1 - Z.of_nat (len (buffer this)) -> offset <= -2 ->
  PeekByte fuel this offset h = Panics SliceBoundsOutOfRange.
Proof.
  intros Hs Hint Hmin Hneg. rewrite PeekByte_of_Peek.
  rewrite add_one_fits by (unfold int.MinInt, int.MaxInt in *; lia).
  by rewrite Peek_negative by (try done; lia).
Qed.

End PeekByteFacts.

(** C9 (panics of the peeking methods), amended. In a sound state: a negative
    size whose shortfall does not wrap makes [Peek] panic at
    [this.buffer[:have]]; [PeekByte(-1)] panics at [peeked[offset]]; an offset
    of -2 or less makes [PeekByte] panic through [Peek]; a size that is not
    negative, no more than [MaxInt - 4095] and no more than the runtime's limit
    on allocations above the number of pending bytes does not make [Peek]
    panic, and an offset with [offset + 1] such a size does not make
    [PeekByte] panic; and a size more than that limit above the number of
    pending bytes makes [Peek] panic in [make], and [PeekByte] for the offset
    one below it. *)
Theorem C9_panics_of_Peek_and_PeekByte :
  forall (R : Type) (HR : io.Reader R) (growcap : nat -> nat -> nat)
         (fuel : nat) (this : peekbuffer.PeekBuffer R) (h : store),
    sound h this ->
    (forall size,
       int.MinInt <= size - Z.of_nat (len (peekbuffer.buffer this)) -> size < 0 ->
       peekbuffer.Peek growcap fuel this size h = Panics SliceBoundsOutOfRange) /\
    peekbuffer.PeekByte growcap fuel this (-1) h = Panics IndexOutOfRange /\
    (forall offset,
       int.MinInt <= offset ->
       int.MinInt <= offset + 1 - Z.of_nat (len (peekbuffer.buffer this)) ->
       offset <= -2 ->
       peekbuffer.PeekByte growcap fuel this offset h
         = Panics SliceBoundsOutOfRange) /\
    (forall size,
       0 <= size -> size <= int.MaxInt - 4095 ->
       size - Z.of_nat (len (peekbuffer.buffer this)) <= runtime.maxAlloc ->
       is_panic (peekbuffer.Peek growcap fuel this size h) = false) /\
    (forall offset,
       0 <= offset -> offset <= int.MaxInt - 4096 ->
       offset + 1 - Z.of_nat (len (peekbuffer.buffer this)) <= runtime.maxAlloc ->
       is_panic (peekbuffer.PeekByte growcap fuel this offset h) = false) /\
    (forall size,
       size <= int.MaxInt ->
       runtime.maxAlloc < size - Z.of_nat (len (peekbuffer.buffer this)) ->
       peekbuffer.Peek growcap fuel this size h = Panics MakesliceLenOutOfRange /\
       peekbuffer.PeekByte growcap fuel this (size - 1) h
         = Panics MakesliceLenOutOfRange).
Proof.
  intros R HR growcap fuel this h Hs. split_and!.
  - intros size Hmin Hneg. by apply Peek_negative.
  - by apply PeekByte_minus_one.
  - intros offset Hint Hmin Hneg. by apply PeekByte_negative.
  - intros size Hsz Hfit Halloc. by apply Peek_no_panic.
  - intros offset Hoff Hfit Halloc. by apply PeekByte_no_panic.
  - intros size Hmax Hbig.
    pose proof (Peek_above_limit growcap fuel this size h Hs Hmax Hbig) as Hp.
    split; [done|]. rewrite PeekByte_of_Peek.
    rewrite add_one_fits
      by (unfold int.MinInt, int.MaxInt, runtime.maxAlloc in *; lia).
    replace (size - 1 + 1) with size by lia. by rewrite Hp.
Qed.

Lemma C9_witness :
  let this := peekbuffer.NewPeekBuffer (bytes.NewReader (bytes_of "hello world")) in
  peekbuffer.Peek exact_fit 2 this (-3) [] = Panics SliceBoundsOutOfRange /\
  peekbuffer.PeekByte exact_fit 2 this (-1) [] = Panics IndexOutOfRange /\
  peekbuffer.PeekByte exact_fit 2 this (-2) [] = Panics SliceBoundsOutOfRange /\
  is_panic (peekbuffer.Peek exact_fit 2 this 5 []) = false /\
  is_panic (peekbuffer.PeekByte exact_fit 2 this 4 []) = false /\
  peekbuffer.Peek exact_fit 2 this (2 ^ 48 + 1) [] = Panics MakesliceLenOutOfRange /\
  peekbuffer.PeekByte exact_fit 2 this (2 ^ 48 + 1 - 1) []
    = Panics MakesliceLenOutOfRange.
Proof.
  intros this.
  destruct (C9_panics_of_Peek_and_PeekByte bytes.Reader _ exact_fit 2%nat this []
              (sound_new _ _))
    as (H1 & H2 & H3 & H4 & H5 & H6).
  split_and!.
  - apply H1; vm_compute; [discriminate|reflexivity].
  - exact H2.
  - apply H3; vm_compute; discriminate.
  - apply H4; vm_compute; discriminate.
  - apply H5; vm_compute; discriminate.
  - apply (H6 (2 ^ 48 + 1)); vm_compute; [discriminate|reflexivity].
  - apply (H6 (2 ^ 48 + 1)); vm_compute; [discriminate|reflexivity].
Defined.

(** The last part of the claim as it stands fails for large arguments:
    [Peek(2^50)] on a new PeekBuffer asks [make] for more than the runtime
    allocates, and panics; [PeekByte(MaxInt)] asks [Peek] for [MaxInt + 1],
    which wraps to [MinInt], and the slicing panics; [Peek(MaxInt)] panics in
    [make]. The first part fails where the shortfall wraps: after [Peek(1)]
    has left one byte pending, [Peek(MinInt)] panics in [make], not at the
    slicing. *)
Lemma C9_counterexample :
  let this := peekbuffer.NewPeekBuffer (bytes.NewReader (bytes_of "a")) in
  (0 <= 2 ^ 50 /\
   is_panic (peekbuffer.Peek exact_fit 2 this (2 ^ 50) []) = true /\
   peekbuffer.Peek exact_fit 2 this (2 ^ 50) [] = Panics MakesliceLenOutOfRange) /\
  (0 <= int.MaxInt /\
   is_panic (peekbuffer.PeekByte exact_fit 2 this int.MaxInt []) = true /\
   peekbuffer.PeekByte exact_fit 2 this int.MaxInt []
     = Panics SliceBoundsOutOfRange /\
   peekbuffer.Peek exact_fit 2 this int.MaxInt []
     = Panics MakesliceLenOutOfRange) /\
  (exists v this1 h1,
     peekbuffer.Peek exact_fit 2 this 1 [] = Done (v, None, this1, h1) /\
     int.MinInt < 0 /\
     peekbuffer.Peek exact_fit 2 this1 int.MinInt h1
       = Panics MakesliceLenOutOfRange).
Proof.
  intros this. split; [|split].
  - split_and!; vm_compute; try reflexivity. discriminate.
  - split_and!; vm_compute; try reflexivity. discriminate.
  - eexists _, _, _. split; [vm_compute; reflexivity|].
    split; vm_compute; reflexivity.
Qed.

(** * The peeking methods on a new PeekBuffer over a [bytes.Reader] *)

Lemma pull_error_not_surfaced (min : Z) (n k : nat) :
  peekbuffer.surfaced (pull_error min n k) = false.
Proof.
  unfold pull_error. destruct (min <=? Z.of_nat k); [done|].
  by destruct (n =? 0)%nat.
Qed.

(** [Peek(size)] shows the first [size] bytes of the source, all of them when
    there are fewer, and returns no error. *)
Lemma Peek_bytes_new (growcap : nat -> nat -> nat) (fuel : nat)
    (S : list byte) (size : Z) (h : store) :
  (2 <= fuel)%nat -> 0 <= size -> size <= runtime.maxAlloc ->
  exists v this' h',
    peekbuffer.Peek growcap fuel
      (peekbuffer.NewPeekBuffer (bytes.NewReader S)) size h
      = Done (v, None, this', h') /\
    content h' v = take (Z.to_nat size) S /\
    len v = Nat.min (Z.to_nat size) (length S).
Proof.
  intros Hf Hsz Halloc. destruct (alloc_fits _ Halloc) as [Hfit Hmax].
  set (this := peekbuffer.NewPeekBuffer (bytes.NewReader S)).
  assert (Hs : sound h this) by apply sound_new.
  assert (Hlen : len (peekbuffer.buffer this) = 0%nat) by done.
  assert (Hpend : content h (peekbuffer.buffer this) = []) by done.
  assert (Hrange : 0 <= size <= int.MaxInt) by (unfold int.MaxInt in *; lia).
  assert (Hpull : exists d e0 r',
    Peek_pull fuel this size = Some (d, e0, r') /\
    peekbuffer.surfaced e0 = false /\
    take (Z.to_nat size) d = take (Z.to_nat size) S /\
    Z.of_nat (length d) <= size + 4095 /\
    (length S <= Z.to_nat size -> length d = length S)%nat /\
    (Z.to_nat size <= length S -> Z.to_nat size <= length d)%nat).
  { destruct (Z.eq_dec size 0) as [->|Hpos].
    - exists [], None, (peekbuffer.reader this).
      split; [apply Peek_pull_enough; [done|apply Hs|rewrite Hlen; simpl; lia]|].
      simpl. split_and!; try done; lia.
    - pose proof (roundedNeed_fits (size - 0) ltac:(lia) ltac:(lia)) as [_ Hrn].
      set (rn := peekbuffer.roundedNeed (size - 0)) in *.
      destruct (bytes_ReadFull fuel (bytes.NewReader S) (Z.to_nat rn) Hf ltac:(lia))
        as (r' & Hrf & _).
      assert (Hrest : bytes.rest (bytes.NewReader S) = S) by done.
      rewrite Hrest in Hrf.
      eexists _, _, r'. split.
      + rewrite Peek_pull_short; [|done|apply Hs|rewrite Hlen; simpl; lia].
        rewrite Hlen. change (Z.of_nat 0) with 0. fold rn. exact Hrf.
      + split; [apply pull_error_not_surfaced|].
        rewrite take_take, length_take. split_and!.
        * f_equal. lia.
        * lia.
        * lia.
        * lia. }
  destruct Hpull as (d & e0 & r' & Hpull & Hsurf & Htake & Hd & HdS & HdL).
  destruct (Peek_spec growcap fuel this size h d e0 r')
    as (v & this' & h' & Hp & _ & _ & _ & _ & Hv & Hl & _); try done.
  - intros Hshort.
    pose proof (roundedNeed_alloc (size - 0)
      ltac:(rewrite Hlen in Hshort; simpl in Hshort; lia)) as [Hrn _].
    rewrite Hlen. change (Z.of_nat 0) with 0. lia.
  - rewrite Hlen. unfold int.MaxInt in *. lia.
  - rewrite Hsurf in Hp. exists v, this', h'.
    rewrite Hpend, app_nil_l in Hv. rewrite Hlen in Hl.
    split_and!; [done|by rewrite Hv|]. lia.
Qed.

(** [PeekByte(offset)] returns the byte of the source at [offset], or
    [io.EOF] when the source ends before. *)
Lemma PeekByte_bytes_new (growcap : nat -> nat -> nat) (fuel : nat)
    (S : list byte) (offset : Z) (h : store) :
  (2 <= fuel)%nat -> 0 <= offset -> offset < runtime.maxAlloc ->
  exists this' h',
    peekbuffer.PeekByte growcap fuel
      (peekbuffer.NewPeekBuffer (bytes.NewReader S)) offset h
      = if offset <? Z.of_nat (length S)
        then Done (nth (Z.to_nat offset) S x00, None, this', h')
        else Done (x00, Some io.EOF, this', h').
Proof.
  intros Hf Hoff Halloc. destruct (alloc_fits (offset + 1) ltac:(lia)) as [Hfit _].
  destruct (Peek_bytes_new growcap fuel S (offset + 1) h Hf ltac:(lia) ltac:(lia))
    as (v & this' & h' & Hp & Hv & Hl).
  exists this', h'. rewrite PeekByte_of_Peek.
  rewrite add_one_fits by (unfold int.MinInt, int.MaxInt in *; lia).
  rewrite Hp. cbn [io.is_nil negb].
  destruct (Z.ltb_spec offset (Z.of_nat (length S))) as [Hin|Hout].
  - destruct (Z.leb_spec (Z.of_nat (len v)) offset) as [?|_]; [lia|].
    rewrite index_done by lia. rewrite bind_Done_l. do 4 f_equal.
    rewrite Hv. rewrite !nth_lookup. rewrite lookup_take_lt by lia. done.
  - destruct (Z.leb_spec (Z.of_nat (len v)) offset) as [_|?]; [done|lia].
Qed.

(** C7 (PeekByte), amended. [PeekByte(offset)] calls [Peek(offset + 1)]: an
    error of [Peek] comes back with the zero byte; with no error and a view
    of fewer than [offset + 1] bytes it reports [io.EOF]; else it returns the
    byte of the view at [offset]. On a new PeekBuffer over a source of [L]
    bytes, for an offset that is not negative and below the runtime's limit
    on allocations: it reports [io.EOF] from [offset = L] on, and returns
    the byte of the source at [offset] below [L], the last byte at [L - 1]. *)
Theorem C7_PeekByte :
  (forall (R : Type) (HR : io.Reader R) (growcap : nat -> nat -> nat)
          (fuel : nat) (this : peekbuffer.PeekBuffer R) (offset : Z) (h : store),
     (0 <= offset -> offset < int.MaxInt -> int.add offset 1 = offset + 1) /\
     (forall p,
        peekbuffer.Peek growcap fuel this (int.add offset 1) h = Panics p ->
        peekbuffer.PeekByte growcap fuel this offset h = Panics p) /\
     (forall v e this' h',
        peekbuffer.Peek growcap fuel this (int.add offset 1) h
          = Done (v, e, this', h') ->
        (e <> None ->
         peekbuffer.PeekByte growcap fuel this offset h
           = Done (x00, e, this', h')) /\
        (e = None -> Z.of_nat (len v) < offset + 1 ->
         peekbuffer.PeekByte growcap fuel this offset h
           = Done (x00, Some io.EOF, this', h')) /\
        (e = None -> 0 <= offset -> offset + 1 <= Z.of_nat (len v) ->
         peekbuffer.PeekByte growcap fuel this offset h
           = Done (nth (Z.to_nat offset) (content h' v) x00, None, this', h')))) /\
  (forall (growcap : nat -> nat -> nat) (fuel : nat) (S : list byte)
          (offset : Z) (h : store),
     (2 <= fuel)%nat -> 0 <= offset -> offset < runtime.maxAlloc ->
     let this := peekbuffer.NewPeekBuffer (bytes.NewReader S) in
     (Z.of_nat (length S) <= offset ->
      exists this' h',
        peekbuffer.PeekByte growcap fuel this offset h
          = Done (x00, Some io.EOF, this', h')) /\
     (offset < Z.of_nat (length S) ->
      exists this' h',
        peekbuffer.PeekByte growcap fuel this offset h
          = Done (nth (Z.to_nat offset) S x00, None, this', h')) /\
     (forall b, offset = Z.of_nat (length S) - 1 -> list.last S = Some b ->
      exists this' h',
        peekbuffer.PeekByte growcap fuel this offset h
          = Done (b, None, this', h'))).
Proof.
  split.
  - intros R HR growcap fuel this offset h. split_and!.
    + intros Hlo Hhi. apply add_one_fits; [unfold int.MinInt; lia|done].
    + intros p Hp. rewrite PeekByte_of_Peek. by rewrite Hp.
    + intros v e this' h' Hp. rewrite PeekByte_of_Peek, Hp. split_and!.
      * intros He. by destruct e.
      * intros -> Hshort. cbn [io.is_nil negb].
        destruct (Z.leb_spec (Z.of_nat (len v)) offset); [done|lia].
      * intros -> Hoff Hin. cbn [io.is_nil negb].
        destruct (Z.leb_spec (Z.of_nat (len v)) offset); [lia|].
        by rewrite index_done by lia.
  - intros growcap fuel S offset h Hf Hoff Hfit this.
    destruct (PeekByte_bytes_new growcap fuel S offset h Hf Hoff Hfit)
      as (this' & h' & Hp).
    fold this in Hp. split_and!.
    + intros Hout. exists this', h'. rewrite Hp.
      destruct (Z.ltb_spec offset (Z.of_nat (length S))); [lia|done].
    + intros Hin. exists this', h'. rewrite Hp.
      destruct (Z.ltb_spec offset (Z.of_nat (length S))); [done|lia].
    + intros b -> Hlast. exists this', h'. rewrite Hp.
      rewrite last_lookup in Hlast.
      assert (length S <> 0%nat) by (destruct S; simpl in *; [done|lia]).
      destruct (Z.ltb_spec (Z.of_nat (length S) - 1) (Z.of_nat (length S))); [|lia].
      do 4 f_equal. rewrite nth_lookup.
      replace (Z.to_nat (Z.of_nat (length S) - 1)) with (pred (length S)) by lia.
      by rewrite Hlast.
Qed.

Lemma C7_witness :
  let this := peekbuffer.NewPeekBuffer (bytes.NewReader (bytes_of "hello world")) in
  (exists this' h',
     peekbuffer.PeekByte exact_fit 2 this 11 [] = Done (x00, Some io.EOF, this', h')) /\
  (exists this' h',
     peekbuffer.PeekByte exact_fit 2 this 4 [] = Done ("o"%byte, None, this', h')) /\
  (exists this' h',
     peekbuffer.PeekByte exact_fit 2 this 10 [] = Done ("d"%byte, None, this', h')) /\
  (exists v this' h',
     peekbuffer.Peek exact_fit 2 this (int.add 11 1) [] = Done (v, None, this', h') /\
     peekbuffer.PeekByte exact_fit 2 this 11 [] = Done (x00, Some io.EOF, this', h')).
Proof.
  intros this.
  pose proof (proj2 C7_PeekByte exact_fit 2%nat (bytes_of "hello world")) as Hb.
  assert (Hfit : forall z, 0 <= z <= 11 -> z < runtime.maxAlloc).
  { intros z Hz. unfold runtime.maxAlloc. lia. }
  split_and!.
  - destruct (Hb 11 [] ltac:(lia) ltac:(lia) ltac:(apply Hfit; lia)) as (H1 & _ & _).
    apply H1. vm_compute. discriminate.
  - destruct (Hb 4 [] ltac:(lia) ltac:(lia) ltac:(apply Hfit; lia)) as (_ & H2 & _).
    apply H2. vm_compute. reflexivity.
  - destruct (Hb 10 [] ltac:(lia) ltac:(lia) ltac:(apply Hfit; lia)) as (_ & _ & H3).
    apply H3; vm_compute; reflexivity.
  - eexists _, _, _. split; [vm_compute; reflexivity|].
    eapply (proj1 C7_PeekByte bytes.Reader bytes.Reader_io exact_fit 2%nat this 11 []).
    + vm_compute. reflexivity.
    + reflexivity.
    + vm_compute. reflexivity.
Defined.

(** Beyond [L] the claim as it stands fails at the top of [int]:
    [PeekByte(MaxInt)] panics. *)
Lemma C7_counterexample :
  let this := peekbuffer.NewPeekBuffer (bytes.NewReader (bytes_of "hello world")) in
  Z.of_nat (length (bytes_of "hello world")) <= int.MaxInt /\
  peekbuffer.PeekByte exact_fit 2 this int.MaxInt []
    = Panics SliceBoundsOutOfRange /\
  ~ (exists b this' h',
       peekbuffer.PeekByte exact_fit 2 this int.MaxInt []
         = Done (b, Some io.EOF, this', h')).
Proof.
  intros this.
  assert (Hp : peekbuffer.PeekByte exact_fit 2 this int.MaxInt []
               = Panics SliceBoundsOutOfRange) by (vm_compute; reflexivity).
  split; [vm_compute; discriminate|]. split; [exact Hp|].
  intros (b & this' & h' & Hd). rewrite Hp in Hd. discriminate.
Qed.

(** * The view of [Peek] shares the storage of the buffer *)

Section Aliasing.
Context {R : Type} `{io.Reader R}.
Variable growcap : nat -> nat -> nat.

Local Abbreviation PeekBuffer := (peekbuffer.PeekBuffer R).
Local Abbreviation Peek := (peekbuffer.Peek growcap).
Local Abbreviation ReadByte := (peekbuffer.ReadByte growcap).
Local Abbreviation buffer := peekbuffer.buffer.
Local Abbreviation reader := peekbuffer.reader.



End Aliasing.



(** * The case analyses at work *)

Lemma C4_witness :
  let h := [bytes_of "abc"; bytes_of "__"] in
  let p := Slice 1 0 2 2 in
  let r := bytes.NewReader (bytes_of "de") in
  (peekbuffer.Read {| peekbuffer.reader := r; peekbuffer.buffer := Slice 0 0 3 3 |} p h
   = Done (2, None,
           {| peekbuffer.reader := r; peekbuffer.buffer := Slice 0 2 1 1 |},
           [bytes_of "abc"; bytes_of "ab"])) /\
  (peekbuffer.Read (peekbuffer.NewPeekBuffer r) p h
   = Done (2, None,
           {| peekbuffer.reader := {| bytes.s := bytes_of "de"; bytes.i := 2 |};
              peekbuffer.buffer := nil_slice |},
           [bytes_of "abc"; bytes_of "de"])).
Proof.
  intros h p r. split.
  - assert (Hwf : wf h (Slice 0 0 3 3)) by (split; vm_compute; lia).
    assert (Hwp : wf h p) by (split; vm_compute; lia).
    destruct (C4_Read_cases
                {| peekbuffer.reader := r; peekbuffer.buffer := Slice 0 0 3 3 |}
                p h Hwf Hwp) as [Hcopy _].
    destruct (Hcopy ltac:(simpl; lia)) as [Hread _]. exact Hread.
  - assert (Hwf : wf h nil_slice) by (split; vm_compute; lia).
    assert (Hwp : wf h p) by (split; vm_compute; lia).
    destruct (C4_Read_cases (peekbuffer.NewPeekBuffer r) p h Hwf Hwp) as [_ Hpull].
    destruct (Hpull eq_refl (bytes_of "de") None
                {| bytes.s := bytes_of "de"; bytes.i := 2 |} eq_refl)
      as [Hread _].
    exact Hread.
Defined.

Lemma C5_witness :
  let h := [bytes_of "abc"] in
  let r := bytes.NewReader (bytes_of "de") in
  (peekbuffer.ReadByte exact_fit 2
     {| peekbuffer.reader := r; peekbuffer.buffer := Slice 0 0 3 3 |} h
   = Done ("a"%byte, None,
           {| peekbuffer.reader := r; peekbuffer.buffer := Slice 0 1 2 2 |}, h)) /\
  (exists this' h',
     peekbuffer.ReadByte exact_fit 2 (peekbuffer.NewPeekBuffer r) h
     = Done ("d"%byte, None, this', h') /\
     content h' (peekbuffer.buffer this') = bytes_of "e") /\
  (peekbuffer.ReadByte exact_fit 2
     (peekbuffer.NewPeekBuffer (bytes.NewReader [])) h
   = Done (x00, Some io.EOF,
           peekbuffer.NewPeekBuffer (bytes.NewReader []), h)).
Proof.
  intros h r. split_and!.
  - assert (Hs : sound h {| peekbuffer.reader := r; peekbuffer.buffer := Slice 0 0 3 3 |}).
    { split; [split; vm_compute; lia|vm_compute; discriminate]. }
    destruct (C5_ReadByte_cases exact_fit 2 _ h Hs) as [Hfront _].
    destruct (Hfront ltac:(simpl; lia)) as [Hrb _]. exact Hrb.
  - destruct (C5_ReadByte_cases exact_fit 2 (peekbuffer.NewPeekBuffer r) h
                (sound_new _ _)) as [_ Hempty].
    destruct (Hempty eq_refl) as (_ & _ & Hpull).
    destruct (Hpull (bytes_of "de") None {| bytes.s := bytes_of "de"; bytes.i := 2 |}
                ltac:(vm_compute; reflexivity)) as (_ & Hsome & _).
    destruct (Hsome ltac:(discriminate)) as (this' & h' & Hrb & _ & Hc & _).
    exists this', h'. split; [exact Hrb|exact Hc].
  - destruct (C5_ReadByte_cases exact_fit 2
                (peekbuffer.NewPeekBuffer (bytes.NewReader [])) h
                (sound_new _ _)) as [_ Hempty].
    destruct (Hempty eq_refl) as (_ & _ & Hpull).
    destruct (Hpull [] (Some io.EOF) (bytes.NewReader [])
                ltac:(vm_compute; reflexivity)) as (_ & _ & Hnone & _).
    destruct (Hnone eq_refl) as [_ Hrb]. exact Hrb.
Defined.

Lemma C6_witness :
  let e := io.ErrOther "connection reset" in
  exists v this' h',
    peekbuffer.Peek exact_fit 1 (peekbuffer.NewPeekBuffer {| err := Some e |}) 5 []
      = Done (v, Some e, this', h') /\
    peekbuffer.reader this' = {| err := Some e |} /\
    content h' (peekbuffer.buffer this') = [] ++ [] /\
    content h' v = take (Z.to_nat 5) ([] ++ []).
Proof.
  intros e.
  apply (C6_Peek_surfaces_error exact_fit 1
           (peekbuffer.NewPeekBuffer {| err := Some e |}) 5 [] [] e {| err := Some e |}).
  - apply sound_new.
  - vm_compute. split; discriminate.
  - vm_compute. reflexivity.
  - vm_compute. discriminate.
  - vm_compute. reflexivity.
  - discriminate.
  - discriminate.
  - vm_compute. discriminate.
Defined.

(** * Sequences of calls deliver the stream in order *)

Section ReadByteFacts.
Context {R : Type} `{io.Reader R}.
Variable growcap : nat -> nat -> nat.

Local Abbreviation PeekBuffer := (peekbuffer.PeekBuffer R).
Local Abbreviation Peek := (peekbuffer.Peek growcap).
Local Abbreviation PeekByte := (peekbuffer.PeekByte growcap).
Local Abbreviation ReadByte := (peekbuffer.ReadByte growcap).
Local Abbreviation buffer := peekbuffer.buffer.
Local Abbreviation reader := peekbuffer.reader.

(** What [ReadByte] has done whenever it returns. *)
Lemma ReadByte_inv fuel (this : PeekBuffer) h b e this' h' :
  sound h this ->
  ReadByte fuel this h = Done (b, e, this', h') ->
  exists d,
    reads (reader this) d (reader this') /\
    sound h' this' /\ shape h h' /\
    content h (buffer this) ++ d
      = (if io.is_nil e then [b] else []) ++ content h' (buffer this') /\
    ((arr (buffer this') = arr (buffer this) /\
      (cap (buffer this') <= cap (buffer this))%nat)
     \/ (length h <= arr (buffer this'))%nat).
Proof.
  intros Hs Hrb. pose proof Hs as [Hwf Hmax].
  pose proof (ReadByte_pending growcap fuel this h Hs) as Hfront.
  pose proof (ReadByte_empty growcap fuel this h Hs) as Hempty.
  destruct (decide (0 < len (buffer this))%nat) as [Hpos|Hz].
  - destruct (Hfront Hpos) as [Heq Hc]. rewrite Heq in Hrb.
    injection Hrb as <- <- <- <-.
    exists []. rewrite app_nil_r. simpl.
    split_and!; [constructor| |apply shape_refl|done|left; split; [done|lia]].
    split; simpl; [|lia]. apply (wf_suffix h (buffer this) 1); [done|lia].
  - assert (Hlen : len (buffer this) = 0%nat) by lia.
    destruct (Hempty Hlen) as (_ & Hfuel & Hpull).
    destruct (io.ReadAtLeast fuel (reader this) fill 1) as [[[d e1] r']|] eqn:Hp.
    + destruct (Hpull d e1 r' eq_refl) as (_ & Hsome & Hnone & _).
      pose proof (ReadAtLeast_spec _ _ _ _ _ _ _ Hp) as (Hreads & _ & _).
      assert (Hnil : content h (buffer this) = []).
      { unfold content. rewrite Hlen. apply take_0. }
      destruct d as [|x d].
      * destruct (Hnone eq_refl) as [He Heq]. rewrite Heq in Hrb.
        injection Hrb as <- <- <- <-.
        exists []. simpl. destruct e1; [|done]. simpl. rewrite app_nil_r.
        split_and!; [done|done|apply shape_refl|done|left; split; [done|lia]].
      * clear Hsome Hnone Hempty Hfront Hfuel Hpull.
        unfold peekbuffer.ReadByte in Hrb.
        destruct (Nat.ltb_spec 0 (len (buffer this))) as [?|_]; [lia|].
        rewrite make_local_ok in Hrb by apply fill_alloc. rewrite bind_Done_l in Hrb.
        fold fill in Hrb. rewrite Hp, pulled_Some, bind_Done_l in Hrb.
        destruct (Z.ltb_spec 0 (Z.of_nat (length (x :: d)))) as [_|Hn];
          [|simpl in Hn; lia].
        apply bind_Done in Hrb as ([s h1] & Happ & Hrb).
        pose proof (append_spec _ _ _ _ _ _ Hwf Happ) as (Hwf' & Hc & Hl & Hmax' & _).
        rewrite index_done in Hrb by (rewrite Hl; simpl; lia).
        rewrite bind_Done_l in Hrb.
        rewrite (slice_from_done _ 1) in Hrb by (rewrite Hl; simpl; lia).
        rewrite bind_Done_l in Hrb. injection Hrb as <- <- <- <-.
        exists (x :: d). simpl.
        split_and!; [done| |by eapply append_shape| |].
        -- split; simpl; [apply (wf_suffix h1 s 1); [done|rewrite Hl; simpl; lia]|lia].
        -- rewrite (content_suffix h1 s 1) by (rewrite Hl; simpl; lia).
           rewrite Hc, Hnil. done.
        -- apply append_arr in Happ as [(Ha & _ & Hcap)|Ha]; [left|by right].
           split; [done|lia].
    + rewrite (Hfuel eq_refl) in Hrb. done.
Qed.

End ReadByteFacts.

Section Sequential.
Context {R : Type} `{Source R}.
Variable growcap : nat -> nat -> nat.

Local Abbreviation PeekBuffer := (peekbuffer.PeekBuffer R).
Local Abbreviation Peek := (peekbuffer.Peek growcap).
Local Abbreviation PeekByte := (peekbuffer.PeekByte growcap).
Local Abbreviation ReadByte := (peekbuffer.ReadByte growcap).
Local Abbreviation buffer := peekbuffer.buffer.
Local Abbreviation reader := peekbuffer.reader.

Lemma consistent_new h0 (r : R) :
  consistent h0 (remaining r) h0 (peekbuffer.NewPeekBuffer r) [].
Proof.
  split_and!; [apply sound_new|apply shape_refl|by left|done].
Qed.

(** A buffer of the caller shares no storage with a buffer that has capacity. *)
Lemma caller_apart h0 h (this : PeekBuffer) p :
  wf h0 p ->
  (cap (buffer this) = 0%nat \/ (length h0 <= arr (buffer this))%nat) ->
  (0 < len (buffer this))%nat -> wf h (buffer this) ->
  arr p <> arr (buffer this) \/ len p = 0%nat.
Proof.
  intros [Hpl Hpc] Hown Hpos [Hl Hc].
  destruct Hown as [?|Hown]; [lia|].
  destruct (decide (arr p < length h0)%nat); [left; lia|right].
  rewrite backing_out in Hpc by lia. simpl in Hpc. lia.
Qed.

Lemma Read_step h0 S h (this : PeekBuffer) out p n e this' h' :
  consistent h0 S h this out -> wf h0 p ->
  peekbuffer.Read this p h = Done (n, e, this', h') ->
  consistent h0 S h' this' (out ++ take (Z.to_nat n) (content h' p)).
Proof.
  intros (Hs & Hsh & Hown & Hout) Hp0 Hread.
  pose proof Hs as [Hwf Hmax].
  assert (Hp : wf h p) by (by eapply shape_wf).
  pose proof (Read_pending this p h Hwf Hp) as Hcopy.
  pose proof (Read_through this p h Hwf Hp) as Hpull.
  destruct (decide (0 < len (buffer this))%nat) as [Hpos|Hz].
  - destruct (Hcopy Hpos) as (Heq & Hcp & Hold & Hnew).
    set (k := Nat.min (len p) (len (buffer this))) in *.
    rewrite Heq in Hread. injection Hread as <- <- <- <-.
    assert (Hk : length (take k (content h (buffer this))) = k).
    { rewrite length_take, length_content by done. unfold k. lia. }
    assert (Hin : (off p + length (take k (content h (buffer this)))
                   <= length (backing h p))%nat).
    { rewrite Hk. destruct Hp. unfold k. lia. }
    assert (Hpend : content (write h p (take k (content h (buffer this))))
                      (Slice (arr (buffer this)) (off (buffer this) + k)
                         (len (buffer this) - k) (cap (buffer this) - k))
                    = drop k (content h (buffer this))).
    { destruct (caller_apart h0 h this p Hp0 Hown Hpos Hwf) as [Hne|Hp0len].
      - by apply Hnew.
      - assert (k = 0%nat) as Hk0 by (unfold k; lia).
        rewrite Hk0 in *. rewrite take_0, write_nil. exact Hold. }
    unfold consistent, stream. simpl. rewrite Nat2Z.id.
    split_and!.
    + split; simpl; [|lia]. apply wf_write; [done|].
      apply wf_suffix; [done|unfold k; lia].
    + eapply shape_trans; [done|]. by apply shape_write.
    + destruct Hown as [?|?]; [left; lia|by right].
    + rewrite Hpend, Hcp. rewrite take_app_length' by (symmetry; exact Hk).
      rewrite <- Hout. unfold stream.
      rewrite <- !app_assoc. f_equal. rewrite app_assoc. by rewrite take_drop.
  - assert (Hlen : len (buffer this) = 0%nat) by lia.
    destruct (io.Read (reader this) (len p)) as [[d e1] r'] eqn:Hr.
    destruct (Hpull Hlen d e1 r' eq_refl) as [Heq Hcp].
    rewrite Heq in Hread. injection Hread as <- <- <- <-.
    pose proof (io.Read_len (reader this) (len p)) as Hd. rewrite Hr in Hd.
    simpl in Hd.
    assert (Hin : (off p + length d <= length (backing h p))%nat)
      by (destruct Hp; lia).
    assert (Hnil : forall h1, content h1 (buffer this) = []).
    { intros h1. unfold content. rewrite Hlen. apply take_0. }
    pose proof (Read_remaining (reader this) (len p)) as Hrem.
    rewrite Hr in Hrem. simpl in Hrem.
    unfold consistent, stream. simpl. rewrite Nat2Z.id.
    split_and!.
    + split; simpl; [|done]. by apply wf_write.
    + eapply shape_trans; [done|]. by apply shape_write.
    + done.
    + rewrite Hcp, take_app_length, Hnil. rewrite <- Hout. unfold stream.
      rewrite Hnil, Hrem. simpl. by rewrite <- app_assoc.
Qed.

Lemma own_storage (h0 h : store) (b b' : slice) :
  shape h0 h ->
  (cap b = 0%nat \/ (length h0 <= arr b)%nat) ->
  (arr b' = arr b /\ (cap b' <= cap b)%nat) \/ (length h <= arr b')%nat ->
  cap b' = 0%nat \/ (length h0 <= arr b')%nat.
Proof.
  intros [Hlen _] Hown [[Ha Hc]|Hnew].
  - destruct Hown as [?|?]; [left; lia|right; lia].
  - right. lia.
Qed.

Lemma ReadByte_step fuel h0 S h (this : PeekBuffer) out b e this' h' :
  consistent h0 S h this out ->
  ReadByte fuel this h = Done (b, e, this', h') ->
  consistent h0 S h' this' (if io.is_nil e then out ++ [b] else out).
Proof.
  intros (Hs & Hsh & Hown & Hout) Hrb.
  destruct (ReadByte_inv growcap fuel this h b e this' h' Hs Hrb)
    as (d & Hreads & Hs' & Hsh' & Hc & Harr).
  split_and!; [done|by eapply shape_trans|by eapply own_storage|].
  rewrite <- Hout. unfold stream.
  rewrite (reads_remaining _ _ _ Hreads).
  rewrite (app_assoc (content h (buffer this))), Hc.
  destruct (io.is_nil e); simpl; by rewrite <- ?app_assoc.
Qed.

Lemma Peek_step fuel h0 S h (this : PeekBuffer) out size v e this' h' :
  consistent h0 S h this out ->
  Peek fuel this size h = Done (v, e, this', h') ->
  consistent h0 S h' this' out.
Proof.
  intros (Hs & Hsh & Hown & Hout) Hp.
  eapply Peek_inv in Hp
    as (d & e0 & _ & Hreads & Hs' & Hsh' & Hc & _ & _ & _ & _ & Harr); [|done].
  split_and!; [done|by eapply shape_trans| |].
  - eapply own_storage; [done|done|].
    destruct Harr as [(Ha & _ & Hcap)|?]; [left; split; [done|lia]|by right].
  - rewrite <- Hout. unfold stream.
    rewrite (reads_remaining _ _ _ Hreads), Hc. by rewrite <- app_assoc.
Qed.

Lemma PeekByte_step fuel h0 S h (this : PeekBuffer) out offset b e this' h' :
  consistent h0 S h this out ->
  PeekByte fuel this offset h = Done (b, e, this', h') ->
  consistent h0 S h' this' out.
Proof.
  intros Hc Hpb. rewrite PeekByte_of_Peek in Hpb.
  destruct (Peek fuel this (int.add offset 1) h)
    as [[[[v e0] this1] h1]| |] eqn:Hp; [|done|done].
  assert (this' = this1 /\ h' = h1) as [-> ->].
  { destruct (negb (io.is_nil e0)); [by injection Hpb as _ _ <- <-|].
    destruct (Z.of_nat (len v) <=? offset); [by injection Hpb as _ _ <- <-|].
    apply bind_Done in Hpb as (x & _ & Hd). by injection Hd as _ _ <- <-. }
  by eapply Peek_step.
Qed.

(** The invariant holds along every run that returns. *)
Lemma run_consistent fuel h0 S calls : forall h (this : PeekBuffer) out out' this' h',
  consistent h0 S h this out ->
  Forall (wf h0) (read_buffers calls) ->
  run growcap fuel calls this h out = Done (out', this', h') ->
  consistent h0 S h' this' out'.
Proof.
  induction calls as [|c calls IH]; intros h this out out' this' h' Hc Hbuf Hrun.
  - cbn [run] in Hrun. by injection Hrun as <- <- <-.
  - destruct c as [p| |size|offset]; cbn [run read_buffers] in Hrun, Hbuf;
      apply bind_Done in Hrun as ([[[x e] this1] h1] & Hcall & Hrun).
    + inversion Hbuf as [|? ? Hp Hbuf']; subst.
      eapply IH; [|done|done]. by eapply Read_step.
    + eapply IH; [|done|done]. by eapply ReadByte_step.
    + eapply IH; [|done|done]. by eapply Peek_step.
    + eapply IH; [|done|done]. by eapply PeekByte_step.
Qed.

(** C1 (sequential equivalence), amended. On a new PeekBuffer over a source
    of content [S], take any sequence of [Read], [ReadByte], [Peek] and
    [PeekByte] calls that returns, in which every buffer given to [Read] is a
    slice of an array that exists before the first call: storage of the
    caller, which shares no array with a view that [Peek] returned. The bytes
    that the consuming calls returned, followed by the bytes still pending and
    by what the source has left, are [S]; so when those calls returned
    [len(S)] bytes in all, the bytes are [S], however the calls were cut. *)
Theorem C1_sequential_equivalence fuel (r : R) (h0 : store) (calls : list call)
    out (this' : PeekBuffer) h' :
  Forall (wf h0) (read_buffers calls) ->
  run growcap fuel calls (peekbuffer.NewPeekBuffer r) h0 [] = Done (out, this', h') ->
  out ++ content h' (buffer this') ++ remaining (reader this') = remaining r /\
  (length out = length (remaining r) -> out = remaining r).
Proof.
  intros Hbuf Hrun.
  pose proof (run_consistent fuel h0 (remaining r) calls _ _ _ _ _ _
                (consistent_new h0 r) Hbuf Hrun) as (_ & _ & _ & Hout).
  unfold stream in Hout. split; [done|].
  intros Hlen. rewrite <- Hout in Hlen. rewrite length_app in Hlen.
  assert (Hnil : content h' (buffer this') ++ remaining (reader this') = []).
  { apply length_zero_iff_nil. lia. }
  rewrite Hnil, app_nil_r in Hout. done.
Qed.

End Sequential.

(** The test [TestPeekBuffer_PeekThenRead], with single-byte calls added, on
    two buffers of the caller. *)
Lemma C1_witness :
  let S := bytes_of "hello world" in
  let h0 := [replicate 6 x00; replicate 16 x00] in
  let calls := [CallPeek 5; CallRead (Slice 0 0 6 6); CallPeekByte 1;
                CallReadByte; CallPeek 2; CallRead (Slice 1 0 16 16)] in
  exists this' h',
    run exact_fit 2 calls (peekbuffer.NewPeekBuffer (bytes.NewReader S)) h0 []
      = Done (S, this', h') /\
    S = remaining (bytes.NewReader S).
Proof.
  intros S h0 calls.
  assert (Hrun : exists this' h',
    run exact_fit 2 calls (peekbuffer.NewPeekBuffer (bytes.NewReader S)) h0 []
      = Done (S, this', h')).
  { eexists _, _. vm_compute. reflexivity. }
  destruct Hrun as (this' & h' & Hrun).
  exists this', h'. split; [exact Hrun|].
  assert (Hbuf : Forall (wf h0) (read_buffers calls)).
  { repeat constructor; vm_compute; lia. }
  destruct (C1_sequential_equivalence exact_fit 2 (bytes.NewReader S) h0 calls
              S this' h' Hbuf Hrun) as [_ Hall].
  apply Hall. reflexivity.
Defined.

(** With a [Read] into the view of a [Peek] the claim as it stands fails: over
    the source [0123456789], after [v = Peek(5)], [Read(v[2:5])] copies the
    pending [012] over the pending [234], and a [Read] into a buffer of the
    caller takes the rest: the two [Read]s return [len(S)] bytes, but
    [0121256789]. *)
Lemma C1_counterexample :
  let S := bytes_of "0123456789" in
  let h0 := [replicate 16 x00] in
  let this := peekbuffer.NewPeekBuffer (bytes.NewReader S) in
  exists v this1 h1 p this' h',
    peekbuffer.Peek exact_fit 2 this 5 h0 = Done (v, None, this1, h1) /\
    (v2 ← slice_from v 2; slice_to v2 3) = Done p /\
    run exact_fit 2 [CallPeek 5; CallRead p; CallRead (Slice 0 0 16 16)] this h0 []
      = Done (bytes_of "0121256789", this', h') /\
    length (bytes_of "0121256789") = length S /\
    bytes_of "0121256789" <> S.
Proof.
  intros S h0 this. eexists _, _, _, _, _, _.
  split; [vm_compute; reflexivity|].
  split; [vm_compute; reflexivity|].
  split; [vm_compute; reflexivity|].
  split; [reflexivity|]. vm_compute. discriminate.
Qed.

(** ** Runs on a [bytes.Reader] end *)

Lemma bind_OutOfFuel {A B : Type} (m : outcome A) (k : A -> outcome B) :
  m ≫= k = OutOfFuel -> m = OutOfFuel \/ exists a, m = Done a /\ k a = OutOfFuel.
Proof. destruct m as [a| |]; simpl; [|done|]; eauto. Qed.

Section EnoughFuel.
Context {R : Type} `{io.Reader R}.
Variable growcap : nat -> nat -> nat.

Lemma append_fuel h s d : append growcap h s d <> OutOfFuel.
Proof. unfold append. destruct (_ <? _); [done|]. by destruct (_ <=? _)%nat. Qed.

Lemma slice_to_fuel s hi : slice_to s hi <> OutOfFuel.
Proof. unfold slice_to. by destruct (_ || _). Qed.

Lemma make_local_fuel k : peekbuffer.make_local k <> OutOfFuel.
Proof. unfold peekbuffer.make_local. by destruct (_ || _). Qed.

(** [Peek] runs out of fuel only in its pull. *)
Lemma Peek_enough_fuel fuel (this : peekbuffer.PeekBuffer R) size h :
  (forall lenbuf, io.ReadFull fuel (peekbuffer.reader this) lenbuf <> None) ->
  peekbuffer.Peek growcap fuel this size h <> OutOfFuel.
Proof.
  intros Hpull Hp. unfold peekbuffer.Peek in Hp.
  apply bind_OutOfFuel in Hp as [Hfill|([[e0 this1] h1] & _ & Hfin)].
  - destruct (0 <? _); [|done].
    apply bind_OutOfFuel in Hfill as [Hm|(lenbuf & _ & Hfill)];
      [by apply make_local_fuel in Hm|].
    apply bind_OutOfFuel in Hfill as [Hm|([[d e0] r'] & _ & Hfill)].
    + specialize (Hpull lenbuf).
      by destruct (io.ReadFull fuel (peekbuffer.reader this) lenbuf).
    + destruct (0 <? _); [|done].
      apply bind_OutOfFuel in Hfill as [Hm|([b h1] & _ & Hfill)];
        [by apply append_fuel in Hm|done].
  - cbv zeta in Hfin.
    destruct (peekbuffer.surfaced e0);
      apply bind_OutOfFuel in Hfin as [Hm|(v & _ & Hfin)];
      solve [by apply slice_to_fuel in Hm | done].
Qed.

Lemma PeekByte_enough_fuel fuel (this : peekbuffer.PeekBuffer R) offset h :
  (forall lenbuf, io.ReadFull fuel (peekbuffer.reader this) lenbuf <> None) ->
  peekbuffer.PeekByte growcap fuel this offset h <> OutOfFuel.
Proof.
  intros Hpull. rewrite PeekByte_of_Peek.
  pose proof (Peek_enough_fuel fuel this (int.add offset 1) h Hpull) as Hp.
  destruct (peekbuffer.Peek growcap fuel this (int.add offset 1) h)
    as [[[[v e] this'] h']| |]; [|done|done].
  destruct (negb (io.is_nil e)); [done|].
  destruct (_ <=? _); [done|].
  unfold index. by destruct (_ || _).
Qed.

Lemma ReadByte_enough_fuel fuel (this : peekbuffer.PeekBuffer R) h :
  io.ReadAtLeast fuel (peekbuffer.reader this) fill 1 <> None ->
  peekbuffer.ReadByte growcap fuel this h <> OutOfFuel.
Proof.
  intros Hpull Hrb. unfold peekbuffer.ReadByte in Hrb.
  destruct (0 <? len (peekbuffer.buffer this))%nat.
  - apply bind_OutOfFuel in Hrb as [Hm|(b & _ & Hrb)].
    + unfold index in Hm. by destruct (_ || _).
    + apply bind_OutOfFuel in Hrb as [Hm|(s & _ & Hrb)]; [|done].
      unfold slice_from in Hm. by destruct (_ || _).
  - apply bind_OutOfFuel in Hrb as [Hm|(lenbuf & Hmk & Hrb)];
      [by apply make_local_fuel in Hm|].
    apply make_local_Done in Hmk as [_ ->]. fold fill in Hrb.
    apply bind_OutOfFuel in Hrb as [Hm|([[d e0] r'] & _ & Hrb)].
    + by destruct (io.ReadAtLeast fuel (peekbuffer.reader this) fill 1).
    + destruct (0 <? _); [|done].
      apply bind_OutOfFuel in Hrb as [Hm|([s h1] & _ & Hrb)];
        [by apply append_fuel in Hm|].
      apply bind_OutOfFuel in Hrb as [Hm|(b & _ & Hrb)].
      * unfold index in Hm. by destruct (_ || _).
      * apply bind_OutOfFuel in Hrb as [Hm|(s' & _ & Hrb)]; [|done].
        unfold slice_from in Hm. by destruct (_ || _).
Qed.

End EnoughFuel.

Lemma bytes_pull_returns (fuel : nat) (r : bytes.Reader) (lenbuf : nat) (min : Z) :
  (2 <= fuel)%nat -> 0 <= min <= Z.of_nat lenbuf ->
  io.ReadAtLeast fuel r lenbuf min <> None.
Proof.
  intros Hf Hmin. destruct (Z.eq_dec min 0) as [->|Hpos].
  - unfold io.ReadAtLeast.
    destruct (Z.ltb_spec (Z.of_nat lenbuf) 0); [done|].
    by destruct fuel.
  - destruct (bytes_ReadAtLeast fuel r lenbuf min Hf ltac:(lia)) as (r' & Hp & _).
    by rewrite Hp.
Qed.

(** Two units of fuel are enough for any sequence of calls on a PeekBuffer
    over a [bytes.Reader]: the run returns or panics. *)
Lemma run_bytes_returns (growcap : nat -> nat -> nat) (fuel : nat)
    (calls : list call) :
  (2 <= fuel)%nat ->
  forall (this : peekbuffer.PeekBuffer bytes.Reader) h out,
    run growcap fuel calls this h out <> OutOfFuel.
Proof.
  intros Hf. induction calls as [|c calls IH]; intros this h out Hrun.
  - done.
  - destruct c as [p| |size|offset]; cbn [run] in Hrun;
      apply bind_OutOfFuel in Hrun as [Hm|([[[x e] this1] h1] & _ & Hrun)];
      try (by apply IH in Hrun).
    + unfold peekbuffer.Read in Hm.
      destruct (0 <? _)%nat.
      * destruct (copy _ _ _) as [n h1].
        apply bind_OutOfFuel in Hm as [Hm|(b & _ & Hm)]; [|done].
        unfold slice_from in Hm. by destruct (_ || _).
      * by destruct (io.Read _ _) as [[d e] r'].
    + eapply ReadByte_enough_fuel in Hm; [done|].
      apply bytes_pull_returns; [done|].
      unfold fill, peekbuffer.FillPeekBufferSize. lia.
    + eapply Peek_enough_fuel in Hm; [done|].
      intros lenbuf. apply bytes_pull_returns; [done|lia].
    + eapply PeekByte_enough_fuel in Hm; [done|].
      intros lenbuf. apply bytes_pull_returns; [done|lia].
Qed.

(** * [Peek] does not advance *)

(** Two lists that both start a third agree as far as both go. *)
Lemma prefixes_agree (l a x b y : list byte) (k : nat) :
  l = a ++ x -> l = b ++ y -> (k <= length a)%nat -> (k <= length b)%nat ->
  take k a = take k b.
Proof.
  intros Ha Hb Hka Hkb.
  rewrite <- (take_app_le a x k Hka), <- (take_app_le b y k Hkb). congruence.
Qed.

Section PeeksFacts.
Context {R : Type} `{io.Reader R}.
Variable growcap : nat -> nat -> nat.

Local Abbreviation PeekBuffer := (peekbuffer.PeekBuffer R).
Local Abbreviation Peek := (peekbuffer.Peek growcap).
Local Abbreviation buffer := peekbuffer.buffer.
Local Abbreviation reader := peekbuffer.reader.

(** A view is the start of the pending bytes, and [Peek] only adds to them. *)
Lemma Peek_grows fuel (this : PeekBuffer) size h v e this' h' :
  sound h this ->
  Peek fuel this size h = Done (v, e, this', h') ->
  sound h' this' /\ shape h h' /\
  (exists d, reads (reader this) d (reader this') /\
             content h' (buffer this') = content h (buffer this) ++ d) /\
  0 <= size /\
  content h' v = take (Z.to_nat size) (content h' (buffer this')) /\
  length (content h' v) = Nat.min (Z.to_nat size) (len (buffer this')).
Proof.
  intros Hs Hp.
  eapply Peek_inv in Hp
    as (d & _ & _ & Hreads & Hs' & Hsh & Hc & Hsz & Hv & _); [|done].
  pose proof (Peek_view_content _ _ _ _ _ Hs' Hsz eq_refl Hv) as [Hvc Hvl].
  rewrite length_content in Hvl by apply Hs'.
  split_and!; [done|done|by exists d|done|done|].
  rewrite Hvc, length_take, length_content by apply Hs'. done.
Qed.

(** Through a run of [Peek]s the pending bytes only grow, by what was pulled
    from the reader, and each view is a start of the final pending bytes, as
    long as its size or as the pending bytes were at its time. *)
Lemma peeks_inv fuel (sizes : list Z) :
  forall (this : PeekBuffer) h views this' h',
  sound h this ->
  peeks growcap fuel sizes this h = Done (views, this', h') ->
  sound h' this' /\ shape h h' /\
  (exists d, reads (reader this) d (reader this') /\
             content h' (buffer this') = content h (buffer this) ++ d) /\
  length views = length sizes /\
  (forall (i : nat) a x, sizes !! i = Some a -> views !! i = Some x ->
     0 <= a /\ x = take (length x) (content h' (buffer this')) /\
     exists L : nat, length x = Nat.min (Z.to_nat a) L /\
                     (len (buffer this) <= L)%nat) /\
  (forall (i j : nat) a b x y, (i <= j)%nat ->
     sizes !! i = Some a -> sizes !! j = Some b ->
     views !! i = Some x -> views !! j = Some y ->
     a <= b -> (length x <= length y)%nat).
Proof.
  induction sizes as [|size sizes' IH]; intros this h views this' h' Hs Hrun.
  - injection Hrun as <- <- <-.
    split_and!; [done|apply shape_refl| |done| |].
    + exists []. split; [constructor|by rewrite app_nil_r].
    + intros i a x Hi. by rewrite lookup_nil in Hi.
    + intros i j a b x y _ Hi. by rewrite lookup_nil in Hi.
  - cbn [peeks] in Hrun.
    apply bind_Done in Hrun as ([[[v e] this1] h1] & Hpeek & Hrun).
    apply bind_Done in Hrun as ([[views' this2] h2] & Hrest & Hret).
    injection Hret as <- <- <-.
    destruct (Peek_grows _ _ _ _ _ _ _ _ Hs Hpeek)
      as (Hs1 & Hsh1 & (d1 & Hr1 & Hc1) & Hsz & Hv & Hvl).
    destruct (IH _ _ _ _ _ Hs1 Hrest)
      as (Hs2 & Hsh2 & (d2 & Hr2 & Hc2) & Hlen & Hviews & Hmono).
    pose proof (length_content _ _ (proj1 Hs)) as Hl0.
    pose proof (length_content _ _ (proj1 Hs1)) as Hl1.
    assert (Hgrow : (len (buffer this) <= len (buffer this1))%nat).
    { rewrite <- Hl0, <- Hl1, Hc1, length_app. lia. }
    assert (Hhead : 0 <= size /\
              content h1 v = take (length (content h1 v)) (content h2 (buffer this2)) /\
              exists L : nat, length (content h1 v) = Nat.min (Z.to_nat size) L /\
                              (len (buffer this) <= L)%nat).
    { split_and!; [done| |by exists (len (buffer this1))].
      rewrite Hc2, take_app_le by (rewrite Hvl, Hl1; lia).
      rewrite Hvl. rewrite Hv at 1.
      rewrite <- (take_take _ (Z.to_nat size) (len (buffer this1))).
      rewrite (take_ge _ (len (buffer this1))) by (rewrite Hl1; lia). done. }
    split_and!.
    + done.
    + by eapply shape_trans.
    + exists (d1 ++ d2). split; [by eapply reads_trans|].
      by rewrite Hc2, Hc1, app_assoc.
    + simpl. by rewrite Hlen.
    + intros [|i] a x Hi Hx; simpl in Hi, Hx.
      * injection Hi as <-. injection Hx as <-. exact Hhead.
      * destruct (Hviews i a x Hi Hx) as (Ha & Hpre & L & HL & HLge).
        split_and!; [done|done|]. exists L. split; [done|lia].
    + intros [|i] [|j] a b x y Hij Hi Hj Hx Hy Hab; simpl in Hi, Hj, Hx, Hy.
      * injection Hi as <-. injection Hj as <-.
        injection Hx as <-. injection Hy as <-. done.
      * injection Hi as <-. injection Hx as <-.
        destruct (Hviews j b y Hj Hy) as (_ & _ & L & HL & HLge).
        rewrite Hvl, HL. lia.
      * lia.
      * eapply (Hmono i j); [lia|done..].
Qed.

End PeeksFacts.

Section ReadAfterPeeks.
Context {R : Type} `{Source R}.
Variable growcap : nat -> nat -> nat.

Local Abbreviation PeekBuffer := (peekbuffer.PeekBuffer R).
Local Abbreviation buffer := peekbuffer.buffer.
Local Abbreviation reader := peekbuffer.reader.

(** What [Read] leaves in the caller's buffer is as long as the buffer. *)
Lemma Read_keeps_length h (this : PeekBuffer) p n e this' h' :
  sound h this -> wf h p ->
  peekbuffer.Read this p h = Done (n, e, this', h') ->
  length (content h' p) = len p.
Proof.
  intros [Hwf _] Hp Hread.
  pose proof (Read_pending this p h Hwf Hp) as Hcopy.
  pose proof (Read_through this p h Hwf Hp) as Hpull.
  destruct (decide (0 < len (buffer this))%nat) as [Hpos|Hz].
  - destruct (Hcopy Hpos) as (Heq & _). rewrite Heq in Hread.
    injection Hread as _ _ _ <-. apply length_content, wf_write; [|done].
    rewrite length_take, length_content by done. destruct Hp. lia.
  - destruct (io.Read (reader this) (len p)) as [[d0 ex] r'] eqn:Hr.
    destruct (Hpull ltac:(lia) d0 ex r' eq_refl) as [Heq _].
    rewrite Heq in Hread. injection Hread as _ _ _ <-.
    pose proof (io.Read_len (reader this) (len p)) as Hd. rewrite Hr in Hd.
    simpl in Hd. apply length_content, wf_write; [|done]. destruct Hp. lia.
Qed.

(** The bytes of a [Read] are the first of the stream. *)
Lemma Read_from_stream h (this : PeekBuffer) p n e this' h' :
  sound h this -> wf h p ->
  peekbuffer.Read this p h = Done (n, e, this', h') ->
  (Z.to_nat n <= len p)%nat /\
  exists rest, stream h this = take (Z.to_nat n) (content h' p) ++ rest.
Proof.
  intros [Hwf _] Hp Hread.
  pose proof (Read_pending this p h Hwf Hp) as Hcopy.
  pose proof (Read_through this p h Hwf Hp) as Hpull.
  destruct (decide (0 < len (buffer this))%nat) as [Hpos|Hz].
  - destruct (Hcopy Hpos) as (Heq & Hcp & _).
    set (k := Nat.min (len p) (len (buffer this))) in *.
    rewrite Heq in Hread. injection Hread as <- <- <- <-.
    rewrite Nat2Z.id. split; [unfold k; lia|].
    assert (Hk : length (take k (content h (buffer this))) = k).
    { rewrite length_take, length_content by done. unfold k. lia. }
    rewrite Hcp, take_app_length' by (symmetry; exact Hk).
    exists (drop k (content h (buffer this)) ++ remaining (reader this)).
    unfold stream. by rewrite app_assoc, take_drop.
  - destruct (io.Read (reader this) (len p)) as [[d e1] r'] eqn:Hr.
    destruct (Hpull ltac:(lia) d e1 r' eq_refl) as [Heq Hcp].
    rewrite Heq in Hread. injection Hread as <- <- <- <-.
    pose proof (io.Read_len (reader this) (len p)) as Hd. rewrite Hr in Hd.
    simpl in Hd. rewrite Nat2Z.id. split; [done|].
    rewrite Hcp, take_app_length.
    pose proof (Read_remaining (reader this) (len p)) as Hrem.
    rewrite Hr in Hrem. simpl in Hrem.
    exists (remaining r'). unfold stream.
    assert (content h (buffer this) = []) as ->.
    { unfold content. replace (len (buffer this)) with 0%nat by lia. apply take_0. }
    done.
Qed.

(** C3 (Peek non-advancement and monotonic growth), amended: through any run
    of [Peek]s with nothing consumed in between, on a source of fixed
    content, the pending bytes are never shortened; any two views agree on
    their common length; a view is the start of every later view of no
    smaller size, and equal to its first [a] bytes when it has [a] bytes; the
    stream (pending bytes, then what the source still holds) is the same
    after the run as before it; a [Read] after the run and the same [Read]
    in place of the run return bytes that agree on their common length, and
    the same count, error and bytes when the pending bytes before the run
    were enough for the caller's buffer. The count itself is not preserved
    otherwise. *)
Theorem C3_Peek_does_not_advance fuel (this : PeekBuffer) (sizes : list Z) h
    views this1 h1 p n0 e0 thisA hA n1 e1 thisB hB :
  sound h this -> wf h p ->
  peeks growcap fuel sizes this h = Done (views, this1, h1) ->
  peekbuffer.Read this p h = Done (n0, e0, thisA, hA) ->
  peekbuffer.Read this1 p h1 = Done (n1, e1, thisB, hB) ->
  (exists d, content h1 (buffer this1) = content h (buffer this) ++ d) /\
  (forall (i j : nat) x y, views !! i = Some x -> views !! j = Some y ->
     let k := Nat.min (length x) (length y) in take k x = take k y) /\
  (forall (i j : nat) a b x y, (i <= j)%nat ->
     sizes !! i = Some a -> sizes !! j = Some b ->
     views !! i = Some x -> views !! j = Some y -> a <= b ->
     x = take (length x) y /\
     (length x = Z.to_nat a -> take (Z.to_nat a) y = x)) /\
  stream h1 this1 = stream h this /\
  (let k := Nat.min (Z.to_nat n0) (Z.to_nat n1) in
   take k (content hA p) = take k (content hB p)) /\
  ((0 < len p <= len (buffer this))%nat ->
   n1 = n0 /\ e1 = e0 /\
   take (Z.to_nat n1) (content hB p) = take (Z.to_nat n0) (content hA p)).
Proof.
  intros Hs Hp Hrun HreadA HreadB.
  destruct (peeks_inv growcap _ _ _ _ _ _ _ Hs Hrun)
    as (Hs1 & Hsh & (d & Hreads & Hc) & Hlen & Hviews & Hmono).
  assert (Hp1 : wf h1 p) by (by eapply shape_wf).
  assert (Hstream : stream h1 this1 = stream h this).
  { unfold stream. rewrite Hc, (reads_remaining _ _ _ Hreads).
    by rewrite <- app_assoc. }
  destruct (Read_from_stream _ _ _ _ _ _ _ Hs Hp HreadA) as (HnA & restA & HA).
  destruct (Read_from_stream _ _ _ _ _ _ _ Hs1 Hp1 HreadB) as (HnB & restB & HB).
  rewrite Hstream in HB.
  pose proof (Read_keeps_length _ _ _ _ _ _ _ Hs Hp HreadA) as HlA.
  pose proof (Read_keeps_length _ _ _ _ _ _ _ Hs1 Hp1 HreadB) as HlB.
  assert (Hagree : forall k, (k <= Z.to_nat n0)%nat -> (k <= Z.to_nat n1)%nat ->
            take k (content hA p) = take k (content hB p)).
  { intros k HkA HkB.
    assert (Hk : take k (take (Z.to_nat n0) (content hA p))
                 = take k (take (Z.to_nat n1) (content hB p))).
    { apply (prefixes_agree _ _ _ _ _ k HA HB); rewrite length_take; lia. }
    rewrite !take_take in Hk.
    by rewrite !Nat.min_l in Hk by lia. }
  assert (Hstart : forall (i : nat) x, views !! i = Some x ->
            x = take (length x) (content h1 (buffer this1))).
  { intros i x Hx.
    destruct (sizes !! i) as [a|] eqn:Hi.
    - by destruct (Hviews i a x Hi Hx) as (_ & Hpre & _).
    - apply lookup_ge_None_1 in Hi. apply lookup_lt_Some in Hx. lia. }
  split_and!.
  - by exists d.
  - intros i j x y Hx Hy k.
    rewrite (Hstart i x Hx), (Hstart j y Hy), !take_take.
    f_equal. unfold k. lia.
  - intros i j a b x y Hij Hi Hj Hx Hy Hab.
    pose proof (Hmono i j a b x y Hij Hi Hj Hx Hy Hab) as Hle.
    assert (Hxy : x = take (length x) y).
    { rewrite (Hstart j y Hy), take_take, Nat.min_l by done.
      exact (Hstart i x Hx). }
    split; [done|]. intros Hfull. by rewrite <- Hfull, <- Hxy.
  - done.
  - intros k. apply Hagree; unfold k; lia.
  - intros [Hpos Hfit].
    pose proof (Read_pending this p h (proj1 Hs) Hp) as HcopyA.
    destruct (HcopyA ltac:(lia)) as (HeqA & _).
    pose proof (Read_pending this1 p h1 (proj1 Hs1) Hp1) as HcopyB.
    pose proof (length_content _ _ (proj1 Hs)) as Hl.
    pose proof (length_content _ _ (proj1 Hs1)) as Hl1.
    rewrite Hc, length_app, Hl in Hl1.
    destruct (HcopyB ltac:(lia)) as (HeqB & _).
    rewrite HeqA in HreadA. rewrite HeqB in HreadB.
    injection HreadA as <- <- _ _. injection HreadB as <- <- _ _.
    assert (Hn : Nat.min (len p) (len (buffer this1))
                 = Nat.min (len p) (len (buffer this))) by lia.
    rewrite Hn. split_and!; [done|done|].
    symmetry. apply Hagree; rewrite ?Hn; lia.
Qed.

End ReadAfterPeeks.

(** The test's increasing peeks on "hello world", then a [Read] of six
    bytes. *)
Lemma C3_witness :
  let S := bytes_of "hello world" in
  let h := [replicate 6 x00] in
  let p := Slice 0 0 6 6 in
  let this := peekbuffer.NewPeekBuffer (bytes.NewReader S) in
  let this1 := {| peekbuffer.reader := {| bytes.s := S; bytes.i := 11 |};
                  peekbuffer.buffer := Slice 1 0 11 11 |} in
  let h1 := [replicate 6 x00; S] in
  peeks exact_fit 2 [2; 5; 8] this h
    = Done ([bytes_of "he"; bytes_of "hello"; bytes_of "hello wo"], this1, h1) /\
  take (Z.to_nat 2) (bytes_of "hello wo") = bytes_of "he" /\
  stream h1 this1 = stream h this /\
  take 6 (content [bytes_of "hello "] p) = take 6 (content [bytes_of "hello "; S] p).
Proof.
  intros S h p this this1 h1.
  assert (Hrun : peeks exact_fit 2 [2; 5; 8] this h
    = Done ([bytes_of "he"; bytes_of "hello"; bytes_of "hello wo"], this1, h1))
    by (vm_compute; reflexivity).
  assert (HreadA : peekbuffer.Read this p h
    = Done (6, None,
            {| peekbuffer.reader := {| bytes.s := S; bytes.i := 6 |};
               peekbuffer.buffer := nil_slice |},
            [bytes_of "hello "])) by (vm_compute; reflexivity).
  assert (HreadB : peekbuffer.Read this1 p h1
    = Done (6, None,
            {| peekbuffer.reader := {| bytes.s := S; bytes.i := 11 |};
               peekbuffer.buffer := Slice 1 6 5 5 |},
            [bytes_of "hello "; S])) by (vm_compute; reflexivity).
  assert (Hs : sound h this) by apply sound_new.
  assert (Hp : wf h p) by (vm_compute; lia).
  destruct (C3_Peek_does_not_advance exact_fit 2 this [2; 5; 8] h _ this1 h1 p
              _ _ _ _ _ _ _ _ Hs Hp Hrun HreadA HreadB)
    as (_ & _ & Hstart & Hstream & Hread & _).
  split_and!; [exact Hrun| |exact Hstream|exact Hread].
  apply (Hstart 0%nat 2%nat 2 8 (bytes_of "he") (bytes_of "hello wo"));
    [lia|reflexivity..|lia|reflexivity].
Defined.

(** For what [Read] returns the claim as it stands fails: on a source of 5000
    bytes a [Read] into a buffer of 5000 returns 5000 bytes, and only 4096
    after a [Peek] of one byte that returned no error. *)
Lemma C3_counterexample :
  let S := replicate 5000 x61 in
  let h := [replicate 5000 x00] in
  let p := Slice 0 0 5000 5000 in
  let this := peekbuffer.NewPeekBuffer (bytes.NewReader S) in
  exists v this1 h1 thisA hA thisB hB,
    peekbuffer.Peek exact_fit 2 this 1 h = Done (v, None, this1, h1) /\
    peekbuffer.Read this p h = Done (5000, None, thisA, hA) /\
    peekbuffer.Read this1 p h1 = Done (4096, None, thisB, hB).
Proof.
  intros S h p this.
  eexists _, _, _, _, _, _, _.
  split; [vm_compute; reflexivity|].
  split; vm_compute; reflexivity.
Qed.

(** * Further properties of the methods *)

(** ** The size of the pull of [Peek] *)

(** X1 (rounding of the shortfall). For a shortfall [need] that is positive
    and at most [MaxInt - 4095], the length of the buffer that [Peek] makes
    for its pull is the least multiple of [FillPeekBufferSize] that is not
    below [need]. *)
Theorem X1_roundedNeed_least_multiple (need : Z) :
  0 < need -> need <= int.MaxInt - 4095 ->
  let r := peekbuffer.roundedNeed need in
  (exists k, r = peekbuffer.FillPeekBufferSize * k) /\
  need <= r < need + peekbuffer.FillPeekBufferSize /\
  (forall m, need <= peekbuffer.FillPeekBufferSize * m ->
             r <= peekbuffer.FillPeekBufferSize * m).
Proof.
  intros Hpos Hfit r.
  destruct (roundedNeed_fits need Hpos ltac:(lia)) as [Heq Hle].
  unfold peekbuffer.FillPeekBufferSize. subst r.
  split_and!; [by eexists|lia|lia|].
  intros m Hm. rewrite Heq.
  assert ((need + 4095) / 4096 < m + 1); [|lia].
  apply Z.div_lt_upper_bound; lia.
Qed.

Lemma X1_witness :
  peekbuffer.roundedNeed 1 = 4096 /\ peekbuffer.roundedNeed 4096 = 4096 /\
  peekbuffer.roundedNeed 4097 = 8192 /\
  (forall m, 4097 <= peekbuffer.FillPeekBufferSize * m ->
             peekbuffer.roundedNeed 4097 <= peekbuffer.FillPeekBufferSize * m).
Proof.
  split_and!; [reflexivity..|].
  apply (X1_roundedNeed_least_multiple 4097); unfold int.MaxInt; lia.
Defined.

Section PeekEdges.
Context {R : Type} `{io.Reader R}.
Variable growcap : nat -> nat -> nat.

Local Abbreviation PeekBuffer := (peekbuffer.PeekBuffer R).
Local Abbreviation Peek := (peekbuffer.Peek growcap).
Local Abbreviation PeekByte := (peekbuffer.PeekByte growcap).
Local Abbreviation ReadByte := (peekbuffer.ReadByte growcap).
Local Abbreviation buffer := peekbuffer.buffer.
Local Abbreviation reader := peekbuffer.reader.

(** Above the sizes whose rounding fits, the rounded shortfall is negative
    and [make] panics before the reader is called. *)
Lemma Peek_beyond fuel (this : PeekBuffer) size h :
  sound h this ->
  size <= int.MaxInt ->
  int.MaxInt - 4095 < size - Z.of_nat (len (buffer this)) ->
  Peek fuel this size h = Panics MakesliceLenOutOfRange.
Proof.
  intros [Hwf Hlen] Hmax Hbig. unfold peekbuffer.Peek.
  rewrite sub_len_fits by (unfold int.MaxInt in *; lia).
  destruct (Z.ltb_spec 0 (size - Z.of_nat (len (buffer this)))) as [_|Hn];
    [|unfold int.MaxInt in *; lia].
  pose proof (roundedNeed_overflow (size - Z.of_nat (len (buffer this)))
                ltac:(lia) ltac:(lia)) as Hneg.
  unfold peekbuffer.make_local.
  destruct (Z.ltb_spec
    (peekbuffer.roundedNeed (size - Z.of_nat (len (buffer this)))) 0); [done|lia].
Qed.

(** X2 (sizes past the top of [int]). In a sound state, when the shortfall
    [size - len(buffer)] is above [MaxInt - 4095], [Peek(size)] panics in
    [make] (the rounding has wrapped to a negative length) without calling
    the reader, whatever the fuel; and so does [PeekByte(size - 1)]. *)
Theorem X2_Peek_panics_past_the_top fuel (this : PeekBuffer) size h :
  sound h this ->
  size <= int.MaxInt ->
  int.MaxInt - 4095 < size - Z.of_nat (len (buffer this)) ->
  Peek fuel this size h = Panics MakesliceLenOutOfRange /\
  PeekByte fuel this (size - 1) h = Panics MakesliceLenOutOfRange.
Proof.
  intros Hs Hmax Hbig.
  pose proof (Peek_beyond fuel this size h Hs Hmax Hbig) as Hp.
  split; [done|].
  rewrite PeekByte_of_Peek.
  rewrite add_one_fits by (unfold int.MinInt, int.MaxInt in *; lia).
  replace (size - 1 + 1) with size by lia. by rewrite Hp.
Qed.

(** With [size] bytes pending [Peek] is a reslicing: no pull, no change. *)
Lemma Peek_buffered fuel (this : PeekBuffer) size h :
  sound h this ->
  0 <= size <= Z.of_nat (len (buffer this)) ->
  Peek fuel this size h
    = Done (Slice (arr (buffer this)) (off (buffer this)) (Z.to_nat size)
                  (cap (buffer this)), None, this, h).
Proof.
  intros [Hwf Hlen] Hsz. unfold peekbuffer.Peek.
  rewrite sub_len_fits by (unfold int.MaxInt in *; lia).
  destruct (Z.ltb_spec 0 (size - Z.of_nat (len (buffer this)))) as [?|_]; [lia|].
  rewrite bind_Done_l.
  etransitivity;
    [exact (Peek_view this size None h (proj1 Hsz) (proj1 Hwf))|].
  rewrite Z.min_l by lia. done.
Qed.

(** X3 (a [Peek] that the buffer can serve). In a sound state with at least
    [size >= 0] bytes pending, [Peek(size)] does not call the reader (it
    returns whatever the fuel) and changes neither the PeekBuffer nor any
    storage: it returns the first [size] pending bytes, in place, and a nil
    error. *)
Theorem X3_Peek_served_by_the_buffer fuel (this : PeekBuffer) size h :
  sound h this ->
  0 <= size <= Z.of_nat (len (buffer this)) ->
  exists v,
    Peek fuel this size h = Done (v, None, this, h) /\
    content h v = take (Z.to_nat size) (content h (buffer this)) /\
    Z.of_nat (len v) = size /\
    arr v = arr (buffer this) /\ off v = off (buffer this).
Proof.
  intros Hs Hsz. eexists. split; [by apply Peek_buffered|].
  pose proof (Peek_view_content h this size _ _ Hs (proj1 Hsz) eq_refl eq_refl)
    as [Hc Hl].
  rewrite Z.min_l in Hc by lia. simpl. split_and!; [done|lia|done|done].
Qed.

End PeekEdges.

Lemma X2_witness :
  let this := peekbuffer.NewPeekBuffer (bytes.NewReader (bytes_of "hello")) in
  peekbuffer.Peek exact_fit 0 this (int.MaxInt - 4094) []
    = Panics MakesliceLenOutOfRange /\
  peekbuffer.PeekByte exact_fit 0 this (int.MaxInt - 4094 - 1) []
    = Panics MakesliceLenOutOfRange.
Proof.
  intros this.
  apply (X2_Peek_panics_past_the_top exact_fit 0 this (int.MaxInt - 4094) []).
  - apply sound_new.
  - lia.
  - simpl. lia.
Defined.

Lemma X3_witness :
  let h := [bytes_of "hello world"] in
  let this := {| peekbuffer.reader := bytes.NewReader (bytes_of "!");
                 peekbuffer.buffer := Slice 0 6 5 5 |} in
  exists v,
    peekbuffer.Peek exact_fit 0 this 3 h = Done (v, None, this, h) /\
    content h v = take (Z.to_nat 3) (content h (peekbuffer.buffer this)) /\
    Z.of_nat (len v) = 3 /\
    arr v = arr (peekbuffer.buffer this) /\ off v = off (peekbuffer.buffer this).
Proof.
  intros h this.
  apply (X3_Peek_served_by_the_buffer exact_fit 0 this 3 h).
  - split; [vm_compute; lia|vm_compute; discriminate].
  - simpl. lia.
Defined.

(** ** [PeekByte], [ReadByte] and [Read] on the same pending bytes *)

Section PeekByteThenRead.
Context {R : Type} `{io.Reader R}.
Variable growcap : nat -> nat -> nat.

Local Abbreviation PeekBuffer := (peekbuffer.PeekBuffer R).
Local Abbreviation Peek := (peekbuffer.Peek growcap).
Local Abbreviation PeekByte := (peekbuffer.PeekByte growcap).
Local Abbreviation ReadByte := (peekbuffer.ReadByte growcap).
Local Abbreviation buffer := peekbuffer.buffer.
Local Abbreviation reader := peekbuffer.reader.

(** How [PeekByte] came to its result. *)
Lemma PeekByte_inv fuel (this : PeekBuffer) offset h b e this' h' :
  PeekByte fuel this offset h = Done (b, e, this', h') ->
  exists peeked e0,
    Peek fuel this (int.add offset 1) h = Done (peeked, e0, this', h') /\
    ((e0 <> None /\ e = e0 /\ b = x00) \/
     (e0 = None /\ Z.of_nat (len peeked) <= offset /\
      e = Some io.EOF /\ b = x00) \/
     (e0 = None /\ 0 <= offset < Z.of_nat (len peeked) /\ e = None /\
      b = nth (Z.to_nat offset) (content h' peeked) x00)).
Proof.
  rewrite PeekByte_of_Peek. intros Hpb.
  destruct (Peek fuel this (int.add offset 1) h)
    as [[[[peeked e0] t] hh]| |] eqn:HP; [|done|done].
  destruct e0 as [x|]; simpl in Hpb.
  - injection Hpb as <- <- <- <-. eexists _, _. split; [done|]. left. done.
  - destruct (Z.leb_spec (Z.of_nat (len peeked)) offset) as [Hle|Hlt].
    + injection Hpb as <- <- <- <-. eexists _, _. split; [done|].
      right. left. done.
    + apply bind_Done in Hpb as (b0 & Hidx & Hd).
      injection Hd as <- <- <- <-. unfold index in Hidx.
      destruct (_ || _) eqn:Hb; [done|]. injection Hidx as <-.
      apply orb_false_iff in Hb as [Hb1 Hb2].
      apply Z.ltb_ge in Hb1. apply Z.leb_gt in Hb2.
      eexists _, _. split; [done|]. right. right. done.
Qed.

(** X4 (what [PeekByte] showed is what is read next). When [PeekByte(offset)]
    has returned the byte [b] and no error, at least [offset + 1] bytes are
    pending and [b] is the one at [offset]; [PeekByte(offset)] again returns
    [b] without calling the reader and without any change; the next [Read]
    into a buffer longer than [offset] puts [b] at [p[offset]]; and for
    [offset = 0] the next [ReadByte] returns [b]. Neither calls the
    reader. *)
Theorem X4_PeekByte_then_read fuel (this : PeekBuffer) offset h b this1 h1 :
  sound h this ->
  PeekByte fuel this offset h = Done (b, None, this1, h1) ->
  0 <= offset < Z.of_nat (len (buffer this1)) /\
  nth (Z.to_nat offset) (content h1 (buffer this1)) x00 = b /\
  (forall fuel', PeekByte fuel' this1 offset h1 = Done (b, None, this1, h1)) /\
  (forall p, wf h1 p -> (Z.to_nat offset < len p)%nat ->
     exists n this2 h2,
       peekbuffer.Read this1 p h1 = Done (n, None, this2, h2) /\
       nth (Z.to_nat offset) (content h2 p) x00 = b /\
       reader this2 = reader this1) /\
  (offset = 0 -> forall fuel',
     exists this2,
       ReadByte fuel' this1 h1 = Done (b, None, this2, h1) /\
       reader this2 = reader this1).
Proof.
  intros Hs Hpb.
  apply PeekByte_inv in Hpb as (peeked & e0 & HP & Hcases).
  destruct Hcases as [(Hne & He & _)|[(_ & _ & He & _)|(-> & Hoff & _ & Hb)]];
    [congruence|congruence|].
  eapply Peek_inv in HP
    as (_ & _ & _ & _ & Hs1 & _ & _ & Hsz & Hv & _); [|done].
  pose proof (Peek_view_content _ _ _ _ _ Hs1 Hsz eq_refl Hv) as [Hvc Hvl].
  pose proof Hs1 as [Hwf1 Hmax1].
  pose proof (length_content _ _ Hwf1) as Hl1.
  assert (Hsize : int.add offset 1 = offset + 1).
  { apply add_one_fits; [unfold int.MinInt; lia|].
    destruct (Z.lt_ge_cases offset int.MaxInt) as [?|Hge]; [done|].
    rewrite Hvl in Hoff.
    pose proof (wrap_in_range (offset + 1)) as [_ Hr].
    unfold int.add in Hsz, Hoff. lia. }
  rewrite Hsize in *. rewrite Hvl, Hl1 in Hoff.
  assert (Hnth : forall k l, (Z.to_nat offset < k)%nat ->
            nth (Z.to_nat offset) (take k l) x00 = nth (Z.to_nat offset) l x00).
  { intros k l Hk. rewrite <- (take_drop k l) at 2.
    destruct (decide (Z.to_nat offset < length (take k l))%nat) as [Hin|Hout].
    - by rewrite app_nth1.
    - rewrite length_take in Hout.
      rewrite !nth_overflow; [done| |rewrite length_take; lia].
      rewrite length_app, length_take, length_drop. lia. }
  assert (Hbyte : nth (Z.to_nat offset) (content h1 (buffer this1)) x00 = b).
  { rewrite Hb, Hvc. symmetry. apply Hnth. lia. }
  split_and!.
  - lia.
  - lia.
  - done.
  - intros fuel'. rewrite PeekByte_of_Peek, Hsize.
    rewrite (Peek_buffered growcap fuel' this1 (offset + 1) h1 Hs1) by lia.
    simpl. destruct (Z.leb_spec (Z.of_nat (Z.to_nat (offset + 1))) offset); [lia|].
    rewrite index_done by (simpl; lia). rewrite bind_Done_l. do 4 f_equal.
    rewrite <- Hbyte.
    pose proof (Peek_view_content h1 this1 (offset + 1) _ _ Hs1 Hsz eq_refl eq_refl)
      as [Hc2 _].
    rewrite Z.min_l in Hc2 by lia. rewrite Hc2. apply Hnth. lia.
  - intros p Hp Hlen.
    destruct (Read_pending this1 p h1 Hwf1 Hp ltac:(lia)) as (Hread & Hcp & _).
    eexists _, _, _. split; [exact Hread|]. split; [|done].
    rewrite Hcp.
    rewrite app_nth1 by (rewrite length_take, Hl1; lia).
    rewrite <- Hbyte. apply Hnth. lia.
  - intros -> fuel'.
    destruct (ReadByte_pending growcap fuel' this1 h1 Hs1 ltac:(lia)) as [Hrb _].
    eexists. split; [rewrite Hrb, <- Hbyte; reflexivity|reflexivity].
Qed.

(** X5 ([ReadByte] and a [Read] of one byte). With pending bytes, [ReadByte]
    returns the byte that [Read] stores in a buffer of length one, both
    return a nil error, and both leave the PeekBuffer in the same state. *)
Theorem X5_ReadByte_is_Read_of_one fuel (this : PeekBuffer) (p : slice) h :
  sound h this -> wf h p -> len p = 1%nat ->
  (0 < len (buffer this))%nat ->
  exists b this' h',
    ReadByte fuel this h = Done (b, None, this', h) /\
    peekbuffer.Read this p h = Done (1, None, this', h') /\
    content h' p = [b] /\
    b = nth 0 (content h (buffer this)) x00.
Proof.
  intros Hs Hp Hlen Hpos. pose proof Hs as [Hwf _].
  destruct (ReadByte_pending growcap fuel this h Hs Hpos) as [Hrb Hcons].
  destruct (Read_pending this p h Hwf Hp Hpos) as (Hread & Hcp & _).
  assert (Hn : Nat.min (len p) (len (buffer this)) = 1%nat) by lia.
  rewrite Hn in Hread, Hcp.
  eexists _, _, _. split; [exact Hrb|]. split; [exact Hread|]. split; [|done].
  rewrite Hcp.
  rewrite (drop_ge (content h p)) by (rewrite length_content by done; lia).
  rewrite Hcons at 1. simpl. done.
Qed.

(** X6 (the errors of [PeekByte]). Whenever [PeekByte] returns an error the
    byte is zero and the error is never [io.ErrUnexpectedEOF]: it is either
    an error that [Peek] surfaced (neither [io.EOF] nor
    [io.ErrUnexpectedEOF]), or [io.EOF], and then [Peek] returned no error
    and no more than [offset] bytes are pending after its pull. *)
Theorem X6_PeekByte_errors fuel (this : PeekBuffer) offset h b e this' h' :
  sound h this ->
  int.MinInt <= offset <= int.MaxInt ->
  PeekByte fuel this offset h = Done (b, Some e, this', h') ->
  b = x00 /\ e <> io.ErrUnexpectedEOF /\
  exists peeked e0,
    Peek fuel this (int.add offset 1) h = Done (peeked, e0, this', h') /\
    ((e0 = Some e /\ e <> io.EOF) \/
     (e0 = None /\ e = io.EOF /\
      Z.of_nat (len (buffer this')) <= offset)).
Proof.
  intros Hs Hrange Hpb.
  apply PeekByte_inv in Hpb as (peeked & e0 & HP & Hcases).
  pose proof (Peek_error_surfaced growcap _ _ _ _ _ _ _ _ HP) as Hsurf.
  destruct Hcases as [(Hne & He & ->)|[(-> & Hshort & He & ->)|(_ & _ & He & _)]];
    [| |done].
  - subst e0. destruct Hsurf as [?|Hsurf]; [done|].
    apply surfaced_true in Hsurf as (x & [= <-] & Hx1 & Hx2).
    split_and!; [done|done|]. eexists _, _. split; [exact HP|]. left. by split.
  - injection He as ->. split_and!; [done|discriminate|].
    eexists _, _. split; [exact HP|]. right. split_and!; [done|done|].
    eapply Peek_inv in HP
      as (_ & _ & _ & _ & Hs1 & _ & _ & Hsz & Hv & _); [|done].
    pose proof (Peek_view_content _ _ _ _ _ Hs1 Hsz eq_refl Hv) as [_ Hvl].
    rewrite length_content in Hvl by apply Hs1.
    destruct (Z.lt_ge_cases offset int.MaxInt) as [Hlt|Hge].
    + rewrite add_one_fits in * by lia. lia.
    + assert (offset = int.MaxInt) as -> by lia.
      assert (Hw : int.add int.MaxInt 1 = int.MinInt) by (vm_compute; reflexivity).
      rewrite Hw in Hsz. unfold int.MinInt in Hsz. lia.
Qed.

End PeekByteThenRead.

Lemma X4_witness :
  let this := peekbuffer.NewPeekBuffer (bytes.NewReader (bytes_of "hello world")) in
  let this1 := {| peekbuffer.reader := {| bytes.s := bytes_of "hello world";
                                          bytes.i := 11 |};
                  peekbuffer.buffer := Slice 0 0 11 11 |} in
  let h1 := [bytes_of "hello world"] in
  peekbuffer.PeekByte exact_fit 2 this 0 [] = Done ("h"%byte, None, this1, h1) /\
  peekbuffer.PeekByte exact_fit 0 this1 0 h1 = Done ("h"%byte, None, this1, h1) /\
  exists this2,
    peekbuffer.ReadByte exact_fit 0 this1 h1 = Done ("h"%byte, None, this2, h1) /\
    peekbuffer.reader this2 = peekbuffer.reader this1.
Proof.
  intros this this1 h1.
  assert (Hpb : peekbuffer.PeekByte exact_fit 2 this 0 []
                = Done ("h"%byte, None, this1, h1)) by (vm_compute; reflexivity).
  destruct (X4_PeekByte_then_read exact_fit 2 this 0 [] _ this1 h1
              (sound_new _ _) Hpb) as (_ & _ & Hagain & _ & Hrb).
  split; [exact Hpb|]. split; [apply Hagain|]. by apply Hrb.
Defined.

Lemma X5_witness :
  let h := [bytes_of "abc"; bytes_of "_"] in
  let this := {| peekbuffer.reader := bytes.NewReader (bytes_of "de");
                 peekbuffer.buffer := Slice 0 1 2 2 |} in
  exists b this' h',
    peekbuffer.ReadByte exact_fit 0 this h = Done (b, None, this', h) /\
    peekbuffer.Read this (Slice 1 0 1 1) h = Done (1, None, this', h') /\
    content h' (Slice 1 0 1 1) = [b] /\
    b = nth 0 (content h (peekbuffer.buffer this)) x00.
Proof.
  intros h this.
  apply (X5_ReadByte_is_Read_of_one exact_fit 0 this (Slice 1 0 1 1) h).
  - split; [vm_compute; lia|vm_compute; discriminate].
  - vm_compute. lia.
  - reflexivity.
  - simpl. lia.
Defined.

Lemma X6_witness :
  let this := peekbuffer.NewPeekBuffer {| err := Some io.ErrUnexpectedEOF |} in
  peekbuffer.PeekByte exact_fit 1 this 0 [] = Done (x00, Some io.EOF, this, []) /\
  x00 = x00 /\ io.EOF <> io.ErrUnexpectedEOF.
Proof.
  intros this.
  assert (Hpb : peekbuffer.PeekByte exact_fit 1 this 0 []
                = Done (x00, Some io.EOF, this, [])) by (vm_compute; reflexivity).
  assert (Hr : int.MinInt <= 0 <= int.MaxInt) by (vm_compute; split; discriminate).
  destruct (X6_PeekByte_errors exact_fit 1 this 0 [] _ _ _ _
              (sound_new _ _) Hr Hpb) as (Hb & He & _).
  split; [exact Hpb|]. split; [exact Hb|exact He].
Defined.

(** ** The loop of [io.ReadAtLeast], step by step *)

Section LoopSteps.
Context {R : Type} `{io.Reader R}.

Lemma ReadAtLeast_loop_stop fuel (r : R) lenbuf min acc err :
  (Z.of_nat (length acc) <? min) && io.is_nil err = false ->
  io.ReadAtLeast_loop fuel r lenbuf min acc err = Some (acc, err, r).
Proof. intros Hc. destruct fuel; simpl; by rewrite Hc. Qed.

Lemma ReadAtLeast_loop_step fuel (r : R) lenbuf min acc err :
  (Z.of_nat (length acc) <? min) && io.is_nil err = true ->
  io.ReadAtLeast_loop (S fuel) r lenbuf min acc err
    = io.ReadAtLeast_loop fuel (io.Read r (lenbuf - length acc)).2 lenbuf min
        (acc ++ (io.Read r (lenbuf - length acc)).1.1)
        (io.Read r (lenbuf - length acc)).1.2.
Proof.
  intros Hc. simpl. rewrite Hc.
  by destruct (io.Read r (lenbuf - length acc)) as [[d e] r'].
Qed.

(** An error that the loop ends with, having started without one, is the
    error of the last [Read]. *)
Lemma ReadAtLeast_loop_error fuel : forall (r : R) lenbuf min acc err acc' e r',
  io.ReadAtLeast_loop fuel r lenbuf min acc err = Some (acc', Some e, r') ->
  (err = Some e /\ acc' = acc /\ r' = r) \/
  exists d1 r1 k d2,
    reads r d1 r1 /\ io.Read r1 k = (d2, Some e, r') /\ acc' = acc ++ d1 ++ d2.
Proof.
  induction fuel as [|fuel IH]; intros r lenbuf min acc err acc' e r' Hl.
  - simpl in Hl.
    destruct ((Z.of_nat (length acc) <? min) && io.is_nil err); [done|].
    injection Hl as <- -> <-. by left.
  - destruct ((Z.of_nat (length acc) <? min) && io.is_nil err) eqn:Hc.
    + rewrite ReadAtLeast_loop_step in Hl by done.
      destruct (io.Read r (lenbuf - length acc)) as [[d e1] r1] eqn:Hr.
      simpl in Hl. right.
      apply IH in Hl as [(-> & -> & ->)|(d1 & r2 & k & d2 & Hrs & Hlast & ->)].
      * exists [], r, (lenbuf - length acc)%nat, d.
        split; [constructor|]. split; [done|]. done.
      * exists (d ++ d1), r2, k, d2.
        split; [eapply reads_more; done|]. split; [done|].
        by rewrite <- !app_assoc.
    + rewrite ReadAtLeast_loop_stop in Hl by done.
      injection Hl as <- -> <-. by left.
Qed.

End LoopSteps.

(** ** A reader that makes no progress *)

(** [ErrorReader] with a nil error returns [0, nil] for ever, and the loop of
    [io.ReadAtLeast] does not end. *)
Lemma ReadAtLeast_stalls (fuel : nat) (lenbuf : nat) (min : Z) :
  0 < min <= Z.of_nat lenbuf ->
  io.ReadAtLeast fuel {| err := None |} lenbuf min = None.
Proof.
  intros Hmin.
  assert (Hloop : io.ReadAtLeast_loop fuel {| err := None |} lenbuf min [] None
                  = None).
  { assert (Hc : (Z.of_nat (length (@nil byte)) <? min)
                   && io.is_nil (@None io.error) = true).
    { change (Z.of_nat (length (@nil byte))) with 0.
      destruct (Z.ltb_spec 0 min); [done|lia]. }
    induction fuel as [|fuel IH].
    - cbn [io.ReadAtLeast_loop]. by rewrite Hc.
    - rewrite ReadAtLeast_loop_step by exact Hc. exact IH. }
  unfold io.ReadAtLeast.
  destruct (Z.ltb_spec (Z.of_nat lenbuf) min); [lia|]. by rewrite Hloop.
Qed.

(** X7 (a reader without progress). Over a reader whose every [Read] returns
    [0, nil] ([ErrorReader] with a nil error), a [Peek] for more than is
    pending, of a size up to [MaxInt - 4095] and a shortfall within the
    runtime's limit on allocations, never returns, however much fuel it is
    given, nor does the [PeekByte] that calls it, nor [ReadByte] on an empty
    buffer; [Read] on an empty buffer returns [0, nil] at once. *)
Theorem X7_reader_without_progress (growcap : nat -> nat -> nat) (fuel : nat)
    (this : peekbuffer.PeekBuffer ErrorReader) (size : Z) (h : store) :
  sound h this ->
  peekbuffer.reader this = {| err := None |} ->
  Z.of_nat (len (peekbuffer.buffer this)) < size ->
  size <= int.MaxInt - 4095 ->
  size - Z.of_nat (len (peekbuffer.buffer this)) <= runtime.maxAlloc ->
  peekbuffer.Peek growcap fuel this size h = OutOfFuel /\
  peekbuffer.PeekByte growcap fuel this (size - 1) h = OutOfFuel /\
  (len (peekbuffer.buffer this) = 0%nat ->
   peekbuffer.ReadByte growcap fuel this h = OutOfFuel /\
   forall p, peekbuffer.Read this p h = Done (0, None, this, h)).
Proof.
  intros Hs Hr Hshort Hfit Halloc. pose proof Hs as [Hwf Hmax].
  assert (HP : peekbuffer.Peek growcap fuel this size h = OutOfFuel).
  { apply Peek_fuel; [done|lia|lia|done|].
    rewrite Peek_pull_short by lia. rewrite Hr.
    pose proof (roundedNeed_fits (size - Z.of_nat (len (peekbuffer.buffer this)))
                  ltac:(lia) ltac:(lia)) as [_ Hround].
    apply ReadAtLeast_stalls. lia. }
  split_and!.
  - done.
  - rewrite PeekByte_of_Peek.
    rewrite add_one_fits by (unfold int.MinInt, int.MaxInt in *; lia).
    replace (size - 1 + 1) with size by lia. by rewrite HP.
  - intros Hz. split.
    + destruct (ReadByte_empty growcap fuel this h Hs Hz) as (Hfill & Hout & _).
      apply Hout. rewrite Hr. apply ReadAtLeast_stalls. rewrite Hfill. lia.
    + intros p. unfold peekbuffer.Read. rewrite Hz, Hr. simpl.
      rewrite write_nil. destruct this as [r b]. simpl in *. by subst r.
Qed.

Lemma X7_witness :
  let this := peekbuffer.NewPeekBuffer {| err := None |} in
  peekbuffer.Peek exact_fit 1000 this 1 [] = OutOfFuel /\
  peekbuffer.PeekByte exact_fit 1000 this (1 - 1) [] = OutOfFuel /\
  (len (peekbuffer.buffer this) = 0%nat ->
   peekbuffer.ReadByte exact_fit 1000 this [] = OutOfFuel /\
   forall p, peekbuffer.Read this p [] = Done (0, None, this, [])).
Proof.
  intros this.
  apply (X7_reader_without_progress exact_fit 1000 this 1 []).
  - apply sound_new.
  - reflexivity.
  - simpl. lia.
  - unfold int.MaxInt. lia.
  - unfold runtime.maxAlloc. simpl. lia.
Defined.

(** ** The error of [ReadByte] *)

Section ReadByteError.
Context {R : Type} `{io.Reader R}.
Variable growcap : nat -> nat -> nat.

Local Abbreviation PeekBuffer := (peekbuffer.PeekBuffer R).
Local Abbreviation ReadByte := (peekbuffer.ReadByte growcap).
Local Abbreviation buffer := peekbuffer.buffer.
Local Abbreviation reader := peekbuffer.reader.

(** X8 (the error of [ReadByte] is the reader's). When [ReadByte] returns an
    error, the buffer was empty, the byte is zero, buffer and storage are
    unchanged, and the error is the one that a [Read] of the reader returned
    together with no byte, after [Read]s that brought no byte either:
    [ReadByte] makes up no error of its own and changes none. *)
Theorem X8_ReadByte_error_is_the_readers fuel (this : PeekBuffer) h b e this' h' :
  sound h this ->
  ReadByte fuel this h = Done (b, Some e, this', h') ->
  b = x00 /\ len (buffer this) = 0%nat /\ buffer this' = buffer this /\ h' = h /\
  exists r1 k,
    reads (reader this) [] r1 /\
    io.Read r1 k = ([], Some e, reader this').
Proof.
  intros Hs Hrb.
  destruct (decide (0 < len (buffer this))%nat) as [Hpos|Hz].
  - destruct (ReadByte_pending growcap fuel this h Hs Hpos) as [Heq _].
    rewrite Heq in Hrb. done.
  - assert (Hz' : len (buffer this) = 0%nat) by lia.
    destruct (ReadByte_empty growcap fuel this h Hs Hz') as (Hfill & Hout & Hcases).
    destruct (io.ReadAtLeast fuel (reader this) fill 1)
      as [[[d e0] r']|] eqn:Hpull; [|by rewrite Hout in Hrb].
    destruct (Hcases d e0 r' eq_refl) as (_ & Hsome & Hnone & _).
    destruct d as [|x d].
    + destruct (Hnone eq_refl) as [_ Heq]. rewrite Heq in Hrb.
      injection Hrb as <- -> <- <-. simpl.
      split_and!; [done|done|done|done|].
      unfold io.ReadAtLeast in Hpull.
      destruct (Z.ltb_spec (Z.of_nat fill) 1); [rewrite Hfill in *; lia|].
      destruct (io.ReadAtLeast_loop fuel (reader this) fill 1 [] None)
        as [[[acc err0] r2]|] eqn:Hloop; [|done].
      destruct (Z.leb_spec 1 (Z.of_nat (length acc))) as [?|Hshort]; [done|].
      assert (acc = []) as -> by (destruct acc; simpl in *; [done|lia]).
      simpl in Hpull. injection Hpull as -> ->.
      apply ReadAtLeast_loop_error in Hloop
        as [(? & _)|(d1 & r1 & k & d2 & Hrs & Hlast & Hacc)]; [done|].
      simpl in Hacc. symmetry in Hacc.
      apply app_eq_nil in Hacc as [-> ->]. by exists r1, k.
    + destruct (Hsome ltac:(done)) as (t & hh & Heq & _).
      rewrite Heq in Hrb. done.
Qed.

End ReadByteError.

Lemma X8_witness :
  let e := io.ErrOther "connection reset" in
  let this := peekbuffer.NewPeekBuffer {| err := Some e |} in
  peekbuffer.ReadByte exact_fit 1 this [] = Done (x00, Some e, this, []) /\
  exists r1 k,
    reads (peekbuffer.reader this) [] r1 /\ io.Read r1 k = ([], Some e, r1).
Proof.
  intros e this.
  assert (Hrb : peekbuffer.ReadByte exact_fit 1 this []
                = Done (x00, Some e, this, [])) by (vm_compute; reflexivity).
  destruct (X8_ReadByte_error_is_the_readers exact_fit 1 this [] _ _ _ _
              (sound_new _ _) Hrb) as (_ & _ & _ & _ & r1 & k & Hrs & Hlast).
  split; [exact Hrb|]. exists r1, k. split; [exact Hrs|].
  destruct r1 as [x]. simpl in Hlast |- *. unfold ErrorReader_Read in *.
  simpl in *. congruence.
Defined.

(** ** The end of a [bytes.Reader] *)

Lemma bytes_ReadAtLeast_end (fuel : nat) (r : bytes.Reader) (lenbuf : nat) (min : Z) :
  (1 <= fuel)%nat -> 0 < min <= Z.of_nat lenbuf -> bytes.rest r = [] ->
  io.ReadAtLeast fuel r lenbuf min = Some ([], Some io.EOF, r).
Proof.
  intros Hf Hmin Hend. destruct fuel as [|fuel]; [lia|].
  assert (Hread : forall k, io.Read r k = ([], Some io.EOF, r)).
  { intros k. simpl. unfold bytes.Read, bytes.rest in *.
    apply (f_equal length) in Hend. rewrite length_drop in Hend. simpl in Hend.
    destruct (Nat.leb_spec (length (bytes.s r)) (bytes.i r)); [done|lia]. }
  unfold io.ReadAtLeast.
  destruct (Z.ltb_spec (Z.of_nat lenbuf) min); [lia|].
  assert (Hc : (Z.of_nat (length (@nil byte)) <? min)
                 && io.is_nil (@None io.error) = true).
  { change (Z.of_nat (length (@nil byte))) with 0.
    destruct (Z.ltb_spec 0 min); [done|lia]. }
  rewrite ReadAtLeast_loop_step by exact Hc.
  rewrite Hread. simpl.
  rewrite ReadAtLeast_loop_stop by (simpl; apply andb_false_r).
  simpl. destruct (Z.leb_spec min (Z.of_nat 0)); [lia|done].
Qed.

(** X9 (the end of the stream is stable). On a PeekBuffer with nothing
    pending over a [bytes.Reader] that has delivered all its bytes, every
    method reports the end and leaves the PeekBuffer and the storage as they
    are: [Read] returns [0, io.EOF] (whatever the length of [p]), [ReadByte]
    returns [0, io.EOF], [Peek] of a size from 0 to the runtime's limit on
    allocations returns an empty view and a nil error, and [PeekByte] of an
    offset from 0 to below that limit returns [0, io.EOF]. *)
Theorem X9_end_of_stream_is_stable (growcap : nat -> nat -> nat) (fuel : nat)
    (this : peekbuffer.PeekBuffer bytes.Reader) (h : store) :
  (1 <= fuel)%nat ->
  sound h this ->
  len (peekbuffer.buffer this) = 0%nat ->
  bytes.rest (peekbuffer.reader this) = [] ->
  (forall p, peekbuffer.Read this p h = Done (0, Some io.EOF, this, h)) /\
  peekbuffer.ReadByte growcap fuel this h = Done (x00, Some io.EOF, this, h) /\
  (forall size, 0 <= size <= runtime.maxAlloc ->
     exists v, peekbuffer.Peek growcap fuel this size h = Done (v, None, this, h) /\
               len v = 0%nat /\ content h v = []) /\
  (forall offset, 0 <= offset < runtime.maxAlloc ->
     peekbuffer.PeekByte growcap fuel this offset h
       = Done (x00, Some io.EOF, this, h)).
Proof.
  intros Hf Hs Hz Hend. pose proof Hs as [Hwf Hmax].
  assert (Hthis : forall r b, r = peekbuffer.reader this ->
            b = peekbuffer.buffer this ->
            {| peekbuffer.reader := r; peekbuffer.buffer := b |} = this).
  { intros r b -> ->. by destruct this. }
  assert (HPeek : forall size, 0 <= size <= runtime.maxAlloc ->
     exists v, peekbuffer.Peek growcap fuel this size h = Done (v, None, this, h) /\
               len v = 0%nat /\ content h v = []).
  { intros size Hsz. destruct (alloc_fits size ltac:(lia)) as [Hfit Htop].
    destruct (Z.eq_dec size 0) as [->|Hpos].
    - exists (Slice (arr (peekbuffer.buffer this)) (off (peekbuffer.buffer this))
                0 (cap (peekbuffer.buffer this))).
      split; [apply (Peek_buffered growcap fuel this 0 h Hs); lia|].
      split; [done|]. unfold content. simpl. apply take_0.
    - pose proof (roundedNeed_fits (size - Z.of_nat (len (peekbuffer.buffer this)))
                    ltac:(lia) ltac:(lia)) as [_ Hround].
      assert (Hpull : Peek_pull fuel this size
                      = Some ([], Some io.EOF, peekbuffer.reader this)).
      { rewrite Peek_pull_short by (unfold int.MaxInt in *; lia).
        apply bytes_ReadAtLeast_end; [done|lia|done]. }
      destruct (Peek_run growcap fuel this size h _ _ _ Hs ltac:(lia) ltac:(lia)
                  ltac:(lia) Hpull)
        as (v & this' & h' & HP & Hr).
      simpl in HP.
      pose proof HP as Hinv.
      eapply Peek_inv in Hinv
        as (d & e0 & Hpull' & _ & Hs' & _ & Hc & _ & Hv & _ & Hsame & _); [|done].
      rewrite Hpull in Hpull'. injection Hpull' as <- <- _.
      destruct (Hsame eq_refl) as [Hb ->].
      assert (this' = this) as ->.
      { destruct this' as [r1 b1], this as [r0 b0]. simpl in *. by subst. }
      exists v. split; [done|]. rewrite Hv. simpl.
      split; [lia|]. unfold content. simpl.
      replace (Z.to_nat (size `min` Z.of_nat (len (peekbuffer.buffer this))))
        with 0%nat by lia.
      apply take_0. }
  split_and!.
  - intros p. unfold peekbuffer.Read. rewrite Hz. simpl.
    unfold bytes.Read, bytes.rest in *.
    apply (f_equal length) in Hend. rewrite length_drop in Hend. simpl in Hend.
    destruct (Nat.leb_spec (length (bytes.s (peekbuffer.reader this)))
                (bytes.i (peekbuffer.reader this))); [|lia].
    rewrite write_nil. by rewrite Hthis.
  - destruct (ReadByte_empty growcap fuel this h Hs Hz) as (Hfill & _ & Hcases).
    destruct (Hcases [] (Some io.EOF) (peekbuffer.reader this)) as (_ & _ & Hnone & _).
    { apply bytes_ReadAtLeast_end; [done|rewrite Hfill; lia|done]. }
    destruct (Hnone eq_refl) as [_ Heq]. rewrite Heq. by rewrite Hthis.
  - exact HPeek.
  - intros offset Hoff. rewrite PeekByte_of_Peek.
    rewrite add_one_fits
      by (unfold int.MinInt, int.MaxInt, runtime.maxAlloc in *; lia).
    destruct (HPeek (offset + 1) ltac:(lia)) as (v & -> & Hlen & _).
    simpl. rewrite Hlen.
    destruct (Z.leb_spec (Z.of_nat 0) offset); [done|lia].
Qed.

Lemma X9_witness :
  let this := {| peekbuffer.reader := {| bytes.s := bytes_of "abc"; bytes.i := 3 |};
                 peekbuffer.buffer := Slice 0 3 0 0 |} in
  let h := [bytes_of "abc"] in
  peekbuffer.ReadByte exact_fit 1 this h = Done (x00, Some io.EOF, this, h) /\
  peekbuffer.Read this (Slice 0 0 2 3) h = Done (0, Some io.EOF, this, h) /\
  peekbuffer.PeekByte exact_fit 1 this 0 h = Done (x00, Some io.EOF, this, h).
Proof.
  intros this h.
  assert (Hs : sound h this) by (split; [vm_compute; lia|vm_compute; discriminate]).
  destruct (X9_end_of_stream_is_stable exact_fit 1 this h ltac:(lia) Hs
              eq_refl eq_refl) as (Hread & Hrb & _ & Hpb).
  split; [exact Hrb|]. split; [apply Hread|].
  apply Hpb. unfold runtime.maxAlloc. lia.
Defined.

(** * The earlier [Peek], which pulls the shortfall as it is *)

Section EarlierPeek.
Context {R : Type} `{io.Reader R}.
Variable growcap : nat -> nat -> nat.

Local Abbreviation PeekBuffer := (peekbuffer.PeekBuffer R).
Local Abbreviation Peek0 := (part_000.Peek growcap).
Local Abbreviation buffer := peekbuffer.buffer.
Local Abbreviation reader := peekbuffer.reader.

(** What the earlier [Peek] has done whenever it returns. *)
Lemma Peek0_inv fuel (this : PeekBuffer) size h v e this' h' :
  sound h this ->
  Peek0 fuel this size h = Done (v, e, this', h') ->
  exists d e0,
    Peek_pull_exact fuel this size = Some (d, e0, reader this') /\
    reads (reader this) d (reader this') /\
    sound h' this' /\ shape h h' /\
    content h' (buffer this') = content h (buffer this) ++ d /\
    0 <= size /\
    v = Slice (arr (buffer this')) (off (buffer this'))
              (Z.to_nat (Z.min size (Z.of_nat (len (buffer this')))))
              (cap (buffer this')) /\
    e = (if peekbuffer.surfaced e0 then e0 else None) /\
    Z.of_nat (length d)
      <= Z.max 0 (int.sub size (Z.of_nat (len (buffer this)))).
Proof.
  intros [Hwf Hlen] Hp. unfold part_000.Peek in Hp.
  apply bind_Done in Hp as ([[e0 this1] h1] & Hpull & Hrest).
  assert (Hfin : 0 <= size /\ this' = this1 /\ h' = h1 /\
    e = (if peekbuffer.surfaced e0 then e0 else None) /\
    v = Slice (arr (buffer this1)) (off (buffer this1))
          (Z.to_nat (Z.min size (Z.of_nat (len (buffer this1))))) (cap (buffer this1))).
  { assert (Hsz : 0 <= size).
    { cbv zeta in Hrest.
      destruct (Z.lt_ge_cases size 0) as [Hneg|?]; [|done].
      destruct (Z.ltb_spec size (Z.of_nat (len (buffer this1)))) as [_|?]; [|lia].
      rewrite slice_to_negative in Hrest by done.
      by destruct (peekbuffer.surfaced e0). }
    assert (Hcap : (len (buffer this1) <= cap (buffer this1))%nat).
    { destruct (0 <? int.sub size (Z.of_nat (len (buffer this)))).
      - apply bind_Done in Hpull as (lenbuf & _ & Hpull).
        apply bind_Done in Hpull as ([[d e1] r'] & _ & Hpull).
        destruct (0 <? Z.of_nat (length d)).
        + apply bind_Done in Hpull as ([b h2] & Happ & Hd).
          injection Hd as _ <- _.
          by pose proof (append_spec _ _ _ _ _ _ Hwf Happ) as ([? _] & _).
        + injection Hpull as _ <- _. apply Hwf.
      - injection Hpull as _ <- _. apply Hwf. }
    pose proof (Peek_view this1 size e0 h1 Hsz Hcap) as Hview.
    cbv zeta in Hview, Hrest. rewrite Hview in Hrest.
    injection Hrest as <- <- <- <-. done. }
  destruct Hfin as (Hsz & -> & -> & -> & ->). clear Hrest.
  unfold Peek_pull_exact.
  destruct (0 <? int.sub size (Z.of_nat (len (buffer this)))) eqn:Hneed.
  - apply Z.ltb_lt in Hneed.
    apply bind_Done in Hpull as (lenbuf & Hmk & Hpull).
    apply make_local_Done in Hmk as [Hneg ->].
    apply bind_Done in Hpull as ([[d e1] r'] & Hfull & Hpull).
    apply pulled_Done in Hfull.
    pose proof (ReadFull_spec _ _ _ _ _ _ Hfull) as (Hreads & Hd & _).
    destruct (0 <? Z.of_nat (length d)) eqn:Hn.
    + apply bind_Done in Hpull as ([b h2] & Happ & Hd').
      injection Hd' as <- <- <-.
      pose proof (append_spec _ _ _ _ _ _ Hwf Happ) as (Hwf' & Hc & Hl & Hmax & _).
      rewrite Hfull. eexists _, _. split; [reflexivity|]. simpl.
      split_and!; try done; [eapply append_shape; done|lia].
    + injection Hpull as <- <- <-. apply Z.ltb_ge in Hn.
      assert (d = []) as -> by (destruct d; simpl in *; [done|lia]).
      rewrite Hfull. eexists _, _. split; [reflexivity|]. simpl.
      rewrite app_nil_r.
      split_and!; [done|done|apply shape_refl|done|done|done|done|lia].
  - injection Hpull as <- <- <-.
    eexists _, _. split; [reflexivity|]. rewrite app_nil_r. simpl.
    split_and!; [constructor|done|apply shape_refl|done|done|done|done|lia].
Qed.

(** The earlier [Peek] returns whenever [make] allocates the shortfall and
    its pull returns: no rounding, no overflow. *)
Lemma Peek0_run fuel (this : PeekBuffer) size h d e0 r' :
  sound h this ->
  0 <= size <= int.MaxInt ->
  size - Z.of_nat (len (buffer this)) <= runtime.maxAlloc ->
  Peek_pull_exact fuel this size = Some (d, e0, r') ->
  exists v this' h',
    Peek0 fuel this size h
      = Done (v, (if peekbuffer.surfaced e0 then e0 else None), this', h') /\
    reader this' = r'.
Proof.
  intros [Hwf Hlen] Hsz Halloc Hpull.
  unfold Peek_pull_exact in Hpull. unfold part_000.Peek.
  rewrite sub_len_fits in * by done.
  destruct (Z.ltb_spec 0 (size - Z.of_nat (len (buffer this)))) as [Hneed|Hneed].
  - rewrite make_local_ok by lia. rewrite bind_Done_l. cbv beta.
    rewrite Hpull, pulled_Some, bind_Done_l.
    pose proof (ReadFull_spec _ _ _ _ _ _ Hpull) as (_ & Hd & _).
    destruct (Z.ltb_spec 0 (Z.of_nat (length d))) as [Hn|Hn].
    + destruct (append_done growcap h (buffer this) d) as (b & h2 & Happ); [lia|].
      rewrite Happ, !bind_Done_l.
      pose proof (append_spec _ _ _ _ _ _ Hwf Happ) as ([Hlc _] & _).
      eexists _, _, _. split; [apply Peek_view; [lia|done]|done].
    + rewrite bind_Done_l. destruct Hwf as [Hlc _].
      eexists _, _, _. split; [apply Peek_view; [lia|done]|done].
  - injection Hpull as <- <- <-. rewrite bind_Done_l.
    destruct Hwf as [Hlc _].
    eexists _, _, _. split; [apply Peek_view; [lia|done]|done].
Qed.

(** X10 (the earlier [Peek] reads no further than asked). In the version of
    [part_000], when [Peek(size)] returns, the pending bytes are the old ones
    followed by the bytes pulled, and they are no more than [size] unless
    more were pending already: the reader is never read ahead of [size]. The
    view holds the first [size] of them. *)
Theorem X10_earlier_Peek_pulls_the_shortfall fuel (this : PeekBuffer) size h
    v e this' h' :
  sound h this ->
  size <= int.MaxInt ->
  Peek0 fuel this size h = Done (v, e, this', h') ->
  (exists d, reads (reader this) d (reader this') /\
             content h' (buffer this') = content h (buffer this) ++ d) /\
  Z.of_nat (len (buffer this')) <= Z.max size (Z.of_nat (len (buffer this))) /\
  content h' v = take (Z.to_nat size) (content h' (buffer this')).
Proof.
  intros Hs Hmax Hp.
  eapply Peek0_inv in Hp
    as (d & e0 & _ & Hreads & Hs' & _ & Hc & Hsz & Hv & _ & Hd); [|done].
  pose proof (Peek_view_content _ _ _ _ _ Hs' Hsz eq_refl Hv) as [Hvc _].
  split_and!; [by exists d| |done].
  pose proof (length_content _ _ (proj1 Hs)) as Hl.
  pose proof (length_content _ _ (proj1 Hs')) as Hl'.
  rewrite Hc, length_app, Hl in Hl'.
  pose proof (proj2 Hs) as Hmax0.
  rewrite sub_len_fits in Hd by lia. lia.
Qed.

End EarlierPeek.

Lemma X10_witness :
  let S := replicate 5000 x61 in
  let this := peekbuffer.NewPeekBuffer (bytes.NewReader S) in
  exists v this0 h0 v1 this1 h1,
    part_000.Peek exact_fit 2 this 1 [] = Done (v, None, this0, h0) /\
    Z.of_nat (len (peekbuffer.buffer this0)) <= Z.max 1 0 /\
    peekbuffer.Peek exact_fit 2 this 1 [] = Done (v1, None, this1, h1) /\
    len (peekbuffer.buffer this1) = 4096%nat.
Proof.
  intros S this.
  assert (Hp : exists v this0 h0,
    part_000.Peek exact_fit 2 this 1 [] = Done (v, None, this0, h0)).
  { eexists _, _, _. vm_compute. reflexivity. }
  destruct Hp as (v & this0 & h0 & Hp).
  exists v, this0, h0.
  destruct (X10_earlier_Peek_pulls_the_shortfall exact_fit 2 this 1 [] _ _ _ _
              (sound_new _ _) ltac:(unfold int.MaxInt; lia) Hp) as (_ & Hle & _).
  eexists _, _, _. split; [exact Hp|]. split; [exact Hle|].
  split; vm_compute; reflexivity.
Defined.

(** ** The two versions of [Peek] on a [bytes.Reader] *)

Lemma take_app_take (a b : list byte) (n k : nat) :
  (n <= length a + k)%nat -> take n (a ++ take k b) = take n (a ++ b).
Proof.
  intros Hn. rewrite !take_app, take_take. do 2 f_equal. lia.
Qed.

Section PeekOnBytes.
Variable growcap : nat -> nat -> nat.

Local Abbreviation PeekBuffer := (peekbuffer.PeekBuffer bytes.Reader).
Local Abbreviation buffer := peekbuffer.buffer.
Local Abbreviation reader := peekbuffer.reader.

(** [Peek] in any sound state over a [bytes.Reader]: it takes the next [k]
    bytes of the source, [k] being the rounded shortfall. *)
Lemma Peek_bytes fuel (this : PeekBuffer) size h :
  (2 <= fuel)%nat -> sound h this -> 0 <= size <= int.MaxInt - 4095 ->
  size - Z.of_nat (len (buffer this)) <= runtime.maxAlloc ->
  exists (k : nat) v this' h',
    peekbuffer.Peek growcap fuel this size h = Done (v, None, this', h') /\
    sound h' this' /\
    content h' (buffer this')
      = content h (buffer this) ++ take k (bytes.rest (reader this)) /\
    bytes.rest (reader this') = drop k (bytes.rest (reader this)) /\
    content h' v = take (Z.to_nat size) (stream h this) /\
    (Z.to_nat size <= len (buffer this) + k)%nat /\
    (Z.to_nat (size - Z.of_nat (len (buffer this))) <= k)%nat.
Proof.
  intros Hf Hs Hsz Halloc. pose proof Hs as [Hwf Hmax].
  pose proof (length_content _ _ Hwf) as Hl.
  assert (Hpull : exists (k : nat) e0 r',
    Peek_pull fuel this size = Some (take k (bytes.rest (reader this)), e0, r') /\
    peekbuffer.surfaced e0 = false /\
    bytes.rest r' = drop k (bytes.rest (reader this)) /\
    (Z.to_nat size <= len (buffer this) + k)%nat /\
    (Z.to_nat (size - Z.of_nat (len (buffer this))) <= k)%nat /\
    (Z.of_nat k <= Z.max 0 (size - Z.of_nat (len (buffer this)) + 4095))).
  { destruct (Z.lt_ge_cases (Z.of_nat (len (buffer this))) size) as [Hshort|Hok].
    - pose proof (roundedNeed_fits (size - Z.of_nat (len (buffer this)))
                    ltac:(lia) ltac:(unfold int.MaxInt in *; lia)) as [_ Hround].
      rewrite Peek_pull_short by (unfold int.MaxInt in *; lia).
      destruct (bytes_ReadFull fuel (reader this)
                  (Z.to_nat (peekbuffer.roundedNeed
                               (size - Z.of_nat (len (buffer this))))) Hf
                  ltac:(lia)) as (r' & Hfull & Hrest).
      eexists _, _, r'. split; [exact Hfull|].
      split; [apply pull_error_not_surfaced|]. split; [exact Hrest|]. lia.
    - rewrite Peek_pull_enough by (unfold int.MaxInt in *; lia).
      exists 0%nat, None, (reader this). rewrite take_0, drop_0.
      split_and!; [done|done|done|lia|lia|lia]. }
  destruct Hpull as (k & e0 & r' & Hpull & Hsurf & Hrest & Hk1 & Hk2 & Hk3).
  destruct (Peek_spec growcap fuel this size h _ _ _ Hs
              ltac:(unfold int.MaxInt in *; lia)
              ltac:(intros Hshort;
                    pose proof (roundedNeed_alloc
                      (size - Z.of_nat (len (buffer this)))
                      ltac:(lia)); lia)
              Hpull)
    as (v & this' & h' & HP & Hr & Hs' & _ & Hc & Hvc & _).
  { rewrite Nat2Z.inj_add, length_take. unfold int.MaxInt in *. lia. }
  rewrite Hsurf in HP.
  exists k, v, this', h'. split; [exact HP|]. split; [done|].
  split; [done|]. split; [by rewrite Hr|]. split; [|done].
  rewrite Hvc. unfold stream. simpl.
  apply take_app_take. rewrite Hl. lia.
Qed.

(** The earlier [Peek] in the same states: it takes the shortfall itself. *)
Lemma Peek0_bytes fuel (this : PeekBuffer) size h :
  (2 <= fuel)%nat -> sound h this -> 0 <= size <= int.MaxInt ->
  size - Z.of_nat (len (buffer this)) <= runtime.maxAlloc ->
  let k := Z.to_nat (size - Z.of_nat (len (buffer this))) in
  exists v this' h',
    part_000.Peek growcap fuel this size h = Done (v, None, this', h') /\
    sound h' this' /\
    content h' (buffer this')
      = content h (buffer this) ++ take k (bytes.rest (reader this)) /\
    bytes.rest (reader this') = drop k (bytes.rest (reader this)) /\
    content h' v = take (Z.to_nat size) (stream h this).
Proof.
  intros Hf Hs Hsz Halloc k. pose proof Hs as [Hwf Hmax].
  pose proof (length_content _ _ Hwf) as Hl.
  assert (Hpull : exists e0 r',
    Peek_pull_exact fuel this size
      = Some (take k (bytes.rest (reader this)), e0, r') /\
    peekbuffer.surfaced e0 = false /\
    bytes.rest r' = drop k (bytes.rest (reader this))).
  { unfold Peek_pull_exact. rewrite sub_len_fits by done. fold k.
    destruct (Z.ltb_spec 0 (size - Z.of_nat (len (buffer this)))) as [Hshort|Hok].
    - destruct (bytes_ReadFull fuel (reader this) k Hf ltac:(unfold k; lia))
        as (r' & Hfull & Hrest).
      eexists _, r'. split; [exact Hfull|].
      split; [apply pull_error_not_surfaced|exact Hrest].
    - exists None, (reader this).
      replace k with 0%nat by (unfold k; lia). by rewrite take_0, drop_0. }
  destruct Hpull as (e0 & r' & Hpull & Hsurf & Hrest).
  destruct (Peek0_run growcap fuel this size h _ _ _ Hs Hsz Halloc Hpull)
    as (v & this' & h' & HP & Hr).
  rewrite Hsurf in HP.
  pose proof (Peek0_inv growcap _ _ _ _ _ _ _ _ Hs HP)
    as (d & e1 & Hpull1 & _ & Hs' & _ & Hc & _ & Hv & _).
  rewrite Hpull in Hpull1. injection Hpull1 as <- _ _.
  pose proof (Peek_view_content _ _ _ _ _ Hs' (proj1 Hsz) Hc Hv) as [Hvc _].
  exists v, this', h'. split; [exact HP|]. split; [done|].
  split; [done|]. split; [by rewrite Hr|].
  rewrite Hvc. unfold stream. simpl.
  apply take_app_take. rewrite Hl. unfold k. lia.
Qed.

(** X11 (the two versions of [Peek] show the same). On a PeekBuffer in any
    sound state over a [bytes.Reader], for [0 <= size <= MaxInt - 4095] with
    a shortfall [size - len(buffer)] within the runtime's limit on
    allocations, the [Peek] of [peekbuffer.go] and the earlier one of
    [part_000] both return a nil error and views of the same bytes: the first
    [size] bytes of the stream (the pending bytes, then what the source has
    left). Both leave the stream as it was; the later version only has at
    least as many of its bytes pending. *)
Theorem X11_Peek_versions_agree fuel (this : PeekBuffer) size h :
  (2 <= fuel)%nat -> sound h this -> 0 <= size <= int.MaxInt - 4095 ->
  size - Z.of_nat (len (buffer this)) <= runtime.maxAlloc ->
  exists v0 this0 h0 v1 this1 h1,
    part_000.Peek growcap fuel this size h = Done (v0, None, this0, h0) /\
    peekbuffer.Peek growcap fuel this size h = Done (v1, None, this1, h1) /\
    content h0 v0 = take (Z.to_nat size) (stream h this) /\
    content h1 v1 = content h0 v0 /\
    stream h0 this0 = stream h this /\
    stream h1 this1 = stream h this /\
    (len (buffer this0) <= len (buffer this1))%nat.
Proof.
  intros Hf Hs Hsz Halloc.
  destruct (Peek0_bytes fuel this size h Hf Hs ltac:(unfold int.MaxInt in *; lia)
              Halloc)
    as (v0 & this0 & h0 & HP0 & Hs0 & Hc0 & Hr0 & Hv0).
  destruct (Peek_bytes fuel this size h Hf Hs Hsz Halloc)
    as (k & v1 & this1 & h1 & HP1 & Hs1 & Hc1 & Hr1 & Hv1 & _ & Hk).
  exists v0, this0, h0, v1, this1, h1.
  split_and!; [done|done|done|by rewrite Hv1| | |].
  - unfold stream. simpl. rewrite Hc0, Hr0, <- app_assoc. by rewrite take_drop.
  - unfold stream. simpl. rewrite Hc1, Hr1, <- app_assoc. by rewrite take_drop.
  - pose proof (length_content _ _ (proj1 Hs0)) as Hl0.
    pose proof (length_content _ _ (proj1 Hs1)) as Hl1.
    rewrite <- Hl0, <- Hl1, Hc0, Hc1, !length_app, !length_take. lia.
Qed.

End PeekOnBytes.

Lemma X11_witness :
  let this := {| peekbuffer.reader := bytes.NewReader (bytes_of "world");
                 peekbuffer.buffer := Slice 0 0 6 6 |} in
  let h := [bytes_of "hello "] in
  exists v0 this0 h0 v1 this1 h1,
    part_000.Peek exact_fit 2 this 8 h = Done (v0, None, this0, h0) /\
    peekbuffer.Peek exact_fit 2 this 8 h = Done (v1, None, this1, h1) /\
    content h0 v0 = take (Z.to_nat 8) (stream h this) /\
    content h1 v1 = content h0 v0 /\
    stream h0 this0 = stream h this /\
    stream h1 this1 = stream h this /\
    (len (peekbuffer.buffer this0) <= len (peekbuffer.buffer this1))%nat.
Proof.
  intros this h.
  apply (X11_Peek_versions_agree exact_fit 2 this 8 h).
  - lia.
  - split; [vm_compute; lia|vm_compute; discriminate].
  - unfold int.MaxInt. lia.
  - unfold runtime.maxAlloc. simpl. lia.
Defined.

(** * What the methods leave alone *)

Section Frame.
Context {R : Type} `{io.Reader R}.
Variable growcap : nat -> nat -> nat.

Local Abbreviation PeekBuffer := (peekbuffer.PeekBuffer R).
Local Abbreviation Peek := (peekbuffer.Peek growcap).
Local Abbreviation PeekByte := (peekbuffer.PeekByte growcap).
Local Abbreviation ReadByte := (peekbuffer.ReadByte growcap).
Local Abbreviation buffer := peekbuffer.buffer.
Local Abbreviation reader := peekbuffer.reader.

(** [append] writes to the free tail of its slice or to a new array: a slice
    in another array, or in the same one and ending no later than [b] does,
    keeps its content. *)
Lemma append_frame h (b : slice) d b' h' (s : slice) :
  wf h b -> wf h s ->
  append growcap h b d = Done (b', h') ->
  arr s <> arr b \/ (off s + len s <= off b + len b)%nat ->
  content h' s = content h s.
Proof.
  intros Hwf Hs Happ Hclear. unfold append in Happ.
  destruct (int.MaxInt <? Z.of_nat (len b + length d)); [done|].
  destruct (Nat.leb_spec (len b + length d) (cap b)) as [Hfit|Hgrow].
  - injection Happ as <- <-.
    destruct (decide (arr s = arr b)) as [Harr|Hne];
      [|by apply content_write_other].
    destruct Hclear as [?|Hend]; [done|].
    set (t := Slice (arr b) (off b + len b) (length d) (cap b - len b)).
    assert (Hin : (off t + length d <= length (backing h t))%nat).
    { destruct Hwf as [_ Hc]. unfold t, backing in *. simpl. lia. }
    apply list_eq. intros j.
    destruct (decide (j < len s)%nat) as [Hj|Hj].
    + rewrite (lookup_content_write h t d s j Hin Harr Hj).
      case_decide as Hc; [unfold t in Hc; simpl in Hc; lia|done].
    + rewrite !lookup_ge_None_2; [done| |].
      * rewrite length_content by done. lia.
      * rewrite length_content by (by apply wf_write). lia.
  - injection Happ as <- <-. by apply content_extend.
Qed.

(** The storage after [Peek] is the old one, or the old one after the
    [append] to the buffer. *)
Lemma Peek_store fuel (this : PeekBuffer) size h v e this' h' :
  Peek fuel this size h = Done (v, e, this', h') ->
  h' = h \/
  exists d, append growcap h (buffer this) d = Done (buffer this', h').
Proof.
  intros Hp. unfold peekbuffer.Peek in Hp.
  apply bind_Done in Hp as ([[e0 this1] h1] & Hpull & Hrest).
  assert (this' = this1 /\ h' = h1) as [-> ->].
  { cbv zeta in Hrest.
    destruct (peekbuffer.surfaced e0);
      apply bind_Done in Hrest as (v0 & _ & Hd); by injection Hd as _ _ <- <-. }
  destruct (0 <? int.sub size (Z.of_nat (len (buffer this)))).
  - apply bind_Done in Hpull as (lenbuf & _ & Hpull).
    apply bind_Done in Hpull as ([[d e1] r'] & _ & Hpull).
    destruct (0 <? Z.of_nat (length d)).
    + apply bind_Done in Hpull as ([b h2] & Happ & Hd).
      injection Hd as _ <- <-. right. by exists d.
    + injection Hpull as _ _ <-. by left.
  - injection Hpull as _ _ <-. by left.
Qed.

Lemma ReadByte_store fuel (this : PeekBuffer) h b e this' h' :
  ReadByte fuel this h = Done (b, e, this', h') ->
  h' = h \/
  exists d s, append growcap h (buffer this) d = Done (s, h').
Proof.
  intros Hrb. unfold peekbuffer.ReadByte in Hrb.
  destruct (0 <? len (buffer this))%nat.
  - apply bind_Done in Hrb as (b0 & _ & Hrb).
    apply bind_Done in Hrb as (s0 & _ & Hrb).
    injection Hrb as _ _ _ <-. by left.
  - apply bind_Done in Hrb as (lenbuf & _ & Hrb).
    apply bind_Done in Hrb as ([[d e1] r'] & _ & Hrb).
    destruct (0 <? Z.of_nat (length d)).
    + apply bind_Done in Hrb as ([s h1] & Happ & Hrb).
      apply bind_Done in Hrb as (b0 & _ & Hrb).
      apply bind_Done in Hrb as (s0 & _ & Hrb).
      injection Hrb as _ _ _ <-. right. by exists d, s.
    + injection Hrb as _ _ _ <-. by left.
Qed.

Lemma Peek_frame fuel (this : PeekBuffer) size h v e this' h' (s : slice) :
  sound h this -> wf h s ->
  arr s <> arr (buffer this) \/
    (off s + len s <= off (buffer this) + len (buffer this))%nat ->
  Peek fuel this size h = Done (v, e, this', h') ->
  content h' s = content h s.
Proof.
  intros [Hwf _] Hs Hclear Hp.
  apply Peek_store in Hp as [->|(d & Happ)]; [done|].
  exact (append_frame h (buffer this) d _ h' s Hwf Hs Happ Hclear).
Qed.

(** X12 (what the methods leave alone). In a sound state, a slice that lies
    within its backing array, in another array than the buffer's or in the
    buffer's array and ending no later than the pending bytes (a slice of
    the caller, the consumed bytes, the pending bytes, an earlier view),
    keeps its content through [Peek], [PeekByte] and [ReadByte]; and through
    [Read] when it is in another array than [p]. *)
Theorem X12_methods_leave_other_storage_alone fuel (this : PeekBuffer) h (s : slice) :
  sound h this -> wf h s ->
  arr s <> arr (buffer this) \/
    (off s + len s <= off (buffer this) + len (buffer this))%nat ->
  (forall size v e this' h',
     Peek fuel this size h = Done (v, e, this', h') ->
     content h' s = content h s) /\
  (forall offset b e this' h',
     PeekByte fuel this offset h = Done (b, e, this', h') ->
     content h' s = content h s) /\
  (forall b e this' h',
     ReadByte fuel this h = Done (b, e, this', h') ->
     content h' s = content h s) /\
  (forall p n e this' h',
     arr s <> arr p ->
     peekbuffer.Read this p h = Done (n, e, this', h') ->
     content h' s = content h s).
Proof.
  intros Hsound Hs Hclear. pose proof Hsound as [Hwf _]. split_and!.
  - intros size v e this' h' Hp. by eapply Peek_frame.
  - intros offset b e this' h' Hpb.
    apply PeekByte_inv in Hpb as (peeked & e0 & Hp & _). by eapply Peek_frame.
  - intros b e this' h' Hrb.
    apply ReadByte_store in Hrb as [->|(d & s0 & Happ)]; [done|].
    exact (append_frame h (buffer this) d _ h' s Hwf Hs Happ Hclear).
  - intros p n e this' h' Hne Hread. unfold peekbuffer.Read in Hread.
    destruct (0 <? len (buffer this))%nat.
    + unfold copy in Hread.
      apply bind_Done in Hread as (b0 & _ & Hd). injection Hd as _ _ _ <-.
      by apply content_write_other.
    + destruct (io.Read (reader this) (len p)) as [[d e1] r'].
      injection Hread as _ _ _ <-. by apply content_write_other.
Qed.

(** X13 (a view is cut off when the buffer moves). When a [Peek] after the
    one that returned the view [v1] has left more bytes pending than the
    buffer had capacity for, the buffer is in a new array: [v1] still shows
    the bytes it showed, but a write through it no longer reaches the
    pending bytes. *)
Theorem X13_view_cut_off_by_growth fuel (this : PeekBuffer) a h v1 e1 this1 h1
    b v2 e2 this2 h2 (i : Z) (x : byte) :
  sound h this ->
  Peek fuel this a h = Done (v1, e1, this1, h1) ->
  Peek fuel this1 b h1 = Done (v2, e2, this2, h2) ->
  (cap (buffer this1) < len (buffer this2))%nat ->
  0 <= i < Z.of_nat (len v1) ->
  arr (buffer this2) <> arr v1 /\
  content h2 v1 = content h1 v1 /\
  exists h3,
    set_index h2 v1 i x = Done h3 /\
    content h3 (buffer this2) = content h2 (buffer this2) /\
    nth (Z.to_nat i) (content h3 v1) x00 = x.
Proof.
  intros Hs HP1 HP2 Hgrow Hi.
  pose proof HP1 as Hinv1.
  eapply Peek_inv in Hinv1
    as (_ & _ & _ & _ & Hs1 & _ & _ & Hsz1 & Hv1 & _); [|done].
  pose proof HP2 as Hinv2.
  eapply Peek_inv in Hinv2
    as (_ & _ & _ & _ & Hs2 & Hsh2 & _ & _ & _ & _ & _ & Hmoved); [|done].
  pose proof Hs1 as [[Hlc1 Hin1] _]. pose proof Hs2 as [[Hlc2 _] _].
  assert (Hlen1 : (len v1 <= len (buffer this1))%nat) by (rewrite Hv1; simpl; lia).
  assert (Harr1 : arr v1 = arr (buffer this1)) by (by rewrite Hv1).
  assert (Hoff1 : off v1 = off (buffer this1)) by (by rewrite Hv1).
  assert (Hold : (arr (buffer this1) < length h1)%nat).
  { destruct (decide (arr (buffer this1) < length h1)%nat) as [?|Hout]; [done|].
    rewrite backing_out in Hin1 by lia. simpl in Hin1. lia. }
  assert (Hnew : (length h1 <= arr (buffer this2))%nat).
  { destruct Hmoved as [(_ & _ & Hcap)|?]; [lia|done]. }
  assert (Hwf1 : wf h1 v1).
  { rewrite Hv1. split; simpl; [lia|exact Hin1]. }
  split_and!.
  - lia.
  - eapply (Peek_frame fuel this1 b h1); [done|done| |done].
    right. lia.
  - unfold set_index.
    destruct (Z.ltb_spec i 0) as [?|_]; [lia|].
    destruct (Z.leb_spec (Z.of_nat (len v1)) i) as [?|_]; [lia|]. simpl.
    eexists. split; [reflexivity|]. split.
    + apply content_write_other. simpl. lia.
    + assert (Hwf2 : wf h2 v1) by (by eapply shape_wf).
      set (t := Slice (arr v1) (off v1 + Z.to_nat i) 1 1).
      assert (Hin : (off t + length [x] <= length (backing h2 t))%nat).
      { destruct Hwf2 as [Hl2 Hc2]. unfold t, backing in *. simpl. lia. }
      assert (Hlook : content (write h2 t [x]) v1 !! Z.to_nat i = Some x).
      { rewrite (lookup_content_write h2 t [x] v1) by (try done; lia).
        case_decide as Hc; [|unfold t in Hc; simpl in Hc; lia].
        unfold t. simpl. by replace (off v1 + Z.to_nat i - (off v1 + Z.to_nat i))%nat
          with 0%nat by lia. }
      by apply nth_lookup_Some with (d := x00) in Hlook.
Qed.

(** X14 (reading ahead is bounded). [Peek(size)], for a size whose rounding
    fits, leaves at most [size + 4095] bytes pending unless more were pending
    already, and [ReadByte] leaves at most 4095 unless more were pending. *)
Theorem X14_reading_ahead_is_bounded fuel (this : PeekBuffer) h :
  sound h this ->
  (forall size v e this' h',
     size <= int.MaxInt - 4095 ->
     Peek fuel this size h = Done (v, e, this', h') ->
     Z.of_nat (len (buffer this'))
       <= Z.max (Z.of_nat (len (buffer this))) (size + 4095)) /\
  (forall b e this' h',
     ReadByte fuel this h = Done (b, e, this', h') ->
     (len (buffer this') <= Nat.max (len (buffer this) - 1) 4095)%nat).
Proof.
  intros Hs. pose proof Hs as [Hwf Hmax].
  pose proof (length_content _ _ Hwf) as Hl. split.
  - intros size v e this' h' Hfit Hp.
    eapply Peek_inv in Hp
      as (d & e0 & Hpull & _ & Hs' & _ & Hc & Hsz & _); [|done].
    pose proof (length_content _ _ (proj1 Hs')) as Hl'.
    rewrite Hc, length_app, Hl in Hl'.
    destruct (Z.lt_ge_cases (Z.of_nat (len (buffer this))) size) as [Hshort|Hok].
    + rewrite Peek_pull_short in Hpull by (unfold int.MaxInt in *; lia).
      apply ReadFull_spec in Hpull as (_ & Hd & _).
      pose proof (roundedNeed_fits (size - Z.of_nat (len (buffer this)))
                    ltac:(lia) ltac:(unfold int.MaxInt in *; lia)) as [_ Hround].
      lia.
    + rewrite Peek_pull_enough in Hpull by (unfold int.MaxInt in *; lia).
      injection Hpull as <- _ _. simpl in Hl'. lia.
  - intros b e this' h' Hrb.
    destruct (decide (0 < len (buffer this))%nat) as [Hpos|Hz].
    + destruct (ReadByte_pending growcap fuel this h Hs Hpos) as [Heq _].
      rewrite Heq in Hrb. injection Hrb as _ _ <- _. simpl. lia.
    + assert (Hz' : len (buffer this) = 0%nat) by lia.
      destruct (ReadByte_empty growcap fuel this h Hs Hz') as (Hfill & Hout & Hcases).
      destruct (io.ReadAtLeast fuel (reader this) fill 1)
        as [[[d e0] r']|] eqn:Hpull; [|by rewrite Hout in Hrb].
      destruct (Hcases d e0 r' eq_refl) as (Hd & Hsome & Hnone & _).
      destruct d as [|y d].
      * destruct (Hnone eq_refl) as [_ Heq]. rewrite Heq in Hrb.
        injection Hrb as _ _ <- _. simpl. lia.
      * destruct (Hsome ltac:(done)) as (t & hh & Heq & _ & Hc & Hs').
        rewrite Heq in Hrb. injection Hrb as _ _ <- <-.
        pose proof (length_content _ _ (proj1 Hs')) as Hl'.
        rewrite Hc in Hl'. simpl in Hl', Hd. lia.
Qed.

End Frame.

Lemma X12_witness :
  let this := {| peekbuffer.reader := bytes.NewReader (bytes_of "world");
                 peekbuffer.buffer := Slice 0 2 3 3 |} in
  let h := [bytes_of "hello"; bytes_of "mine"] in
  let s := Slice 1 0 4 4 in
  exists v this' h',
    peekbuffer.Peek exact_fit 2 this 6 h = Done (v, None, this', h') /\
    content h' s = content h s /\
    content h' (Slice 0 0 5 5) = content h (Slice 0 0 5 5).
Proof.
  intros this h s.
  assert (Hp : exists v this' h',
    peekbuffer.Peek exact_fit 2 this 6 h = Done (v, None, this', h')).
  { eexists _, _, _. vm_compute. reflexivity. }
  destruct Hp as (v & this' & h' & Hp). exists v, this', h'.
  assert (Hs : sound h this) by (split; [vm_compute; lia|vm_compute; discriminate]).
  split; [exact Hp|]. split.
  - destruct (X12_methods_leave_other_storage_alone exact_fit 2 this h s Hs)
      as (HPeek & _); [vm_compute; lia|left; simpl; lia|].
    by eapply HPeek.
  - destruct (X12_methods_leave_other_storage_alone exact_fit 2 this h
                (Slice 0 0 5 5) Hs)
      as (HPeek & _); [vm_compute; lia|right; simpl; lia|].
    by eapply HPeek.
Defined.

Lemma X13_witness :
  let this := {| peekbuffer.reader := bytes.NewReader (bytes_of "llo");
                 peekbuffer.buffer := Slice 0 0 2 2 |} in
  let h := [bytes_of "he"] in
  let v1 := Slice 0 0 2 2 in
  let this2 := {| peekbuffer.reader := {| bytes.s := bytes_of "llo"; bytes.i := 3 |};
                  peekbuffer.buffer := Slice 1 0 5 5 |} in
  let h2 := [bytes_of "he"; bytes_of "hello"] in
  peekbuffer.Peek exact_fit 2 this 2 h = Done (v1, None, this, h) /\
  peekbuffer.Peek exact_fit 2 this 5 h = Done (Slice 1 0 5 5, None, this2, h2) /\
  exists h3,
    set_index h2 v1 0 "J"%byte = Done h3 /\
    content h3 (peekbuffer.buffer this2) = content h2 (peekbuffer.buffer this2) /\
    nth (Z.to_nat 0) (content h3 v1) x00 = "J"%byte.
Proof.
  intros this h v1 this2 h2.
  assert (HP1 : peekbuffer.Peek exact_fit 2 this 2 h = Done (v1, None, this, h))
    by (vm_compute; reflexivity).
  assert (HP2 : peekbuffer.Peek exact_fit 2 this 5 h
                = Done (Slice 1 0 5 5, None, this2, h2))
    by (vm_compute; reflexivity).
  assert (Hs : sound h this) by (split; [vm_compute; lia|vm_compute; discriminate]).
  destruct (X13_view_cut_off_by_growth exact_fit 2 this 2 h v1 None this h
              5 _ None this2 h2 0 "J"%byte Hs HP1 HP2)
    as (_ & _ & Hcut); [simpl; lia|simpl; lia|].
  split; [exact HP1|]. split; [exact HP2|]. exact Hcut.
Defined.

Lemma X14_witness :
  let this := peekbuffer.NewPeekBuffer (bytes.NewReader (bytes_of "hello world")) in
  exists v this' h',
    peekbuffer.Peek exact_fit 2 this 1 [] = Done (v, None, this', h') /\
    Z.of_nat (len (peekbuffer.buffer this')) <= Z.max (Z.of_nat 0) (1 + 4095).
Proof.
  intros this.
  assert (Hp : exists v this' h',
    peekbuffer.Peek exact_fit 2 this 1 [] = Done (v, None, this', h')).
  { eexists _, _, _. vm_compute. reflexivity. }
  destruct Hp as (v & this' & h' & Hp). exists v, this', h'.
  split; [exact Hp|].
  destruct (X14_reading_ahead_is_bounded exact_fit 2 this [] (sound_new _ _))
    as [HPeek _].
  eapply (HPeek 1); [unfold int.MaxInt; lia|exact Hp].
Defined.

(** * Runs on a [bytes.Reader] return *)

Lemma outcome_Done {A : Type} (o : outcome A) :
  is_panic o = false -> o <> OutOfFuel -> exists a, o = Done a.
Proof. destruct o as [a| |]; [by exists a|done|done]. Qed.

Section RunsReturn.
Variable growcap : nat -> nat -> nat.

Local Abbreviation PeekBuffer := (peekbuffer.PeekBuffer bytes.Reader).
Local Abbreviation buffer := peekbuffer.buffer.
Local Abbreviation reader := peekbuffer.reader.

Lemma Read_returns (this : PeekBuffer) p h :
  sound h this -> wf h p ->
  exists n e this' h', peekbuffer.Read this p h = Done (n, e, this', h').
Proof.
  intros [Hwf _] Hp.
  destruct (decide (0 < len (buffer this))%nat) as [Hpos|Hz].
  - destruct (Read_pending this p h Hwf Hp Hpos) as [Heq _]. by eexists _, _, _, _.
  - destruct (io.Read (reader this) (len p)) as [[d e] r'] eqn:Hr.
    destruct (Read_through this p h Hwf Hp ltac:(lia) d e r' Hr) as [Heq _].
    by eexists _, _, _, _.
Qed.

Lemma ReadByte_bytes_returns fuel (this : PeekBuffer) h :
  (2 <= fuel)%nat -> sound h this ->
  exists b e this' h', peekbuffer.ReadByte growcap fuel this h = Done (b, e, this', h').
Proof.
  intros Hf Hs.
  destruct (decide (0 < len (buffer this))%nat) as [Hpos|Hz].
  - destruct (ReadByte_pending growcap fuel this h Hs Hpos) as [Heq _].
    by eexists _, _, _, _.
  - destruct (ReadByte_empty growcap fuel this h Hs ltac:(lia))
      as (Hfill & _ & Hcases).
    destruct (io.ReadAtLeast fuel (reader this) fill 1)
      as [[[d e] r']|] eqn:Hpull.
    + destruct (Hcases d e r' eq_refl) as (_ & Hsome & Hnone & _).
      destruct d as [|x d].
      * destruct (Hnone eq_refl) as [_ Heq]. by eexists _, _, _, _.
      * destruct (Hsome ltac:(done)) as (t & hh & Heq & _). by eexists _, _, _, _.
    + exfalso. revert Hpull. apply bytes_pull_returns; [done|rewrite Hfill; lia].
Qed.

Lemma PeekByte_bytes_returns fuel (this : PeekBuffer) offset h :
  (2 <= fuel)%nat -> sound h this -> 0 <= offset < runtime.maxAlloc ->
  exists b e this' h',
    peekbuffer.PeekByte growcap fuel this offset h = Done (b, e, this', h').
Proof.
  intros Hf Hs Hoff. destruct (alloc_fits (offset + 1) ltac:(lia)) as [Hfit _].
  destruct (outcome_Done (peekbuffer.PeekByte growcap fuel this offset h))
    as ([[[b e] this'] h'] & Heq).
  - apply PeekByte_no_panic; [done|lia|lia|lia].
  - apply PeekByte_enough_fuel. intros lenbuf.
    apply bytes_pull_returns; [done|lia].
  - by eexists _, _, _, _.
Qed.

(** From a consistent state, a run of calls in range returns and leaves a
    consistent state. *)
Lemma run_returns fuel h0 S calls : forall h (this : PeekBuffer) out,
  (2 <= fuel)%nat ->
  consistent h0 S h this out ->
  Forall (wf h0) (read_buffers calls) ->
  Forall call_in_range calls ->
  exists out' this' h',
    run growcap fuel calls this h out = Done (out', this', h') /\
    consistent h0 S h' this' out'.
Proof.
  induction calls as [|c calls IH]; intros h this out Hf Hc Hbuf Hrange.
  - by eexists _, _, _.
  - inversion Hrange as [|? ? Hc0 Hrange']; subst.
    pose proof Hc as (Hs & Hsh & _).
    destruct c as [p| |size|offset]; cbn [run read_buffers] in Hbuf |- *.
    + inversion Hbuf as [|? ? Hp Hbuf']; subst.
      destruct (Read_returns this p h Hs ltac:(by eapply shape_wf))
        as (n & e & this1 & h1 & Hcall).
      rewrite Hcall, bind_Done_l. cbv beta iota.
      apply IH; [done| |done|done]. by eapply Read_step.
    + destruct (ReadByte_bytes_returns fuel this h Hf Hs)
        as (b & e & this1 & h1 & Hcall).
      rewrite Hcall, bind_Done_l. cbv beta iota.
      apply IH; [done| |done|done]. by eapply ReadByte_step.
    + simpl in Hc0. destruct (alloc_fits size ltac:(lia)) as [Hfit _].
      destruct (Peek_bytes growcap fuel this size h Hf Hs ltac:(lia) ltac:(lia))
        as (k & v & this1 & h1 & Hcall & _).
      rewrite Hcall, bind_Done_l. cbv beta iota.
      apply IH; [done| |done|done]. by eapply Peek_step.
    + destruct (PeekByte_bytes_returns fuel this offset h Hf Hs Hc0)
        as (b & e & this1 & h1 & Hcall).
      rewrite Hcall, bind_Done_l. cbv beta iota.
      apply IH; [done| |done|done]. by eapply PeekByte_step.
Qed.

(** X15 (runs on a [bytes.Reader] return). On a new PeekBuffer over a
    [bytes.Reader] with content [S], every sequence of [Read], [ReadByte],
    [Peek] and [PeekByte] calls returns (no panic, and two rounds of the pull
    loop are enough) provided every buffer given to [Read] is a slice of an
    array that exists before the first call (the caller's own storage, so no
    view that [Peek] returned), sizes are between 0 and the runtime's limit
    on allocations, and offsets are from 0 to below that limit; and the bytes
    returned by the consuming calls are the start of [S], the rest being the
    pending bytes and what the source has left. *)
Theorem X15_runs_return (fuel : nat) (S : list byte) (h0 : store)
    (calls : list call) :
  (2 <= fuel)%nat ->
  Forall (wf h0) (read_buffers calls) ->
  Forall call_in_range calls ->
  exists out this' h',
    run growcap fuel calls (peekbuffer.NewPeekBuffer (bytes.NewReader S)) h0 []
      = Done (out, this', h') /\
    out ++ content h' (buffer this') ++ bytes.rest (reader this') = S /\
    out = take (length out) S.
Proof.
  intros Hf Hbuf Hrange.
  destruct (run_returns fuel h0 S calls h0
              (peekbuffer.NewPeekBuffer (bytes.NewReader S)) [] Hf)
    as (out & this' & h' & Hrun & Hc); [|done|done|].
  { exact (consistent_new h0 (bytes.NewReader S)). }
  exists out, this', h'. split; [done|].
  destruct Hc as (_ & _ & _ & Hout). unfold stream in Hout. simpl in Hout.
  split; [done|]. rewrite <- Hout. by rewrite take_app_length.
Qed.

End RunsReturn.

Lemma X15_witness :
  let S := bytes_of "hello world" in
  let h0 := [replicate 4 x00] in
  let calls := [CallPeekByte 20; CallRead (Slice 0 0 4 4); CallReadByte;
                CallPeek 3; CallRead (Slice 0 1 2 3)] in
  exists out this' h',
    run exact_fit 2 calls (peekbuffer.NewPeekBuffer (bytes.NewReader S)) h0 []
      = Done (out, this', h') /\
    out ++ content h' (peekbuffer.buffer this')
        ++ bytes.rest (peekbuffer.reader this') = S /\
    out = take (length out) S.
Proof.
  intros S h0 calls.
  apply (X15_runs_return exact_fit 2 S h0 calls).
  - lia.
  - repeat constructor; vm_compute; lia.
  - repeat constructor; unfold runtime.maxAlloc; lia.
Defined.

(** * A PeekBuffer that is only read *)

Section ReadsOnly.
Context {R : Type} `{io.Reader R}.
Variable growcap : nat -> nat -> nat.

Local Abbreviation PeekBuffer := (peekbuffer.PeekBuffer R).
Local Abbreviation buffer := peekbuffer.buffer.
Local Abbreviation reader := peekbuffer.reader.



End ReadsOnly.


(** * What [Peek] shows after a run *)

Section PeekAfterRun.
Variable growcap : nat -> nat -> nat.

Local Abbreviation PeekBuffer := (peekbuffer.PeekBuffer bytes.Reader).
Local Abbreviation buffer := peekbuffer.buffer.
Local Abbreviation reader := peekbuffer.reader.

(** The view of [Peek] on a [bytes.Reader] is as long as its content. *)
Lemma Peek_bytes_view fuel (this : PeekBuffer) size h :
  (2 <= fuel)%nat -> sound h this -> 0 <= size <= runtime.maxAlloc ->
  exists v this' h',
    peekbuffer.Peek growcap fuel this size h = Done (v, None, this', h') /\
    content h' v = take (Z.to_nat size) (stream h this) /\
    len v = length (content h' v).
Proof.
  intros Hf Hs Hsz. destruct (alloc_fits size ltac:(lia)) as [Hfit _].
  destruct (Peek_bytes growcap fuel this size h Hf Hs ltac:(lia) ltac:(lia))
    as (k & v & this' & h' & HP & Hs' & _ & _ & Hv & _).
  exists v, this', h'. split; [done|]. split; [done|].
  pose proof HP as Hinv.
  eapply Peek_inv in Hinv as (_ & _ & _ & _ & _ & _ & _ & Hsz' & Hview & _); [|done].
  symmetry. apply length_content. rewrite Hview.
  destruct Hs' as [[Hlc Hin] _]. split; simpl; [lia|done].
Qed.

(** X17 (the peeking methods show what follows the bytes consumed). After a
    sequence of calls on a new PeekBuffer over a [bytes.Reader] with content
    [S], in which every buffer given to [Read] is a slice of an array that
    exists before the first call (the caller's own storage, so no view that
    [Peek] returned), and which has returned the bytes [out]: [Peek(size)],
    for a size from 0 to the runtime's limit on allocations, returns a nil
    error and the (up to) [size] bytes of [S] from position [len(out)] on,
    and [PeekByte(offset)], for an offset from 0 to below that limit, returns
    the byte of [S] at position [len(out) + offset], or [0, io.EOF] when [S]
    ends before it. *)
Theorem X17_peeking_shows_what_follows (fuel : nat) (S : list byte) (h0 : store)
    (calls : list call) out (this' : PeekBuffer) h' :
  (2 <= fuel)%nat ->
  Forall (wf h0) (read_buffers calls) ->
  run growcap fuel calls (peekbuffer.NewPeekBuffer (bytes.NewReader S)) h0 []
    = Done (out, this', h') ->
  (forall size, 0 <= size <= runtime.maxAlloc ->
     exists v this2 h2,
       peekbuffer.Peek growcap fuel this' size h' = Done (v, None, this2, h2) /\
       content h2 v = take (Z.to_nat size) (drop (length out) S)) /\
  (forall offset, 0 <= offset < runtime.maxAlloc ->
     exists b e this2 h2,
       peekbuffer.PeekByte growcap fuel this' offset h' = Done (b, e, this2, h2) /\
       match S !! (length out + Z.to_nat offset)%nat with
       | Some x => b = x /\ e = None
       | None => b = x00 /\ e = Some io.EOF
       end).
Proof.
  intros Hf Hbuf Hrun.
  assert (Hc : consistent h0 S h' this' out).
  { eapply (run_consistent growcap fuel h0 S calls); [|done|done].
    exact (consistent_new h0 (bytes.NewReader S)). }
  destruct Hc as (Hs & _ & _ & Hout).
  assert (Hstream : stream h' this' = drop (length out) S).
  { rewrite <- Hout. by rewrite drop_app_length. }
  split.
  - intros size Hsz.
    destruct (Peek_bytes_view fuel this' size h' Hf Hs Hsz)
      as (v & this2 & h2 & HP & Hv & _).
    exists v, this2, h2. by rewrite <- Hstream.
  - intros offset Hoff.
    destruct (Peek_bytes_view fuel this' (offset + 1) h' Hf Hs ltac:(lia))
      as (v & this2 & h2 & HP & Hv & Hlen).
    rewrite PeekByte_of_Peek.
    rewrite add_one_fits
      by (unfold int.MinInt, int.MaxInt, runtime.maxAlloc in *; lia).
    rewrite HP. simpl negb. cbv iota.
    rewrite Hstream in Hv. rewrite Hlen, Hv, length_take, length_drop.
    rewrite <- (lookup_drop S (length out) (Z.to_nat offset)).
    destruct (drop (length out) S !! Z.to_nat offset) as [x|] eqn:Hx.
    + pose proof (lookup_lt_Some _ _ _ Hx) as Hlt. rewrite length_drop in Hlt.
      destruct (Z.leb_spec
        (Z.of_nat (Z.to_nat (offset + 1) `min` (length S - length out))) offset);
        [lia|].
      rewrite index_done by (rewrite Hlen, Hv, length_take, length_drop; lia).
      rewrite bind_Done_l. eexists _, _, _, _. split; [reflexivity|].
      split; [|done]. rewrite Hv.
      apply nth_lookup_Some with (d := x00).
      rewrite lookup_take_lt by lia. done.
    + pose proof (lookup_ge_None_1 _ _ Hx) as Hge. rewrite length_drop in Hge.
      destruct (Z.leb_spec
        (Z.of_nat (Z.to_nat (offset + 1) `min` (length S - length out))) offset);
        [|lia].
      by eexists _, _, _, _.
Qed.

End PeekAfterRun.

Lemma X17_witness :
  let S := bytes_of "peek after read" in
  let h0 := [replicate 5 x00] in
  let calls := [CallRead (Slice 0 0 5 5)] in
  exists this' h',
    run exact_fit 2 calls (peekbuffer.NewPeekBuffer (bytes.NewReader S)) h0 []
      = Done (bytes_of "peek ", this', h') /\
    (exists v this2 h2,
       peekbuffer.Peek exact_fit 2 this' 5 h' = Done (v, None, this2, h2) /\
       content h2 v = take (Z.to_nat 5) (drop (length (bytes_of "peek ")) S)) /\
    take (Z.to_nat 5) (drop (length (bytes_of "peek ")) S) = bytes_of "after".
Proof.
  intros S h0 calls.
  assert (Hrun : exists this' h',
    run exact_fit 2 calls (peekbuffer.NewPeekBuffer (bytes.NewReader S)) h0 []
      = Done (bytes_of "peek ", this', h')).
  { eexists _, _. vm_compute. reflexivity. }
  destruct Hrun as (this' & h' & Hrun). exists this', h'.
  split; [exact Hrun|]. split; [|reflexivity].
  destruct (X17_peeking_shows_what_follows exact_fit 2 S h0 calls
              (bytes_of "peek ") this' h')
    as [HPeek _]; [lia|repeat constructor; vm_compute; lia|exact Hrun|].
  apply HPeek. unfold runtime.maxAlloc. lia.
Defined.

(** * [io.ReadFull] on a PeekBuffer over a [bytes.Reader] *)

Lemma bytes_Read_end (r : bytes.Reader) (k : nat) :
  bytes.rest r = [] -> io.Read r k = ([], Some io.EOF, r).
Proof.
  intros Hend. simpl. unfold bytes.Read, bytes.rest in *.
  apply (f_equal length) in Hend. rewrite length_drop in Hend. simpl in Hend.
  destruct (Nat.leb_spec (length (bytes.s r)) (bytes.i r)); [done|lia].
Qed.

Lemma bytes_Read_more (r : bytes.Reader) (k : nat) :
  bytes.rest r <> [] ->
  exists r', io.Read r k = (take k (bytes.rest r), None, r') /\
             bytes.rest r' = drop k (bytes.rest r).
Proof.
  intros Hmore.
  pose proof (bytes_Read_rest r k) as Hrest.
  simpl. unfold bytes.Read in *. fold (bytes.rest r) in *.
  destruct (Nat.leb_spec (length (bytes.s r)) (bytes.i r)) as [Hle|Hlt].
  - exfalso. apply Hmore. unfold bytes.rest. apply drop_ge. lia.
  - eexists. split; [reflexivity|]. simpl in Hrest.
    rewrite <- (take_drop k (bytes.rest r)) in Hrest at 1.
    by apply app_inv_head in Hrest.
Qed.

(** Writing [d] at [buf[n0:]] changes [buf] there and nowhere else. *)
Lemma content_write_suffix h (buf : slice) (n0 : nat) d :
  wf h buf -> (n0 + length d <= len buf)%nat ->
  content (write h (Slice (arr buf) (off buf + n0) (len buf - n0) (cap buf - n0)) d) buf
    = take n0 (content h buf) ++ d ++ drop (n0 + length d) (content h buf).
Proof.
  intros Hwf Hfit. pose proof (length_content _ _ Hwf) as Hl.
  set (t := Slice (arr buf) (off buf + n0) (len buf - n0) (cap buf - n0)).
  assert (Hin : (off t + length d <= length (backing h t))%nat).
  { destruct Hwf as [Hlc Hc]. unfold t, backing in *. simpl. lia. }
  apply list_eq. intros j.
  destruct (decide (j < len buf)%nat) as [Hj|Hj].
  - rewrite (lookup_content_write h t d buf j Hin eq_refl Hj).
    unfold t. simpl.
    destruct (decide (j < n0)%nat) as [H1|H1].
    + case_decide; [lia|].
      rewrite lookup_app_l by (rewrite length_take; lia).
      by rewrite lookup_take_lt.
    + rewrite lookup_app_r by (rewrite length_take; lia).
      rewrite length_take, Hl, Nat.min_l by lia.
      destruct (decide (j < n0 + length d)%nat) as [H2|H2].
      * case_decide; [|lia]. rewrite lookup_app_l by lia. f_equal. lia.
      * case_decide; [lia|]. rewrite lookup_app_r by lia.
        rewrite lookup_drop. f_equal. lia.
  - rewrite !lookup_ge_None_2; [done| |].
    + rewrite !length_app, length_take, length_drop, Hl. lia.
    + rewrite length_content by (by apply wf_write). lia.
Qed.

Section ReadFullFacts.
Local Abbreviation PeekBuffer := (peekbuffer.PeekBuffer bytes.Reader).
Local Abbreviation buffer := peekbuffer.buffer.
Local Abbreviation reader := peekbuffer.reader.

Lemma ReadAtLeast_pb_loop_stop fuel (this : PeekBuffer) buf min n err h :
  (n <? min) && io.is_nil err = false ->
  ReadAtLeast_pb_loop fuel this buf min n err h = Done (n, err, this, h).
Proof. intros Hc. destruct fuel; simpl; by rewrite Hc. Qed.

Lemma ReadAtLeast_pb_loop_step fuel (this : PeekBuffer) buf min n err h :
  (n <? min) && io.is_nil err = true ->
  ReadAtLeast_pb_loop (S fuel) this buf min n err h
    = (p ← slice_from buf n;
       '(nn, err', this', h') ← peekbuffer.Read this p h;
       ReadAtLeast_pb_loop fuel this' buf min (int.add n nn) err' h').
Proof. intros Hc. simpl. by rewrite Hc. Qed.

Lemma add_fits (a b : nat) :
  Z.of_nat (a + b) <= int.MaxInt ->
  int.add (Z.of_nat a) (Z.of_nat b) = Z.of_nat (a + b).
Proof.
  intros Hfit. unfold int.add. rewrite wrap_id; [lia|].
  unfold int.in_range, int.MinInt, int.MaxInt in *. lia.
Qed.

(** The source has ended and nothing is pending: one round, [io.EOF]. *)
Lemma loop_at_end fuel (this : PeekBuffer) buf (n0 : nat) h :
  (1 <= fuel)%nat ->
  len (buffer this) = 0%nat -> wf h (buffer this) -> wf h buf ->
  Z.of_nat (len buf) <= int.MaxInt -> (n0 < len buf)%nat ->
  bytes.rest (reader this) = [] ->
  ReadAtLeast_pb_loop fuel this buf (Z.of_nat (len buf)) (Z.of_nat n0) None h
    = Done (Z.of_nat n0, Some io.EOF, this, h).
Proof.
  intros Hf Hz Hwf Hbuf Hmax Hn Hend. destruct fuel as [|fuel]; [lia|].
  rewrite ReadAtLeast_pb_loop_step
    by (destruct (Z.ltb_spec (Z.of_nat n0) (Z.of_nat (len buf))); [done|lia]).
  rewrite slice_from_done by lia. rewrite bind_Done_l.
  set (p := Slice (arr buf) (off buf + n0) (len buf - n0) (cap buf - n0)).
  assert (Hp : wf h p) by (apply wf_suffix; [done|lia]).
  destruct (Read_through this p h Hwf Hp Hz [] (Some io.EOF) (reader this))
    as [Heq _]; [by apply bytes_Read_end|].
  rewrite Heq, bind_Done_l. cbv beta iota.
  rewrite write_nil. simpl length.
  rewrite (add_fits n0 0) by lia. rewrite Nat.add_0_r.
  rewrite ReadAtLeast_pb_loop_stop by (simpl; apply andb_false_r).
  by destruct this.
Qed.

(** Nothing is pending: the loop takes from the source what [buf[n0:]]
    holds, in one round, and a second round finds the end when [buf] is not
    full. *)
Lemma loop_through fuel (this : PeekBuffer) buf (n0 : nat) h :
  (2 <= fuel)%nat ->
  len (buffer this) = 0%nat -> wf h (buffer this) -> wf h buf ->
  Z.of_nat (len buf) <= int.MaxInt -> (n0 < len buf)%nat ->
  let rest := bytes.rest (reader this) in
  let k := Nat.min (len buf - n0) (length rest) in
  exists this' h',
    ReadAtLeast_pb_loop fuel this buf (Z.of_nat (len buf)) (Z.of_nat n0) None h
      = Done (Z.of_nat (n0 + k),
              (if decide (n0 + k = len buf)%nat then None else Some io.EOF),
              this', h') /\
    buffer this' = buffer this /\
    bytes.rest (reader this') = drop k rest /\
    content h' buf
      = take n0 (content h buf) ++ take k rest ++ drop (n0 + k) (content h buf).
Proof.
  intros Hf Hz Hwf Hbuf Hmax Hn rest k.
  pose proof (length_content _ _ Hbuf) as Hl.
  destruct (decide (rest = [])) as [Hend|Hmore].
  - assert (k = 0%nat) as -> by (unfold k; rewrite Hend; simpl; lia).
    exists this, h. rewrite Nat.add_0_r.
    rewrite loop_at_end by (try done; lia).
    case_decide; [lia|]. split; [done|]. split; [done|].
    split; [by rewrite drop_0|]. simpl. by rewrite take_drop.
  - destruct fuel as [|fuel]; [lia|].
    rewrite ReadAtLeast_pb_loop_step
      by (destruct (Z.ltb_spec (Z.of_nat n0) (Z.of_nat (len buf))); [done|lia]).
    rewrite slice_from_done by lia. rewrite bind_Done_l.
    set (p := Slice (arr buf) (off buf + n0) (len buf - n0) (cap buf - n0)).
    assert (Hp : wf h p) by (apply wf_suffix; [done|lia]).
    destruct (bytes_Read_more (reader this) (len buf - n0) Hmore)
      as (r' & Hread & Hrest).
    fold rest in Hread, Hrest.
    destruct (Read_through this p h Hwf Hp Hz _ _ _ Hread) as [Heq _].
    rewrite Heq, bind_Done_l. cbv beta iota.
    assert (Hk : length (take (len buf - n0) rest) = k).
    { rewrite length_take. unfold k. lia. }
    rewrite Hk. rewrite (add_fits n0 k) by (unfold k; lia).
    set (h1 := write h p (take (len buf - n0) rest)).
    set (this1 := {| peekbuffer.reader := r'; peekbuffer.buffer := buffer this |}).
    assert (Hin : (off p + length (take (len buf - n0) rest)
                   <= length (backing h p))%nat).
    { rewrite Hk. destruct Hbuf as [Hlc Hc]. unfold p, backing, k in *. simpl. lia. }
    assert (Hc1 : content h1 buf
      = take n0 (content h buf) ++ take k rest ++ drop (n0 + k) (content h buf)).
    { unfold h1, p. rewrite content_write_suffix by (try done; rewrite Hk; unfold k; lia).
      rewrite Hk. do 2 f_equal.
      unfold k. destruct (decide (len buf - n0 <= length rest)%nat).
      - by rewrite Nat.min_l.
      - rewrite Nat.min_r by lia. by rewrite !take_ge by lia. }
    destruct (decide (n0 + k = len buf)%nat) as [Hfull|Hpart].
    + rewrite ReadAtLeast_pb_loop_stop
        by (destruct (Z.ltb_spec (Z.of_nat (n0 + k)) (Z.of_nat (len buf))); [lia|done]).
      exists this1, h1. split; [done|]. split; [done|]. split; [|done].
      simpl. rewrite Hrest. unfold k.
      destruct (decide (len buf - n0 <= length rest)%nat).
      * by rewrite Nat.min_l.
      * lia.
    + assert (Hshort : (length rest < len buf - n0)%nat) by (unfold k in *; lia).
      assert (Hk' : k = length rest) by (unfold k; lia).
      rewrite (loop_at_end fuel this1 buf (n0 + k) h1); try done; try lia.
      * exists this1, h1. split; [done|]. split; [done|]. split; [|done].
        simpl. rewrite Hrest.
        rewrite Hk'. by rewrite !drop_ge by lia.
      * simpl. unfold h1. by apply wf_write.
      * unfold h1. by apply wf_write.
      * simpl. rewrite Hrest. apply drop_ge. lia.
Qed.

(** X18 ([io.ReadFull] on a PeekBuffer). On a PeekBuffer in a sound state
    over a [bytes.Reader], [io.ReadFull(pb, buf)] into a buffer of the
    caller (in another array than the pending bytes) returns after at most
    three [Read]s of the PeekBuffer with [n = min(len(buf), length of the
    stream)], where the stream is the pending bytes followed by what the
    source has left; [buf[:n]] holds the first [n] bytes of the stream, which
    are consumed; the error is nil when [buf] was filled, [io.EOF] when the
    stream was empty, and [io.ErrUnexpectedEOF] otherwise. *)
Theorem X18_ReadFull_on_PeekBuffer fuel (this : PeekBuffer) (buf : slice) h :
  (3 <= fuel)%nat ->
  sound h this -> wf h buf -> Z.of_nat (len buf) <= int.MaxInt ->
  arr buf <> arr (buffer this) \/ len (buffer this) = 0%nat ->
  let n := Nat.min (len buf) (length (stream h this)) in
  exists this' h',
    ReadFull_pb fuel this buf h
      = Done (Z.of_nat n,
              (if decide (n = len buf) then None
               else if decide (n = 0%nat) then Some io.EOF
                    else Some io.ErrUnexpectedEOF),
              this', h') /\
    take n (content h' buf) = take n (stream h this) /\
    stream h' this' = drop n (stream h this).
Proof.
  intros Hf [Hwf Hmax0] Hbuf Hmax Hapart n.
  pose proof (length_content _ _ Hwf) as Hlp.
  pose proof (length_content _ _ Hbuf) as Hlb.
  set (pending := content h (buffer this)) in *.
  set (rest := bytes.rest (reader this)).
  assert (Hstream : stream h this = pending ++ rest) by done.
  assert (Hn : n = Nat.min (len buf) (len (buffer this) + length rest)).
  { unfold n. by rewrite Hstream, length_app, Hlp. }
  assert (Hloop : exists this' h',
    ReadAtLeast_pb_loop fuel this buf (Z.of_nat (len buf)) 0 None h
      = Done (Z.of_nat n,
              (if decide (n = len buf) then None else Some io.EOF), this', h') /\
    take n (content h' buf) = take n (stream h this) /\
    stream h' this' = drop n (stream h this)).
  { destruct (decide (len buf = 0)%nat) as [Hempty|Hpos].
    - assert (n = 0%nat) as -> by lia. exists this, h.
      rewrite ReadAtLeast_pb_loop_stop by (rewrite Hempty; done).
      case_decide; [|lia]. by rewrite !take_0, drop_0.
    - destruct (decide (len (buffer this) = 0)%nat) as [Hz|Hpend].
      + destruct (loop_through fuel this buf 0 h) as (this' & h' & Heq & Hb & Hr & Hc);
          [lia|done|done|done|done|lia|].
        fold rest in Heq, Hr, Hc.
        rewrite Nat.sub_0_r in Heq, Hr, Hc. simpl in Heq, Hc.
        assert (Hpn : pending = []).
        { unfold pending, content. rewrite Hz. apply take_0. }
        assert (Hn' : Nat.min (len buf) (length rest) = n) by lia.
        rewrite Hn' in Heq, Hr, Hc.
        exists this', h'. split; [exact Heq|].
        rewrite Hstream, Hpn. simpl. split.
        * rewrite Hc, take_app_le by (rewrite length_take; lia).
          rewrite take_take. f_equal. lia.
        * unfold stream. simpl. rewrite Hr.
          assert (content h' (buffer this') = []) as ->; [|done].
          unfold content. rewrite Hb, Hz. apply take_0.
      + destruct Hapart as [Hne|?]; [|done].
        destruct fuel as [|fuel]; [lia|].
        rewrite ReadAtLeast_pb_loop_step
          by (destruct (Z.ltb_spec 0 (Z.of_nat (len buf))); [done|lia]).
        pose proof (slice_from_done buf 0 ltac:(lia)) as Hsf.
        change (Z.of_nat 0) with 0 in Hsf. rewrite Hsf, bind_Done_l. clear Hsf.
        assert (Hsame : Slice (arr buf) (off buf + 0) (len buf - 0) (cap buf - 0) = buf).
        { destruct buf. simpl. f_equal; lia. }
        rewrite Hsame.
        destruct (Read_pending this buf h Hwf Hbuf ltac:(lia))
          as (Heq & Hcp & _ & Hnew).
        set (n1 := Nat.min (len buf) (len (buffer this))) in *.
        fold pending in Heq, Hcp, Hnew.
        rewrite Heq, bind_Done_l. cbv beta iota.
        pose proof (add_fits 0 n1 ltac:(unfold n1; lia)) as Hadd.
        change (Z.of_nat 0) with 0 in Hadd. rewrite Nat.add_0_l in Hadd.
        rewrite Hadd. clear Hadd.
        set (h1 := write h buf (take n1 pending)) in *.
        set (this1 := {| peekbuffer.reader := reader this;
                         peekbuffer.buffer :=
                           Slice (arr (buffer this)) (off (buffer this) + n1)
                                 (len (buffer this) - n1) (cap (buffer this) - n1) |}).
        specialize (Hnew Hne).
        assert (Hin : (off buf + length (take n1 pending) <= length (backing h buf))%nat).
        { rewrite length_take. destruct Hbuf as [Hlc Hc]. unfold n1. lia. }
        destruct (decide (n1 = len buf)) as [Hfull|Hpart].
        * rewrite ReadAtLeast_pb_loop_stop
            by (destruct (Z.ltb_spec (Z.of_nat n1) (Z.of_nat (len buf))); [lia|done]).
          assert (n = n1) as -> by (unfold n1 in *; lia).
          exists this1, h1. case_decide; [|done]. split; [done|].
          rewrite Hstream. split.
          -- rewrite Hcp, take_app_le by (rewrite length_take, Hlp; unfold n1; lia).
             rewrite take_take, Nat.min_id.
             by rewrite take_app_le by (rewrite Hlp; unfold n1; lia).
          -- unfold stream. simpl. rewrite Hnew.
             by rewrite drop_app_le by (rewrite Hlp; unfold n1; lia).
        * assert (Hn1 : n1 = len (buffer this)) by (unfold n1 in *; lia).
          assert (Hwf1 : wf h1 (buffer this1)).
          { unfold h1. apply wf_write; [done|].
            simpl. apply (wf_suffix h (buffer this) n1); [done|lia]. }
          assert (Hbuf1 : wf h1 buf) by (unfold h1; by apply wf_write).
          destruct (loop_through fuel this1 buf n1 h1)
            as (this' & h' & Heq2 & Hb & Hr & Hc);
            [lia|simpl; lia|done|done|done|unfold n1 in *; lia|].
          simpl in Heq2, Hr, Hc. fold rest in Heq2, Hr, Hc.
          set (k := Nat.min (len buf - n1) (length rest)) in *.
          assert (n = (n1 + k)%nat) as -> by (unfold k; lia).
          exists this', h'. split; [exact Heq2|].
          assert (Htake : take n1 pending = pending)
            by (apply take_ge; rewrite Hlp; lia).
          rewrite Hstream. split.
          -- rewrite Hc, Hcp, Htake.
             assert (E1 : take n1 (pending ++ drop n1 (content h buf)) = pending)
               by (apply take_app_length'; rewrite Hlp; lia).
             rewrite E1, !(take_app _ _ (n1 + k)), Hlp, <- Hn1. f_equal.
             replace (n1 + k - n1)%nat with k by lia.
             rewrite take_app, take_take, Nat.min_id, length_take.
             replace (k - k `min` length rest)%nat with 0%nat by (unfold k; lia).
             by rewrite take_0, app_nil_r.
          -- unfold stream. simpl. rewrite Hr.
             assert (content h' (buffer this') = []) as ->.
             { unfold content. rewrite Hb. simpl.
               replace (len (buffer this) - n1)%nat with 0%nat by lia. apply take_0. }
             rewrite drop_app_ge by (rewrite Hlp; lia).
             simpl. f_equal. rewrite Hlp. lia. }
  destruct Hloop as (this' & h' & Heq & Hc & Hs).
  exists this', h'. split; [|done].
  unfold ReadFull_pb, ReadAtLeast_pb.
  destruct (Z.ltb_spec (Z.of_nat (len buf)) (Z.of_nat (len buf))); [lia|].
  rewrite Heq, bind_Done_l. cbv beta iota.
  destruct (decide (n = len buf)) as [Hfull|Hpart].
  - destruct (Z.leb_spec (Z.of_nat (len buf)) (Z.of_nat n)); [done|lia].
  - destruct (Z.leb_spec (Z.of_nat (len buf)) (Z.of_nat n)); [lia|].
    destruct (decide (n = 0%nat)) as [->|Hn0]; [done|].
    destruct (Z.ltb_spec 0 (Z.of_nat n)); [done|lia].
Qed.

End ReadFullFacts.

(** The table of [TestPeekBuffer_Read]. *)
Lemma X18_witness :
  let h := [replicate 5 x00] in
  let buf := Slice 0 0 5 5 in
  (exists this' h',
     ReadFull_pb 3 (peekbuffer.NewPeekBuffer (bytes.NewReader (bytes_of "hello")))
       buf h = Done (5, None, this', h') /\
     take 5 (content h' buf) = bytes_of "hello") /\
  (exists this' h',
     ReadFull_pb 3 (peekbuffer.NewPeekBuffer (bytes.NewReader (bytes_of "")))
       buf h = Done (0, Some io.EOF, this', h')) /\
  (exists this' h',
     ReadFull_pb 3 (peekbuffer.NewPeekBuffer (bytes.NewReader (bytes_of "test")))
       buf h = Done (4, Some io.ErrUnexpectedEOF, this', h') /\
     take 4 (content h' buf) = bytes_of "test").
Proof.
  intros h buf.
  assert (Hbuf : wf h buf) by (vm_compute; lia).
  assert (Hmax : Z.of_nat (len buf) <= int.MaxInt) by (vm_compute; discriminate).
  split_and!.
  - destruct (X18_ReadFull_on_PeekBuffer 3
                (peekbuffer.NewPeekBuffer (bytes.NewReader (bytes_of "hello")))
                buf h ltac:(lia) (sound_new _ _) Hbuf Hmax ltac:(by right))
      as (this' & h' & Heq & Hc & _).
    exists this', h'. split; [exact Heq|exact Hc].
  - destruct (X18_ReadFull_on_PeekBuffer 3
                (peekbuffer.NewPeekBuffer (bytes.NewReader (bytes_of "")))
                buf h ltac:(lia) (sound_new _ _) Hbuf Hmax ltac:(by right))
      as (this' & h' & Heq & _).
    exists this', h'. exact Heq.
  - destruct (X18_ReadFull_on_PeekBuffer 3
                (peekbuffer.NewPeekBuffer (bytes.NewReader (bytes_of "test")))
                buf h ltac:(lia) (sound_new _ _) Hbuf Hmax ltac:(by right))
      as (this' & h' & Heq & Hc & _).
    exists this', h'. split; [exact Heq|exact Hc].
Defined.
